(** * Realtime whiteboard: synchronization and recovery engine

    A shallow embedding of the server-side sync engine ([server.js]) and of
    the offline restore tool ([tools/restore.js]).

    - MongoDB collections are finite maps ([gmap]) or insertion-ordered lists.
    - Database calls live in a small state-and-exception monad; every call
      takes the [session] argument the source passes (or omits), so that the
      transaction boundary of [withTransaction] is part of the model.
    - [crypto.randomUUID()], storage failures and generated ObjectIds are
      oracles handed to the handlers; SHA-256 and the TLDraw sanitizer are
      section variables of the engine. The sanitizer itself is embedded on
      JSON values in module [Tl].
    - Ids are compared as strings, as the source does on ids in the
      spelling of the [ObjectId]; the statements that depend on that
      spelling say so ([is_object_id], [joins_canonical]).
    - The chat merge of the restore tool, the cookie parser with the
      handshake middleware, and the presence store (module [Presence]) are
      embedded on their own, next to the engine.
    - Numbers are mathematical integers ([Z]); wall-clock fields
      ([updatedAt], [createdAt]) and the chat handlers are left out. *)

From stdpp Require Import base option list sorting strings gmap pretty.
From Stdlib Require Import ZArith Lia Ascii.

Local Open Scope Z_scope.

(** ** Identifiers and plain data *)

Abbreviation BoardId := string (only parsing).
Abbreviation UserId := string (only parsing).
Abbreviation SocketId := string (only parsing).
Abbreviation Tldraw := string (only parsing).

(** [role: { type: String, enum: ['owner', 'editor', 'viewer'] }] *)
Inductive Role := owner | editor | viewer.

#[global] Instance Role_eq_dec : EqDecision Role.
Proof. solve_decision. Defined.

Record Member := { userId : UserId; role : Role }.

#[global] Instance Member_eq_dec : EqDecision Member.
Proof. solve_decision. Defined.

(** The nested [op] object of a batch item; only its [id] is inspected. *)
Record Payload := { payload_id : option string; payload_body : string }.

#[global] Instance Payload_eq_dec : EqDecision Payload.
Proof. solve_decision. Defined.

(** One element of [payload.ops] as the clients build it: an object with
    optional [opId], optional nested [op], the client [id] and [ts] that the
    persistence buffer merges on, and the opaque change set. On objects the
    normalisation [typeof o === 'object' ? o : { op: o }] is the identity. *)
Record OpItem := {
  item_opId : option string;
  item_op : option Payload;
  item_id : option string;
  item_ts : Z;
  item_changes : string;
}.

#[global] Instance OpItem_eq_dec : EqDecision OpItem.
Proof. solve_decision. Defined.

(** JavaScript truthiness of an optional string: [undefined] and the empty
    string are falsy. *)
Definition truthy (v : option string) : option string :=
  match v with
  | Some s => if decide (s = "") then None else Some s
  | None => None
  end.

(** [item.opId || (item.op && item.op.id)]: the idempotency key the client
    supplied, if any. *)
Definition client_key (item : OpItem) : option string :=
  match truthy (item_opId item) with
  | Some k => Some k
  | None =>
      match item_op item with
      | Some p => truthy (payload_id p)
      | None => None
      end
  end.

(** ** Persistence buffer: [mergeOps] *)

(** A JavaScript [Map]: keys keep the position of their first insertion,
    [set] on a present key replaces the value in place. *)
Module JsMap.
Section JsMap.
Context {K V : Type} `{EqDecision K}.

Fixpoint get (k : K) (m : list (K * V)) : option V :=
  match m with
  | [] => None
  | (k', v) :: m' => if decide (k = k') then Some v else get k m'
  end.

Fixpoint set (k : K) (v : V) (m : list (K * V)) : list (K * V) :=
  match m with
  | [] => [(k, v)]
  | (k', v') :: m' =>
      if decide (k = k') then (k, v) :: m' else (k', v') :: set k v m'
  end.

Definition values (m : list (K * V)) : list V := snd <$> m.

Definition keys (m : list (K * V)) : list K := fst <$> m.

End JsMap.
End JsMap.

(** [Array.prototype.sort(cmp)] and Mongo's [.sort({ field: 1 })] are stable:
    for a total preorder [le] the result is the stable insertion sort. *)
Section stable_sort.
Context {A : Type} (le : A → A → Prop) `{!∀ x y, Decision (le x y)}.

Fixpoint insert_sorted (x : A) (l : list A) : list A :=
  match l with
  | [] => [x]
  | y :: l' => if decide (le x y) then x :: l else y :: insert_sorted x l'
  end.

Definition stable_sort (l : list A) : list A := foldr insert_sorted [] l.

End stable_sort.

(** The order induced by the comparator [(a, b) => a.ts - b.ts]. *)
Definition ts_le (a b : OpItem) : Prop := item_ts a ≤ item_ts b.

#[global] Instance ts_le_dec a b : Decision (ts_le a b).
Proof. unfold ts_le. apply _. Defined.

(** The callback of [forEach] in [mergeOps]. *)
Definition merge_step (m : list (option string * OpItem)) (op : OpItem)
  : list (option string * OpItem) :=
  match JsMap.get (item_id op) m with
  | None => JsMap.set (item_id op) op m
  | Some cur =>
      if decide (item_ts cur ≤ item_ts op)
      then JsMap.set (item_id op) op m
      else m
  end.

Definition mergeOps (existing incoming : list OpItem) : list OpItem :=
  stable_sort ts_le (JsMap.values (foldl merge_step [] (existing ++ incoming))).

(** ** Collections *)

(** The [op] field of a stored operation: [item.op || item]. *)
Inductive StoredOp :=
  | StoredPayload (p : Payload)
  | StoredItem (i : OpItem)
  | StoredExport (seq : option Z) (opId : option string) (authorId : option UserId).

(** [boardOpSchema]; [seq] is absent when Restore copies an item without one. *)
Record BoardOp := {
  bo_boardId : BoardId;
  bo_seq : option Z;
  bo_opId : string;
  bo_op : StoredOp;
  bo_authorId : option UserId;
}.

(** [boardSnapshotSchema] *)
Record BoardSnapshot := {
  snap_boardId : BoardId;
  snap_version : Z;
  snap_tldraw : option Tldraw;
  snap_checksum : string;
}.

(** [board.document] *)
Record Document := { doc_tldraw : option Tldraw; doc_ops : list OpItem }.

(** [boardSchema] *)
Record Board := {
  board_title : string;
  board_document : Document;
  board_members : list Member;
  board_publicViewerToken : string;
}.

Record User := { user_id : UserId; user_email : string }.

(** The database: [Counter] and [Board] are keyed by [_id]; [BoardOp] and
    [BoardSnapshot] are kept in insertion order. *)
Record Db := {
  users : list User;
  boards : gmap string Board;
  counters : gmap string Z;
  boardOps : list BoardOp;
  boardSnapshots : list BoardSnapshot;
}.

Definition empty_db : Db :=
  {| users := []; boards := ∅; counters := ∅; boardOps := []; boardSnapshots := [] |}.

Definition set_boards (f : gmap string Board → gmap string Board) (d : Db) : Db :=
  {| users := users d; boards := f (boards d); counters := counters d;
     boardOps := boardOps d; boardSnapshots := boardSnapshots d |}.

Definition set_counters (f : gmap string Z → gmap string Z) (d : Db) : Db :=
  {| users := users d; boards := boards d; counters := f (counters d);
     boardOps := boardOps d; boardSnapshots := boardSnapshots d |}.

Definition set_boardOps (f : list BoardOp → list BoardOp) (d : Db) : Db :=
  {| users := users d; boards := boards d; counters := counters d;
     boardOps := f (boardOps d); boardSnapshots := boardSnapshots d |}.

Definition set_boardSnapshots (f : list BoardSnapshot → list BoardSnapshot) (d : Db) : Db :=
  {| users := users d; boards := boards d; counters := counters d;
     boardOps := boardOps d; boardSnapshots := f (boardSnapshots d) |}.

(** [`board:${boardId.toString()}:op_seq`] *)
Definition counter_key (boardId : BoardId) : string :=
  "board:" +:+ boardId +:+ ":op_seq".

(** The operations of one board, in insertion order. *)
Definition ops_of (boardId : BoardId) (ops : list BoardOp) : list BoardOp :=
  filter (λ r, bo_boardId r = boardId) ops.

Definition snapshots_of (boardId : BoardId) (l : list BoardSnapshot) : list BoardSnapshot :=
  filter (λ r, snap_boardId r = boardId) l.

(** [BoardOp.findOne({ boardId, opId })]. An [undefined] opId is sent as
    [null]; every stored record carries a string there, so nothing matches. *)
Definition find_op (boardId : BoardId) (opId : option string) (ops : list BoardOp)
  : option BoardOp :=
  match opId with
  | Some k => head (filter (λ r, bo_boardId r = boardId ∧ bo_opId r = k) ops)
  | None => None
  end.

(** ** Database calls *)

(** What a database call can throw: a storage failure, or E11000. *)
Inductive Error := StorageError | DuplicateKey.

Inductive Result (A : Type) := Ok (a : A) | Throw (e : Error).
Arguments Ok {A} a.
Arguments Throw {A} e.

(** The handle returned by [mongoose.startSession()]. *)
Inductive Session := ClientSession.

(** What a handler runs against: the committed database, the working copy of
    the open transaction (if any), the number of database calls that still
    succeed before storage fails ([None]: it never fails), and the values
    [crypto.randomUUID()] returns, in call order. *)
Record World := {
  committed : Db;
  txn : option Db;
  budget : option nat;
  uuid_source : nat → string;
  uuid_calls : nat;
}.

Definition M (A : Type) : Type := World → Result A * World.

Definition ret {A} (a : A) : M A := λ w, (Ok a, w).

Definition bind {A B} (m : M A) (k : A → M B) : M B :=
  λ w, match m w with
       | (Ok a, w') => k a w'
       | (Throw e, w') => (Throw e, w')
       end.

(** [try { m } catch (e) { h e }] *)
Definition catch {A} (m : M A) (h : Error → M A) : M A :=
  λ w, match m w with
       | (Ok a, w') => (Ok a, w')
       | (Throw e, w') => h e w'
       end.

Notation "'await' x ← m ; k" := (bind m (λ x, k))
  (at level 10, x binder, m at level 100, k at level 200).

Definition set_store (c : Db) (t : option Db) (w : World) : World :=
  {| committed := c; txn := t; budget := budget w;
     uuid_source := uuid_source w; uuid_calls := uuid_calls w |}.

(** The database a call sees: the transaction's working copy when the call
    carries the session and a transaction is open, the committed data
    otherwise. *)
Definition view (session : option Session) (w : World) : Db :=
  match session, txn w with
  | Some _, Some t => t
  | _, _ => committed w
  end.

Definition store (session : option Session) (d : Db) (w : World) : World :=
  match session, txn w with
  | Some _, Some _ => set_store (committed w) (Some d) w
  | _, _ => set_store d (txn w) w
  end.

(** One round trip to the database. *)
Definition tick : M unit :=
  λ w, match budget w with
       | None => (Ok (), w)
       | Some O => (Throw StorageError, w)
       | Some (S n) =>
           (Ok (), {| committed := committed w; txn := txn w; budget := Some n;
                      uuid_source := uuid_source w; uuid_calls := uuid_calls w |})
       end.

Definition db_call {A} (session : option Session) (f : Db → Result A * Db) : M A :=
  await _ ← tick;
  λ w, let '(r, d) := f (view session w) in (r, store session d w).

Definition randomUUID : M string :=
  λ w, (Ok (uuid_source w (uuid_calls w)),
        {| committed := committed w; txn := txn w; budget := budget w;
           uuid_source := uuid_source w; uuid_calls := S (uuid_calls w) |}).

Definition startSession : M Session :=
  await _ ← tick; ret ClientSession.

(** [session.withTransaction(fn)]: the callback runs on a working copy that
    is committed when it returns and dropped when it throws. The driver's
    retry of transient errors is not modelled. *)
Definition withTransaction (fn : M unit) : M unit :=
  λ w, match fn (set_store (committed w) (Some (committed w)) w) with
       | (Ok _, w1) =>
           match tick w1 with
           | (Ok _, w2) => (Ok (), set_store (view (Some ClientSession) w2) None w2)
           | (Throw e, w2) => (Throw e, set_store (committed w2) None w2)
           end
       | (Throw e, w1) => (Throw e, set_store (committed w1) None w1)
       end.

Definition BoardOp_findOne (boardId : BoardId) (opId : option string)
    (session : option Session) : M (option BoardOp) :=
  db_call session (λ d, (Ok (find_op boardId opId (boardOps d)), d)).

(** [BoardOp.create]; the unique index on [(boardId, opId)] rejects a second
    record with the same pair (E11000). *)
Definition BoardOp_create (r : BoardOp) (session : option Session) : M BoardOp :=
  db_call session (λ d,
    match find_op (bo_boardId r) (Some (bo_opId r)) (boardOps d) with
    | Some _ => (Throw DuplicateKey, d)
    | None => (Ok r, set_boardOps (λ l, l ++ [r]) d)
    end).

Definition BoardOp_countDocuments (boardId : BoardId) (session : option Session) : M Z :=
  db_call session (λ d, (Ok (Z.of_nat (length (ops_of boardId (boardOps d)))), d)).

(** [Counter.findOneAndUpdate({ _id: key }, { $inc: { seq: 1 } },
    { new: true, upsert: true })]: returns the incremented value. *)
Definition Counter_findOneAndUpdate_inc (key : string) (session : option Session) : M Z :=
  db_call session (λ d,
    let v := default 0 (counters d !! key) + 1 in
    (Ok v, set_counters (<[key := v]>) d)).

Definition Counter_findOne (key : string) : M (option Z) :=
  db_call None (λ d, (Ok (counters d !! key), d)).

(** [Counter.create] and [doc.save()] of a counter document. *)
Definition Counter_put (key : string) (seq : Z) : M unit :=
  db_call None (λ d, (Ok (), set_counters (<[key := seq]>) d)).

Definition Board_findById (boardId : BoardId) (session : option Session) : M (option Board) :=
  db_call session (λ d, (Ok (boards d !! boardId), d)).

Definition Board_create (boardId : BoardId) (b : Board) : M unit :=
  db_call None (λ d,
    match boards d !! boardId with
    | Some _ => (Throw DuplicateKey, d)
    | None => (Ok (), set_boards (<[boardId := b]>) d)
    end).

Definition Board_save (boardId : BoardId) (b : Board) : M unit :=
  db_call None (λ d, (Ok (), set_boards (<[boardId := b]>) d)).

(** [Board.findByIdAndUpdate(boardId, { $set: { document: doc } })]: no
    upsert, a missing board is left missing. *)
Definition Board_findByIdAndUpdate_document (boardId : BoardId) (doc : Document) : M unit :=
  db_call None (λ d,
    (Ok (), set_boards (alter (λ b,
       {| board_title := board_title b; board_document := doc;
          board_members := board_members b;
          board_publicViewerToken := board_publicViewerToken b |}) boardId) d)).

Definition BoardSnapshot_countDocuments (boardId : BoardId) (session : option Session) : M Z :=
  db_call session (λ d,
    (Ok (Z.of_nat (length (snapshots_of boardId (boardSnapshots d)))), d)).

Definition BoardSnapshot_create (r : BoardSnapshot) (session : option Session) : M unit :=
  db_call session (λ d, (Ok (), set_boardSnapshots (λ l, l ++ [r]) d)).

(** [nextBoardSeq(boardId, session)] *)
Definition nextBoardSeq (boardId : BoardId) (session : option Session) : M Z :=
  let key := counter_key boardId in
  await seq ← Counter_findOneAndUpdate_inc key session;
  ret seq.

(** [for (const item of arr) { await body(item) }] *)
Fixpoint for_each {A} (body : A → M unit) (arr : list A) : M unit :=
  match arr with
  | [] => ret ()
  | item :: rest => await _ ← body item; for_each body rest
  end.

(** ** Sync coordinator state *)

(** [socket.data] *)
Record SocketData := {
  sock_userId : option UserId;
  sock_boardId : option BoardId;
  sock_role : Role;
}.

(** An entry of [_buffers]; [buf_timer] tells whether the flush timer is set. *)
Record Buffer := {
  buf_ops : list OpItem;
  buf_snapshot : option Tldraw;
  buf_timer : bool;
}.

Record Server := {
  db : Db;
  sockets : gmap string SocketData;
  buffers : gmap string Buffer;
}.

(** A server process started on the database [d]. *)
Definition boot (d : Db) : Server := {| db := d; sockets := ∅; buffers := ∅ |}.

Definition set_db (d : Db) (s : Server) : Server :=
  {| db := d; sockets := sockets s; buffers := buffers s |}.

(** One record of the [ops] array of an export file. *)
Record ArtOp := {
  art_seq : option Z;
  art_opId : option string;
  art_op : option StoredOp;
  art_authorId : option UserId;
}.

(** The export file. *)
Record Artifact := {
  meta_boardId : option BoardId;
  meta_title : option string;
  meta_baseVersion : Z;
  meta_checksum : string;
  art_snapshot : option Tldraw;
  art_ops : list ArtOp;
  art_members : list Member;
}.

Inductive Response :=
  | JsonOk
  | JsonError (status : nat) (error : string)
  | JsonBoard (b : Board)
  | JsonSnapshot (version : Z) (checksum : string)
  | JsonExport (a : Artifact)
  | NoResponse.

Inductive Output :=
  | Ack (to : SocketId) (ok : bool) (error : option string) (role : option Role)
  | EmitBoardOps (from : SocketId) (room : BoardId) (ops : list OpItem)
      (snapshot : option Tldraw)
  | Respond (r : Response).

(** Run a handler body on the database [d]. *)
Definition run {A} (m : M A) (faults : option nat) (uuid : nat → string) (d : Db)
  : Result A * Db :=
  let '(r, w) := m {| committed := d; txn := None; budget := faults;
                      uuid_source := uuid; uuid_calls := 0 |} in
  (r, committed w).

(** [b.members.find(m => String(m.userId) === String(uid))] *)
Definition find_member (uid : UserId) (members : list Member) : option Member :=
  head (filter (λ m, userId m = uid) members).

(** [b.members.filter(x => x.role === 'owner')] *)
Definition owners (members : list Member) : list Member :=
  filter (λ m, role m = owner) members.

(** Assignment [m.role = r] to the member that [find] returned. *)
Fixpoint set_role (uid : UserId) (r : Role) (members : list Member) : list Member :=
  match members with
  | [] => []
  | m :: rest =>
      if decide (userId m = uid)
      then {| userId := userId m; role := r |} :: rest
      else m :: set_role uid r rest
  end.

(** [b.members.splice(idx, 1)] at the index [findIndex] returned. *)
Fixpoint remove_member (uid : UserId) (members : list Member) : list Member :=
  match members with
  | [] => []
  | m :: rest =>
      if decide (userId m = uid) then rest else m :: remove_member uid rest
  end.

Definition set_members (members : list Member) (b : Board) : Board :=
  {| board_title := board_title b; board_document := board_document b;
     board_members := members;
     board_publicViewerToken := board_publicViewerToken b |}.

Definition set_document (doc : Document) (b : Board) : Board :=
  {| board_title := board_title b; board_document := doc;
     board_members := board_members b;
     board_publicViewerToken := board_publicViewerToken b |}.

(** [String.prototype.toLowerCase] on ASCII letters. *)
Definition ascii_lower (c : Ascii.ascii) : Ascii.ascii :=
  let n := Ascii.nat_of_ascii c in
  if decide (65 ≤ n ≤ 90)%nat then Ascii.ascii_of_nat (n + 32) else c.

Fixpoint toLowerCase (s : string) : string :=
  match s with
  | EmptyString => EmptyString
  | String c s' => String (ascii_lower c) (toLowerCase s')
  end.

(** The characters [String.prototype.trim] removes, among the first 256:
    tab, line feed, vertical tab, form feed, carriage return, space and
    no-break space. *)
Definition is_whitespace (c : Ascii.ascii) : bool :=
  let n := Ascii.nat_of_ascii c in
  bool_decide ((9 ≤ n ≤ 13)%nat ∨ n = 32%nat ∨ n = 160%nat).

Fixpoint trimStart (s : string) : string :=
  match s with
  | EmptyString => EmptyString
  | String c s' => if is_whitespace c then trimStart s' else s
  end.

(** [s.trim()] *)
Definition trim (s : string) : string :=
  String.rev (trimStart (String.rev (trimStart s))).

(** [User.findOne({ email })]. Mongoose casts the filter with the setters of
    the schema path, [lowercase: true, trim: true]. *)
Definition User_findOne (email : string) (d : Db) : option User :=
  let email := toLowerCase (trim email) in
  head (filter (λ u, user_email u = email) (users d)).

(** ** TLDraw snapshots

    A snapshot is a JSON value. An object is the list of its properties in
    the order JavaScript keeps them; reading a property takes the first
    entry of that name, assigning one replaces it in place or appends it.
    The deep copy [JSON.parse(JSON.stringify(snap))] is the identity on
    such values. *)
Module Tl.

#[warnings="-register-all"]
Inductive Json :=
  | JNull
  | JBool (b : bool)
  | JNum (n : Z)
  | JStr (s : string)
  | JArr (items : list Json)
  | JObj (fields : list (string * Json)).

(** [!!v] *)
Definition to_boolean (v : Json) : bool :=
  match v with
  | JNull => false
  | JBool b => b
  | JNum n => negb (n =? 0)
  | JStr s => negb (String.eqb s "")
  | JArr _ | JObj _ => true
  end.

(** [typeof v === 'object'] *)
Definition typeof_object (v : Json) : bool :=
  match v with
  | JNull | JArr _ | JObj _ => true
  | _ => false
  end.

(** [v.k] for the property names the sanitizer reads; a primitive or an
    array has none of them. *)
Definition prop (k : string) (v : Json) : option Json :=
  match v with
  | JObj fields => JsMap.get k fields
  | _ => None
  end.

(** [x == null], for the result of a property read. *)
Definition nullish (x : option Json) : bool :=
  match x with
  | None | Some JNull => true
  | _ => false
  end.

(** [x === s] for a string literal [s]. *)
Definition is_string (s : string) (x : option Json) : bool :=
  match x with
  | Some (JStr t) => String.eqb t s
  | _ => false
  end.

(** [s.endsWith(suffix)] *)
Fixpoint endsWith (s suffix : string) : bool :=
  if String.eqb s suffix then true
  else match s with
       | EmptyString => false
       | String _ s' => endsWith s' suffix
       end.

(** [s.startsWith(prefix)] *)
Definition startsWith (s prefix : string) : bool := String.prefix prefix s.

(** [rec.meta = {}] *)
Definition set_meta (fields : list (string * Json)) : list (string * Json) :=
  JsMap.set "meta" (JObj []) fields.

(** [if ('meta' in rec && (rec.meta === undefined || rec.meta === null))
    rec.meta = {}]; a property that is present is never [undefined] in a
    JSON value. *)
Definition repair_meta (fields : list (string * Json)) : list (string * Json) :=
  match JsMap.get "meta" fields with
  | Some JNull => set_meta fields
  | _ => fields
  end.

(** [if (rec.meta == null) rec.meta = {}] *)
Definition fill_meta (fields : list (string * Json)) : list (string * Json) :=
  if nullish (JsMap.get "meta" fields) then set_meta fields else fields.

(** A change made in place to [rec.value] when it is an object. A property
    assigned to an array is dropped by every consumer of the result
    ([JSON.stringify], BSON), so arrays are left as they are. *)
Definition on_value (f : list (string * Json) → list (string * Json))
    (fields : list (string * Json)) : list (string * Json) :=
  match JsMap.get "value" fields with
  | Some (JObj vs) => JsMap.set "value" (JObj (f vs)) fields
  | _ => fields
  end.

(** [ensureAnyMeta(rec)] *)
Definition ensureAnyMeta (rec : Json) : Json :=
  match rec with
  | JObj fields => JObj (on_value repair_meta (repair_meta fields))
  | _ => rec
  end.

(** The test [isDoc] of [ensureDocMetaOnRecord]. *)
Definition isDoc (rec : Json) : bool :=
  is_string "tl_document" (prop "typeName" rec)
  || is_string "document" (prop "type" rec)
  || match prop "typeName" rec with
     | Some (JStr s) => endsWith s "_document"
     | _ => false
     end
  || match prop "id" rec with
     | Some (JStr s) => startsWith s "document:"
     | _ => false
     end.

(** [ensureDocMetaOnRecord(rec)] *)
Definition ensureDocMetaOnRecord (rec : Json) : Json :=
  if to_boolean rec then
    ensureAnyMeta
      (if isDoc rec then
         match rec with
         | JObj fields => JObj (on_value fill_meta (fill_meta fields))
         | _ => rec
         end
       else rec)
  else rec.

(** [recs.forEach(ensureDocMetaOnRecord)] on the array, or on the values of
    the object, that holds the records; [None] when it is neither. *)
Definition forEach_record (records : Json) : option Json :=
  match records with
  | JArr items => Some (JArr (ensureDocMetaOnRecord <$> items))
  | JObj fields => Some (JObj (prod_map id ensureDocMetaOnRecord <$> fields))
  | _ => None
  end.

(** What a call leaves: the value it returns ([None] for [null]), or the
    [TypeError] of an assignment to a property of a primitive. *)
Inductive Outcome :=
  | Returns (v : option Json)
  | Throws.

(** The choice of [recs] and [recs.forEach(ensureDocMetaOnRecord)]:
    [c.store.records] when it is an array or an object, else [c.records]
    when it is one, else nothing. *)
Definition visit_records (c : list (string * Json)) : list (string * Json) :=
  let in_store :=
    match JsMap.get "store" c with
    | Some (JObj store) =>
        match JsMap.get "records" store ≫= forEach_record with
        | Some records =>
            Some (JsMap.set "store" (JObj (JsMap.set "records" records store)) c)
        | None => None
        end
    | _ => None
    end in
  match in_store with
  | Some c' => c'
  | None =>
      match JsMap.get "records" c ≫= forEach_record with
      | Some records => JsMap.set "records" records c
      | None => c
      end
  end.

(** [sanitizeTlSnapshotDeep(snap)]; [None] is [undefined]. *)
Definition sanitizeTlSnapshotDeep (snap : option Json) : Outcome :=
  match snap with
  | Some (JObj c) =>
      let c := visit_records c in
      match JsMap.get "document" c with
      | Some (JObj document) =>
          Returns (Some (JObj (JsMap.set "document" (JObj (fill_meta document)) c)))
      | Some (JArr _) => Returns (Some (JObj c))
      | Some v => if to_boolean v then Throws else Returns (Some (JObj c))
      | None => Returns (Some (JObj c))
      end
  | Some (JArr items) => Returns (Some (JArr items))
  | _ => Returns None
  end.

(** The elements of an array, or the values of an object: what
    [recs.forEach] visits. *)
Definition list_of (records : option Json) : option (list Json) :=
  match records with
  | Some (JArr items) => Some items
  | Some (JObj fields) => Some (JsMap.values fields)
  | _ => None
  end.

(** The records a snapshot holds, where the sanitizer looks for them. *)
Definition records_of (c : Json) : list Json :=
  match list_of (prop "store" c ≫= prop "records") with
  | Some l => l
  | None => default [] (list_of (prop "records" c))
  end.

(** A record has a [meta] that is neither missing nor [null], and so has
    its [value] when that is an object. *)
Definition has_meta (rec : Json) : Prop :=
  nullish (prop "meta" rec) = false
  ∧ ∀ vs, prop "value" rec = Some (JObj vs) → nullish (JsMap.get "meta" vs) = false.

(** No [meta] of the record, or of its [value], is [null]. *)
Definition no_null_meta (rec : Json) : Prop :=
  prop "meta" rec ≠ Some JNull
  ∧ ∀ vs, prop "value" rec = Some (JObj vs) → JsMap.get "meta" vs ≠ Some JNull.

(** A record is settled when the sanitizer has nothing to do on it: no
    [meta] is [null], and a document record has its metas. *)
Definition settled (rec : Json) : Prop :=
  no_null_meta rec ∧ (isDoc rec = true → has_meta rec).

End Tl.

(** ** Chat history in the restore tool *)

(** An entry of [board.chat]; [ts], [userId] and [text] may be missing,
    the other fields are not inspected. *)
Record ChatMsg := {
  chat_ts : option Z;
  chat_userId : option string;
  chat_text : option string;
  chat_rest : string;
}.

#[global] Instance ChatMsg_eq_dec : EqDecision ChatMsg.
Proof. solve_decision. Defined.

(** [`${x}`] for a number (an integer below 10^21 in absolute value) or
    [undefined]. *)
Definition template_number (x : option Z) : string :=
  match x with
  | Some n => pretty n
  | None => "undefined"
  end.

(** [`${x}`] for a string or [undefined]. *)
Definition template_string (x : option string) : string := default "undefined" x.

(** [`${c.ts}-${c.userId}-${(c.text||'').slice(0,200)}`] *)
Definition chat_key (c : ChatMsg) : string :=
  template_number (chat_ts c) +:+ "-" +:+ template_string (chat_userId c) +:+ "-"
  +:+ String.substring 0 200 (default "" (truthy (chat_text c))).

(** The callback of [forEach] in the merge of the chat: [seen] and
    [mergedChat]. *)
Definition chat_step (st : gset string * list ChatMsg) (c : ChatMsg)
  : gset string * list ChatMsg :=
  let k := chat_key c in
  if decide (k ∈ st.1) then st else ({[k]} ∪ st.1, st.2 ++ [c]).

(** [mergedChat] for the chat of the board and the chat of the file. *)
Definition mergedChat (old incoming : list ChatMsg) : list ChatMsg :=
  (foldl chat_step (∅, []) (old ++ incoming)).2.

(** What the loop appends for the messages [l] when the keys [seen] have
    been met. *)
Fixpoint fresh_chat (seen : gset string) (l : list ChatMsg) : list ChatMsg :=
  match l with
  | [] => []
  | c :: l' =>
      if decide (chat_key c ∈ seen) then fresh_chat seen l'
      else c :: fresh_chat ({[chat_key c]} ∪ seen) l'
  end.

(** ** The cookie header

    A header is a string of Latin-1 characters, as Node hands it over. *)

(** [s.split(sep)] for a one-character separator. *)
Fixpoint split (sep : Ascii.ascii) (s : string) : list string :=
  match s with
  | EmptyString => [EmptyString]
  | String c s' =>
      if decide (c = sep) then EmptyString :: split sep s'
      else match split sep s' with
           | p :: ps => String c p :: ps
           | [] => [String c EmptyString]
           end
  end.

(** [s.indexOf(c)]; [None] is [-1]. *)
Fixpoint indexOf (c : Ascii.ascii) (s : string) : option nat :=
  match s with
  | EmptyString => None
  | String x s' => if decide (x = c) then Some 0%nat else S <$> indexOf c s'
  end.

(** [s.slice(from, to)] and [s.slice(from)] for indices within the string. *)
Definition slice (from to : nat) (s : string) : string :=
  String.substring from (to - from) s.

Definition slice_from (from : nat) (s : string) : string :=
  String.substring from (String.length s - from) s.

Section Cookie.

(** [decodeURIComponent]; [None] is the [URIError] of a malformed escape. *)
Variable decodeURIComponent : string → option string.

(** [out[key] = value] on a plain object, for a string value: the name
    [__proto__] reaches the setter of [Object.prototype], which ignores a
    value that is not an object. *)
Definition assign (key value : string) (out : gmap string string) : gmap string string :=
  if decide (key = "__proto__") then out else <[key := value]> out.

(** The callback of [forEach] in [parseCookie]; [None] when the decoding
    throws. *)
Definition cookie_part (out : gmap string string) (p : string)
  : option (gmap string string) :=
  match indexOf "="%char p with
  | Some i =>
      value ← decodeURIComponent (slice_from (i + 1) p);
      Some (assign (trim (slice 0 i p)) value out)
  | None => Some out
  end.

(** [parseCookie(header)] *)
Definition parseCookie (header : string) : option (gmap string string) :=
  foldl (λ out p, out ≫= λ out, cookie_part out p) (Some ∅) (split ";"%char header).

(** [jwt.verify(token, JWT_SECRET).sub]; [None] when the verification
    throws or the payload carries no [sub]. *)
Variable jwt_sub : string → option UserId.

(** The middleware [io.use]: [None] when it refuses the handshake with the
    error of [parseCookie], else the [socket.data.userId] it attaches. The
    argument is [socket.request.headers?.cookie]. *)
Definition io_use (cookie : option string) : option (option UserId) :=
  cookies ← parseCookie (default "" (truthy cookie));
  Some (truthy (cookies !! "access_token") ≫= jwt_sub).

End Cookie.

(** ** The presence store

    [presenceByBoard] and the handlers that touch it, as a machine of its
    own: next to the store it keeps [socket.data.boardId] of every connected
    socket. The event [Joined] is a [room:join] that got past the checks of
    the board and of the caller, where the handler turns to the store.
    Handlers are registered per connection: an event of a socket that is
    not connected leaves the state as it is. *)
Module Presence.

(** The argument of [presence:join]; [boardId] is a string when present. *)
Record User := {
  user_id : option string;
  user_name : option string;
  user_color : option string;
  user_boardId : option BoardId;
}.

(** [{ id, name, color, socketId, boardId }] *)
Record Entry := {
  entry_id : option string;
  entry_name : string;
  entry_color : string;
  entry_socketId : SocketId;
  entry_boardId : BoardId;
}.

Record State := {
  boardOf : gmap SocketId (option BoardId);
  presenceByBoard : gmap BoardId (list (SocketId * Entry));
}.

Inductive Event :=
  | Connect (sid : SocketId)
  | Joined (sid : SocketId) (boardId : BoardId)
  | PresenceJoin (sid : SocketId) (user : User)
  | PresenceList (sid : SocketId) (boardId : option BoardId)
  | Disconnect (sid : SocketId).

Inductive Output :=
  | ToRoom (room : BoardId) (event : string) (sid : SocketId)
  | ToRoomJoin (room : BoardId) (record : Entry)
  | Roster (sid : SocketId) (users : list Entry)
  | AckList (sid : SocketId) (users : option (list Entry)).

Definition initial : State := {| boardOf := ∅; presenceByBoard := ∅ |}.

(** [map.delete(key)]: whether the key was there, and the map without it. *)
Definition map_delete (key : SocketId) (map : list (SocketId * Entry))
  : bool * list (SocketId * Entry) :=
  (bool_decide (is_Some (JsMap.get key map)), filter (λ kv, kv.1 ≠ key) map).

(** [a || b] on identifiers *)
Definition or_else (a b : option BoardId) : option BoardId :=
  match truthy a with
  | Some x => Some x
  | None => truthy b
  end.

(** [const map = presenceByBoard.get(room);
     if (map && map.delete(socket.id)) { io.to(room).emit(event, socket.id) ... }] *)
Definition leave (sid : SocketId) (room : BoardId) (events : list string) (s : State)
  : State * list Output :=
  match presenceByBoard s !! room with
  | Some map =>
      let '(was_there, map) := map_delete sid map in
      if was_there
      then ({| boardOf := boardOf s;
               presenceByBoard := <[room := map]> (presenceByBoard s) |},
            (λ event, ToRoom room event sid) <$> events)
      else (s, [])
  | None => (s, [])
  end.

(** [{ id: user.id, name: user.name || 'User', color: user.color || '#7c3aed',
       socketId: socket.id, boardId }] *)
Definition record_of (sid : SocketId) (boardId : BoardId) (user : User) : Entry :=
  {| entry_id := user_id user;
     entry_name := default "User" (truthy (user_name user));
     entry_color := default "#7c3aed" (truthy (user_color user));
     entry_socketId := sid;
     entry_boardId := boardId |}.

(** [room:join], from the test of [socket.data.boardId] on. *)
Definition on_joined (sid : SocketId) (boardId : BoardId) (s : State)
  : State * list Output :=
  match boardOf s !! sid with
  | None => (s, [])
  | Some current =>
      let '(s, out) :=
        match truthy current with
        | Some prev =>
            if decide (prev ≠ boardId) then leave sid prev ["presence:leave"] s
            else (s, [])
        | None => (s, [])
        end in
      ({| boardOf := <[sid := Some boardId]> (boardOf s);
          presenceByBoard :=
            match presenceByBoard s !! boardId with
            | Some _ => presenceByBoard s
            | None => <[boardId := []]> (presenceByBoard s)
            end |}, out)
  end.

(** [socket.on('presence:join', ...)] *)
Definition on_presence_join (sid : SocketId) (user : User) (s : State)
  : State * list Output :=
  match boardOf s !! sid with
  | None => (s, [])
  | Some current =>
      match or_else current (user_boardId user) with
      | None => (s, [])
      | Some boardId =>
          let map := default [] (presenceByBoard s !! boardId) in
          let record := record_of sid boardId user in
          let map := JsMap.set sid record map in
          ({| boardOf := boardOf s;
              presenceByBoard := <[boardId := map]> (presenceByBoard s) |},
           [Roster sid (JsMap.values map); ToRoomJoin boardId record])
      end
  end.

(** [socket.on('presence:list', ...)] *)
Definition on_presence_list (sid : SocketId) (boardId : option BoardId) (s : State)
  : State * list Output :=
  match boardOf s !! sid with
  | None => (s, [])
  | Some current =>
      match or_else current boardId with
      | None => (s, [AckList sid None])
      | Some boardId =>
          (s, [AckList sid (Some (match presenceByBoard s !! boardId with
                                  | Some map => JsMap.values map
                                  | None => []
                                  end))])
      end
  end.

(** [socket.on('disconnect', ...)], after which the socket is gone. *)
Definition on_disconnect (sid : SocketId) (s : State) : State * list Output :=
  match boardOf s !! sid with
  | None => (s, [])
  | Some current =>
      let '(s, out) :=
        match truthy current with
        | Some boardId => leave sid boardId ["presence:leave"; "cursor:leave"] s
        | None => (s, [])
        end in
      ({| boardOf := delete sid (boardOf s); presenceByBoard := presenceByBoard s |}, out)
  end.

(** [io.use]: [socket.data.boardId = null] *)
Definition on_connect (sid : SocketId) (s : State) : State * list Output :=
  ({| boardOf := <[sid := None]> (boardOf s); presenceByBoard := presenceByBoard s |}, []).

Definition step (e : Event) (s : State) : State * list Output :=
  match e with
  | Connect sid => on_connect sid s
  | Joined sid boardId => on_joined sid boardId s
  | PresenceJoin sid user => on_presence_join sid user s
  | PresenceList sid boardId => on_presence_list sid boardId s
  | Disconnect sid => on_disconnect sid s
  end.

Definition steps (es : list Event) (s : State) : State :=
  foldl (λ s e, (step e s).1) s es.

(** The roster of a board. *)
Definition roster (s : State) (b : BoardId) : list (SocketId * Entry) :=
  default [] (presenceByBoard s !! b).

(** Socket ids are never reused, and a client announces itself only once
    its [room:join] has been answered. *)
Fixpoint orderly (es : list Event) (s : State) : Prop :=
  match es with
  | [] => True
  | e :: es =>
      match e with
      | Connect sid => boardOf s !! sid = None
      | PresenceJoin sid _ => ∃ c, boardOf s !! sid = Some c ∧ is_Some (truthy c)
      | _ => True
      end ∧ orderly es (step e s).1
  end.

(** Every entry of a roster is of a connected socket that is in that room. *)
Definition rosters_current (s : State) : Prop :=
  ∀ b sid e, JsMap.get sid (roster s b) = Some e →
    ∃ c, boardOf s !! sid = Some c ∧ truthy c = Some b.

Definition never_connects (sid : SocketId) (es : list Event) : Prop :=
  Forall (λ e, e ≠ Connect sid) es.

(** The socket an event comes from. *)
Definition socket_of (e : Event) : SocketId :=
  match e with
  | Connect sid | Joined sid _ | PresenceJoin sid _ | PresenceList sid _
  | Disconnect sid => sid
  end.

End Presence.

Section Engine.

(** [hashObj(obj)]: SHA-256 of [JSON.stringify(obj || {})]. *)
Variable hashObj : option Tldraw → string.

(** [sanitizeTlSnapshotDeep(snap)]: [null] for a non-object, else a repaired
    deep copy. The engine takes the function where it returns. On a drawing
    whose [document] is a truthy primitive the source throws a [TypeError]
    ([Tl.sanitizeTlSnapshotDeep] has that case): the flush then drops its
    batch like a failed storage call, snapshot-now answers 500 before any
    write, and [GET /api/boards/:id] ends without an answer after its save.
    A handler run in which the sanitizer throws is not a run of this
    engine. *)
Variable sanitizeTlSnapshotDeep : option Tldraw → option Tldraw.

(** ** HTTP handlers

    The handlers are plain functions of the database: the requests that run
    to their end. All but snapshot-now write at most once, as their last
    step, so that a storage failure there is the same as the request not
    arriving; snapshot-now writes the snapshot record and then the board
    document, and a failure between the two is not a run of this engine.

    Mongoose casts the [:id] of a route, the [boardId] of a filter and of a
    record to an [ObjectId]. The engine compares ids as the strings they
    are, which is what the source does on ids in the spelling of the
    [ObjectId] ([is_object_id] below), where the cast is the identity: a
    request or a [room:join] under another spelling of an id, which the
    source serves for the same board, and one under an id that does not
    cast, which the source answers with an error of the cast, are not runs
    of this engine. *)

(** [POST /api/boards] *)
Definition post_board (caller : UserId) (title : option string) (newId : BoardId)
    (d : Db) : Db * Response :=
  let b := {| board_title := default "Untitled" (truthy title);
              board_document := {| doc_tldraw := None; doc_ops := [] |};
              board_members := [{| userId := caller; role := owner |}];
              board_publicViewerToken := "" |} in
  match boards d !! newId with
  | Some _ => (d, NoResponse)
  | None => (set_boards (<[newId := b]>) d, JsonBoard b)
  end.

(** [GET /api/boards/:id] *)
Definition get_board (auth : option UserId) (boardId : BoardId) (token : option string)
    (d : Db) : Db * Response :=
  match boards d !! boardId with
  | None => (d, JsonError 404 "Not found")
  | Some b =>
      let respond (b : Board) :=
        JsonBoard (match doc_tldraw (board_document b) with
                   | Some t =>
                       set_document
                         {| doc_tldraw := sanitizeTlSnapshotDeep (Some t);
                            doc_ops := doc_ops (board_document b) |} b
                   | None => b
                   end) in
      match truthy auth with
      | Some uid =>
          match find_member uid (board_members b) with
          | Some _ => (d, respond b)
          | None =>
              let b' := set_members
                          (board_members b ++ [{| userId := uid; role := editor |}]) b in
              (set_boards (<[boardId := b']>) d, respond b')
          end
      | None =>
          match truthy token with
          | Some t =>
              if decide (t = board_publicViewerToken b)
              then (d, respond b)
              else (d, JsonError 401 "Unauthenticated")
          | None => (d, JsonError 401 "Unauthenticated")
          end
      end
  end.

(** [POST /api/boards/:id/members] *)
Definition post_member (caller : UserId) (boardId : BoardId)
    (email : option string) (newRole : option Role) (d : Db) : Db * Response :=
  match truthy email, newRole with
  | Some email, Some newRole =>
      match boards d !! boardId with
      | None => (d, JsonError 404 "Not found")
      | Some b =>
          match find_member caller (board_members b) with
          | Some me =>
              if decide (role me = owner) then
                match User_findOne (toLowerCase email) d with
                | None => (d, JsonError 404 "User not found")
                | Some u =>
                    let members :=
                      match find_member (user_id u) (board_members b) with
                      | Some _ => set_role (user_id u) newRole (board_members b)
                      | None =>
                          board_members b
                            ++ [{| userId := user_id u; role := newRole |}]
                      end in
                    (set_boards (<[boardId := set_members members b]>) d, JsonOk)
                end
              else (d, JsonError 403 "Only owner can add members")
          | None => (d, JsonError 403 "Only owner can add members")
          end
      end
  | _, _ => (d, JsonError 400 "email and role required")
  end.

(** [PATCH /api/boards/:id/members] *)
Definition patch_member (caller : UserId) (boardId : BoardId)
    (target : option UserId) (newRole : option Role) (d : Db) : Db * Response :=
  match truthy target, newRole with
  | Some target, Some newRole =>
      match boards d !! boardId with
      | None => (d, JsonError 404 "Not found")
      | Some b =>
          match find_member caller (board_members b) with
          | Some me =>
              if decide (role me = owner) then
                match find_member target (board_members b) with
                | None => (d, JsonError 404 "Member not found")
                | Some m =>
                    if decide (role m = owner ∧ newRole ≠ owner
                               ∧ (length (owners (board_members b)) ≤ 1)%nat)
                    then (d, JsonError 400 "Must keep at least one owner")
                    else
                      (set_boards
                         (<[boardId :=
                              set_members (set_role target newRole (board_members b)) b]>)
                         d, JsonOk)
                end
              else (d, JsonError 403 "Only owner can change roles")
          | None => (d, JsonError 403 "Only owner can change roles")
          end
      end
  | _, _ => (d, JsonError 400 "userId and role required")
  end.

(** [DELETE /api/boards/:id/members/:userId] *)
Definition delete_member (caller : UserId) (boardId : BoardId) (target : UserId)
    (d : Db) : Db * Response :=
  match boards d !! boardId with
  | None => (d, JsonError 404 "Not found")
  | Some b =>
      match find_member caller (board_members b) with
      | Some me =>
          if decide (role me = owner) then
            match find_member target (board_members b) with
            | None => (d, JsonError 404 "Member not found")
            | Some m =>
                if decide (role m = owner
                           ∧ (length (owners (board_members b)) ≤ 1)%nat)
                then (d, JsonError 400 "Must keep at least one owner")
                else
                  (set_boards
                     (<[boardId :=
                          set_members (remove_member target (board_members b)) b]>)
                     d, JsonOk)
            end
          else (d, JsonError 403 "Only owner can remove members")
      | None => (d, JsonError 403 "Only owner can remove members")
      end
  end.

(** [POST /api/boards/:id/snapshots] *)
Definition post_snapshot (caller : UserId) (boardId : BoardId) (d : Db) : Db * Response :=
  match boards d !! boardId with
  | None => (d, JsonError 404 "Board not found")
  | Some board =>
      match find_member caller (board_members board) with
      | None => (d, JsonError 403 "Forbidden")
      | Some _ =>
          let tldraw := sanitizeTlSnapshotDeep (doc_tldraw (board_document board)) in
          let checksum := hashObj tldraw in
          let version :=
            Z.of_nat (length (snapshots_of boardId (boardSnapshots d))) + 1 in
          let snap := {| snap_boardId := boardId; snap_version := version;
                         snap_tldraw := tldraw; snap_checksum := checksum |} in
          let board' := set_document
                          {| doc_tldraw := tldraw;
                             doc_ops := doc_ops (board_document board) |} board in
          (set_boards (<[boardId := board']>)
             (set_boardSnapshots (λ l, l ++ [snap]) d),
           JsonSnapshot version checksum)
      end
  end.

(** Mongo's ascending order on [seq]: a missing field sorts first. *)
Definition seq_le (a b : BoardOp) : Prop :=
  match bo_seq a, bo_seq b with
  | None, _ => True
  | Some _, None => False
  | Some x, Some y => x ≤ y
  end.

#[global] Instance seq_le_dec a b : Decision (seq_le a b).
Proof. unfold seq_le. destruct (bo_seq a), (bo_seq b); apply _. Defined.

(** Descending order on [version]. *)
Definition version_ge (a b : BoardSnapshot) : Prop := snap_version b ≤ snap_version a.

#[global] Instance version_ge_dec a b : Decision (version_ge a b).
Proof. unfold version_ge. apply _. Defined.

Definition export_op (r : BoardOp) : ArtOp :=
  {| art_seq := bo_seq r; art_opId := Some (bo_opId r); art_op := Some (bo_op r);
     art_authorId := bo_authorId r |}.

(** The [payload] built by [GET /api/boards/:id/export]. *)
Definition export_payload (boardId : BoardId) (board : Board) (d : Db) : Artifact :=
  let latestSnap := head (stable_sort version_ge (snapshots_of boardId (boardSnapshots d))) in
  let snapshot :=
    match latestSnap ≫= snap_tldraw with
    | Some t => Some t
    | None => doc_tldraw (board_document board)
    end in
  {| meta_boardId := Some boardId;
     meta_title := Some (board_title board);
     meta_baseVersion := default 0 (snap_version <$> latestSnap);
     meta_checksum :=
       match truthy (snap_checksum <$> latestSnap) with
       | Some c => c
       | None => match snapshot with Some t => hashObj (Some t) | None => "" end
       end;
     art_snapshot := snapshot;
     art_ops := export_op <$> stable_sort seq_le (ops_of boardId (boardOps d));
     art_members := board_members board |}.

(** [GET /api/boards/:id/export] *)
Definition get_export (caller : UserId) (boardId : BoardId) (d : Db) : Db * Response :=
  match boards d !! boardId with
  | None => (d, JsonError 404 "Board not found")
  | Some board =>
      match find_member caller (board_members board) with
      | None => (d, JsonError 403 "Forbidden")
      | Some _ => (d, JsonExport (export_payload boardId board d))
      end
  end.

(** ** Socket handlers *)

(** [io.use(...)]: the defaults of [socket.data]. *)
Definition on_connect (sid : SocketId) (uid : option UserId) (s : Server)
  : Server * list Output :=
  ({| db := db s;
      sockets := <[sid := {| sock_userId := uid; sock_boardId := None;
                             sock_role := viewer |}]> (sockets s);
      buffers := buffers s |}, []).

Definition on_disconnect (sid : SocketId) (s : Server) : Server * list Output :=
  ({| db := db s; sockets := delete sid (sockets s); buffers := buffers s |}, []).

(** [socket.on('room:join', ...)] *)
Definition on_room_join (sid : SocketId) (boardId : BoardId) (token : option string)
    (s : Server) : Server * list Output :=
  match sockets s !! sid with
  | None => (s, [])
  | Some sock =>
      match boards (db s) !! boardId with
      | None => (s, [Ack sid false (Some "Board not found") None])
      | Some b =>
          let resolved : option Role :=
            match truthy (sock_userId sock) with
            | Some uid =>
                Some (match find_member uid (board_members b) with
                      | Some m => role m
                      | None => viewer
                      end)
            | None =>
                match truthy token with
                | Some t =>
                    if decide (t = board_publicViewerToken b) then Some viewer else None
                | None => None
                end
            end in
          match resolved with
          | None => (s, [Ack sid false (Some "Unauthenticated") None])
          | Some r =>
              ({| db := db s;
                  sockets := <[sid := {| sock_userId := sock_userId sock;
                                         sock_boardId := Some boardId;
                                         sock_role := r |}]> (sockets s);
                  buffers := buffers s |},
               [Ack sid true None (Some r)])
          end
      end
  end.

(** [enqueuePersist(boardId, ops, snapshot)] *)
Definition enqueuePersist (boardId : BoardId) (ops : list OpItem)
    (snapshot : option Tldraw) (bufs : gmap string Buffer) : gmap string Buffer :=
  let buf := default {| buf_ops := []; buf_snapshot := None; buf_timer := false |}
               (bufs !! boardId) in
  <[boardId := {| buf_ops := buf_ops buf ++ ops;
                  buf_snapshot := match snapshot with
                                  | Some t => Some t
                                  | None => buf_snapshot buf
                                  end;
                  buf_timer := true |}]> bufs.

(** The timer callback of [enqueuePersist]. *)
Definition flush_body (boardId : BoardId) (payload : Buffer) : M unit :=
  catch
    (await b ← Board_findById boardId None;
     let doc := default {| doc_tldraw := None; doc_ops := [] |} (board_document <$> b) in
     let ops := mergeOps (doc_ops doc) (buf_ops payload) in
     let tldraw :=
       match buf_snapshot payload with
       | Some t =>
           match sanitizeTlSnapshotDeep (Some t) with
           | Some safe => Some safe
           | None => doc_tldraw doc
           end
       | None => doc_tldraw doc
       end in
     Board_findByIdAndUpdate_document boardId {| doc_tldraw := tldraw; doc_ops := ops |})
    (λ _, ret ()).

Definition on_flush_timer (boardId : BoardId) (faults : option nat) (s : Server)
  : Server * list Output :=
  match buffers s !! boardId with
  | None => (s, [])
  | Some payload =>
      let '(_, d) := run (flush_body boardId payload) faults (λ _, "") (db s) in
      ({| db := d; sockets := sockets s; buffers := delete boardId (buffers s) |}, [])
  end.

(** One iteration of the loop of the [board:ops] transaction. *)
Definition append_item (boardId : BoardId) (author : option UserId)
    (session : option Session) (item : OpItem) : M unit :=
  await opId ← match client_key item with
               | Some k => ret k
               | None => randomUUID
               end;
  await found ← BoardOp_findOne boardId (Some opId) session;
  match found with
  | Some _ => ret ()
  | None =>
      await seq ← nextBoardSeq boardId session;
      await _ ← BoardOp_create
                  {| bo_boardId := boardId;
                     bo_seq := Some seq;
                     bo_opId := opId;
                     bo_op := match item_op item with
                              | Some p => StoredPayload p
                              | None => StoredItem item
                              end;
                     bo_authorId := author |} session;
      ret ()
  end.

(** The checkpoint trigger that ends the transaction. *)
Definition checkpoint_if_due (boardId : BoardId) (session : option Session) : M unit :=
  await countOps ← BoardOp_countDocuments boardId session;
  if decide (countOps `mod` 200 = 0) then
    await b ← Board_findById boardId session;
    match b with
    | Some b =>
        let checksum := hashObj (doc_tldraw (board_document b)) in
        await n ← BoardSnapshot_countDocuments boardId session;
        BoardSnapshot_create
          {| snap_boardId := boardId; snap_version := n + 1;
             snap_tldraw := doc_tldraw (board_document b);
             snap_checksum := checksum |} session
    | None => ret ()
    end
  else ret ().

(** The callback handed to [session.withTransaction]. *)
Definition ops_transaction (boardId : BoardId) (author : option UserId)
    (ops : list OpItem) (session : option Session) : M unit :=
  await _ ← for_each (append_item boardId author session) ops;
  checkpoint_if_due boardId session.

Definition persist_ops (boardId : BoardId) (author : option UserId)
    (ops : list OpItem) : M unit :=
  await session ← startSession;
  withTransaction (ops_transaction boardId author ops (Some session)).

(** [['owner', 'editor'].includes(socket.data.role)] *)
Definition can_write (r : Role) : bool := bool_decide (r = owner ∨ r = editor).

(** [socket.on('board:ops', ...)] *)
Definition on_board_ops (sid : SocketId) (ops : list OpItem) (snapshot : option Tldraw)
    (uuid : nat → string) (faults : option nat) (s : Server) : Server * list Output :=
  match sockets s !! sid with
  | None => (s, [])
  | Some sock =>
      match truthy (sock_boardId sock) with
      | None => (s, [Ack sid false (Some "no-room") None])
      | Some boardId =>
          if can_write (sock_role sock) then
            let bufs := enqueuePersist boardId ops snapshot (buffers s) in
            let '(r, d) := run (persist_ops boardId (truthy (sock_userId sock)) ops)
                             faults uuid (db s) in
            ({| db := d; sockets := sockets s; buffers := bufs |},
             [EmitBoardOps sid boardId ops snapshot;
              match r with
              | Ok _ => Ack sid true None None
              | Throw _ => Ack sid false (Some "persist failed") None
              end])
          else (s, [Ack sid false (Some "read-only") None])
      end
  end.

(** *** What a committed batch does

    The effect of the loop body and of the checkpoint trigger on the
    transaction's working copy when no call fails, as plain functions; they
    are proved equal to the handler's code below ([append_item_run],
    [checkpoint_run], [persist_ops_commit]). The [nat] counts the calls to
    [crypto.randomUUID()] made so far. *)
Definition new_op (boardId : BoardId) (author : option UserId) (item : OpItem)
    (opId : string) (seq : Z) : BoardOp :=
  {| bo_boardId := boardId;
     bo_seq := Some seq;
     bo_opId := opId;
     bo_op := match item_op item with
              | Some p => StoredPayload p
              | None => StoredItem item
              end;
     bo_authorId := author |}.

Definition append_pure (boardId : BoardId) (author : option UserId)
    (uuid : nat → string) (st : Db * nat) (item : OpItem) : Db * nat :=
  let opId := default (uuid st.2) (client_key item) in
  let n' := match client_key item with Some _ => st.2 | None => S st.2 end in
  match find_op boardId (Some opId) (boardOps st.1) with
  | Some _ => (st.1, n')
  | None =>
      let seq := default 0 (counters st.1 !! counter_key boardId) + 1 in
      (set_boardOps (λ l, l ++ [new_op boardId author item opId seq])
         (set_counters (<[counter_key boardId := seq]>) st.1), n')
  end.

Definition checkpoint_pure (boardId : BoardId) (d : Db) : Db :=
  if decide (Z.of_nat (length (ops_of boardId (boardOps d))) `mod` 200 = 0) then
    match boards d !! boardId with
    | Some b =>
        set_boardSnapshots (λ l, l ++
          [{| snap_boardId := boardId;
              snap_version :=
                Z.of_nat (length (snapshots_of boardId (boardSnapshots d))) + 1;
              snap_tldraw := doc_tldraw (board_document b);
              snap_checksum := hashObj (doc_tldraw (board_document b)) |}]) d
    | None => d
    end
  else d.

Definition commit_pure (boardId : BoardId) (author : option UserId)
    (uuid : nat → string) (ops : list OpItem) (d : Db) : Db :=
  checkpoint_pure boardId (foldl (append_pure boardId author uuid) (d, 0%nat) ops).1.

(** A run of successive allocator calls, one per element of [bs], each
    paired with the number it returned. *)
Fixpoint allocate (session : option Session) (bs : list BoardId) : M (list (BoardId * Z)) :=
  match bs with
  | [] => ret []
  | b :: rest =>
      await n ← nextBoardSeq b session;
      await ns ← allocate session rest;
      ret ((b, n) :: ns)
  end.

(** The numbers handed out for [boardId] in such a run. *)
Definition allocated_for (boardId : BoardId) (res : list (BoardId * Z)) : list Z :=
  snd <$> filter (λ p, p.1 = boardId) res.

(** ** The server as a state machine *)

Inductive Event :=
  | Connect (sid : SocketId) (uid : option UserId)
  | Disconnect (sid : SocketId)
  | RoomJoin (sid : SocketId) (boardId : BoardId) (token : option string)
  | BoardOps (sid : SocketId) (ops : list OpItem) (snapshot : option Tldraw)
      (uuid : nat → string) (faults : option nat)
  | FlushTimer (boardId : BoardId) (faults : option nat)
  | PostBoard (caller : UserId) (title : option string) (newId : BoardId)
  | GetBoard (auth : option UserId) (boardId : BoardId) (token : option string)
  | PostMember (caller : UserId) (boardId : BoardId) (email : option string)
      (newRole : option Role)
  | PatchMember (caller : UserId) (boardId : BoardId) (target : option UserId)
      (newRole : option Role)
  | DeleteMember (caller : UserId) (boardId : BoardId) (target : UserId)
  | PostSnapshot (caller : UserId) (boardId : BoardId)
  | GetExport (caller : UserId) (boardId : BoardId).

Definition http (h : Db → Db * Response) (s : Server) : Server * list Output :=
  let '(d, r) := h (db s) in (set_db d s, [Respond r]).

Definition step (e : Event) (s : Server) : Server * list Output :=
  match e with
  | Connect sid uid => on_connect sid uid s
  | Disconnect sid => on_disconnect sid s
  | RoomJoin sid boardId token => on_room_join sid boardId token s
  | BoardOps sid ops snapshot uuid faults => on_board_ops sid ops snapshot uuid faults s
  | FlushTimer boardId faults => on_flush_timer boardId faults s
  | PostBoard caller title newId => http (post_board caller title newId) s
  | GetBoard auth boardId token => http (get_board auth boardId token) s
  | PostMember caller boardId email newRole =>
      http (post_member caller boardId email newRole) s
  | PatchMember caller boardId target newRole =>
      http (patch_member caller boardId target newRole) s
  | DeleteMember caller boardId target => http (delete_member caller boardId target) s
  | PostSnapshot caller boardId => http (post_snapshot caller boardId) s
  | GetExport caller boardId => http (get_export caller boardId) s
  end.

(** The state after a sequence of events. *)
Definition steps (es : list Event) (s : Server) : Server :=
  foldl (λ s e, (step e s).1) s es.

(** ** Restore tool ([tools/restore.js]) *)

(** [x.seq || 0] *)
Definition seq_or_0 (seq : option Z) : Z := default 0 seq.

(** Merge of members, keyed by [String(m.userId)]. *)
Definition restore_members (old incoming : list Member) : list Member :=
  JsMap.values (foldl (λ m x, JsMap.set (userId x) x m) [] (old ++ incoming)).

(** Locate or create the target board; returns its id. [newId] is the
    ObjectId Mongoose generates when the file carries none. The chat of the
    file is not part of [Artifact]: a run in which Mongoose refuses it (a
    [userId] that is no ObjectId) ends here, before any write, and is not
    a completed run. *)
Definition restore_board (newId : BoardId) (a : Artifact) : M BoardId :=
  let title := default "Recovered Board" (truthy (meta_title a)) in
  await board ← match truthy (meta_boardId a) with
                | Some b => Board_findById b None
                | None => ret None
                end;
  match board with
  | None =>
      let boardId := default newId (truthy (meta_boardId a)) in
      await _ ← Board_create boardId
                  {| board_title := title;
                     board_document := {| doc_tldraw := art_snapshot a; doc_ops := [] |};
                     board_members := art_members a;
                     board_publicViewerToken := "" |};
      ret boardId
  | Some b =>
      let boardId := default newId (truthy (meta_boardId a)) in
      let currentSnap := doc_tldraw (board_document b) in
      let curHash := match currentSnap with Some t => hashObj (Some t) | None => "" end in
      let newHash := match art_snapshot a with Some t => hashObj (Some t) | None => "" end in
      let doc :=
        if decide (newHash ≠ "" ∧ newHash ≠ curHash)
        then {| doc_tldraw := art_snapshot a; doc_ops := doc_ops (board_document b) |}
        else board_document b in
      await _ ← Board_save boardId
                  (set_document doc
                     (set_members (restore_members (board_members b) (art_members a)) b));
      ret boardId
  end.

(** The snapshot record written by a restore. *)
Definition restore_snapshot (boardId : BoardId) (a : Artifact) : M unit :=
  await latestVersion ← BoardSnapshot_countDocuments boardId None;
  match art_snapshot a with
  | Some t =>
      BoardSnapshot_create
        {| snap_boardId := boardId; snap_version := latestVersion + 1;
           snap_tldraw := Some t; snap_checksum := hashObj (Some t) |} None
  | None => ret ()
  end.

(** One iteration of the op loop; returns the new [maxSeq]. *)
Definition restore_item (boardId : BoardId) (maxSeq : Z) (item : ArtOp) : M Z :=
  catch
    (await found ← BoardOp_findOne boardId (art_opId item) None;
     match found with
     | Some r => ret (Z.max maxSeq (seq_or_0 (bo_seq r)))
     | None =>
         await opId ← match truthy (art_opId item) with
                      | Some k => ret k
                      | None => randomUUID
                      end;
         await created ← BoardOp_create
                           {| bo_boardId := boardId;
                              bo_seq := art_seq item;
                              bo_opId := opId;
                              bo_op := match art_op item with
                                       | Some o => o
                                       | None =>
                                           StoredExport (art_seq item) (art_opId item)
                                             (art_authorId item)
                                       end;
                              bo_authorId := art_authorId item |} None;
         ret (Z.max maxSeq (seq_or_0 (bo_seq created)))
     end)
    (λ _, ret maxSeq).

Fixpoint restore_ops (boardId : BoardId) (maxSeq : Z) (items : list ArtOp) : M Z :=
  match items with
  | [] => ret maxSeq
  | item :: rest =>
      await maxSeq' ← restore_item boardId maxSeq item;
      restore_ops boardId maxSeq' rest
  end.

(** "ensure counter is at least maxSeq" *)
Definition reconcile_counter (boardId : BoardId) (maxSeq : Z) : M unit :=
  let key := counter_key boardId in
  await doc ← Counter_findOne key;
  match doc with
  | None => Counter_put key maxSeq
  | Some seq => if decide (seq < maxSeq) then Counter_put key maxSeq else ret ()
  end.

(** [main()]; returns the target board id and [maxSeq]. *)
Definition restore_main (newId : BoardId) (a : Artifact) : M (BoardId * Z) :=
  await boardId ← restore_board newId a;
  await _ ← restore_snapshot boardId a;
  await maxSeq ← restore_ops boardId 0 (art_ops a);
  await _ ← reconcile_counter boardId maxSeq;
  ret (boardId, maxSeq).

(** A run of the tool on the database [d] with a storage that does not fail. *)
Definition restore (newId : BoardId) (uuid : nat → string) (a : Artifact) (d : Db)
  : Result (BoardId * Z) * Db :=
  run (restore_main newId a) None uuid d.

(** *** What the op loop of Restore does

    The loop of [restore.js] on the log alone, when no call fails; proved
    equal to [restore_ops] below ([restore_ops_run]). *)
Definition restored_op (boardId : BoardId) (item : ArtOp) (opId : string) : BoardOp :=
  {| bo_boardId := boardId;
     bo_seq := art_seq item;
     bo_opId := opId;
     bo_op := match art_op item with
              | Some o => o
              | None => StoredExport (art_seq item) (art_opId item) (art_authorId item)
              end;
     bo_authorId := art_authorId item |}.

Definition restore_item_pure (boardId : BoardId) (u : nat → string)
    (st : list BoardOp * nat) (maxSeq : Z) (item : ArtOp) : list BoardOp * nat * Z :=
  match find_op boardId (art_opId item) st.1 with
  | Some r => (st, Z.max maxSeq (seq_or_0 (bo_seq r)))
  | None =>
      let opId := default (u st.2) (truthy (art_opId item)) in
      let n' := match truthy (art_opId item) with Some _ => st.2 | None => S st.2 end in
      match find_op boardId (Some opId) st.1 with
      | Some _ => ((st.1, n'), maxSeq)
      | None =>
          ((st.1 ++ [restored_op boardId item opId], n'),
           Z.max maxSeq (seq_or_0 (art_seq item)))
      end
  end.

Fixpoint restore_ops_pure (boardId : BoardId) (u : nat → string)
    (st : list BoardOp * nat) (maxSeq : Z) (items : list ArtOp)
  : list BoardOp * nat * Z :=
  match items with
  | [] => (st, maxSeq)
  | item :: rest =>
      let r := restore_item_pure boardId u st maxSeq item in
      restore_ops_pure boardId u r.1 r.2 rest
  end.

(** The counter after "ensure counter is at least maxSeq". *)
Definition reconciled (boardId : BoardId) (maxSeq : Z) (cs : gmap string Z) : gmap string Z :=
  match cs !! counter_key boardId with
  | None => <[counter_key boardId := maxSeq]> cs
  | Some seq =>
      if decide (seq < maxSeq) then <[counter_key boardId := maxSeq]> cs else cs
  end.

(** ** Vocabulary of the statements *)

(** What the [Map] of [mergeOps] holds after the operations [l] were fed to
    it: one entry per id seen, holding an operation of [l] with that id whose
    timestamp no other operation of [l] with the same id exceeds. *)
Definition merge_inv (l : list OpItem) (m : list (option string * OpItem)) : Prop :=
  NoDup (JsMap.keys m)
  ∧ (∀ k, k ∈ JsMap.keys m ↔ k ∈ item_id <$> l)
  ∧ (∀ k v, (k, v) ∈ m →
       item_id v = k ∧ v ∈ l
       ∧ ∀ op', op' ∈ l → item_id op' = k → item_ts op' ≤ item_ts v).

(** What the [Map] of [mergeOps] holds under the id [k] after one more
    operation, given what it held before. *)
Definition merge_pick (k : option string) (cur : option OpItem) (op : OpItem)
  : option OpItem :=
  if decide (item_id op = k) then
    match cur with
    | None => Some op
    | Some c => if decide (item_ts c ≤ item_ts op) then Some op else cur
    end
  else cur.

(** A computation is [isolated] when, run inside an open transaction, it
    leaves the committed data alone and keeps the transaction open: every
    call it makes carries the session. *)
Definition isolated {A} (m : M A) : Prop :=
  ∀ w, is_Some (txn w) → committed (m w).2 = committed w ∧ is_Some (txn (m w).2).

(** [calm w] is [w] with a storage that never fails. *)
Definition calm (w : World) : World :=
  {| committed := committed w; txn := txn w; budget := None;
     uuid_source := uuid_source w; uuid_calls := uuid_calls w |}.

(** A computation is [faultless] when each of its successful runs is also
    its run on the calm world: faults can make it throw, not change what it
    does. *)
Definition faultless {A} (m : M A) : Prop :=
  ∀ w a w', m w = (Ok a, w') → m (calm w) = (Ok a, calm w').

(** A world inside a transaction, with a storage that does not fail. *)
Definition in_txn (c t : Db) (u : nat → string) (n : nat) : World :=
  {| committed := c; txn := Some t; budget := None; uuid_source := u; uuid_calls := n |}.

(** The sequence numbers of a board's records, in insertion order. *)
Definition seqs_of (boardId : BoardId) (d : Db) : list (option Z) :=
  bo_seq <$> ops_of boardId (boardOps d).

(** The value of a board's counter, an absent counter counting as 0. *)
Definition counter_of (boardId : BoardId) (d : Db) : Z :=
  default 0 (counters d !! counter_key boardId).

(** For each board the stored sequence numbers, in insertion order, are
    present, strictly increasing, and bounded by the board's counter. *)
Definition log_inv (d : Db) : Prop :=
  ∀ boardId, ∃ l,
    seqs_of boardId d = Some <$> l
    ∧ StronglySorted Z.lt l
    ∧ Forall (λ n, n ≤ counter_of boardId d) l.

(** Counters are not negative, and every record has a sequence number that
    its board's counter, which exists, has reached. *)
Definition counter_inv (d : Db) : Prop :=
  (∀ key c, counters d !! key = Some c → 0 ≤ c)
  ∧ ∀ r, r ∈ boardOps d →
      ∃ c n, counters d !! counter_key (bo_boardId r) = Some c
             ∧ bo_seq r = Some n ∧ n ≤ c.

(** A world outside any transaction, with a storage that does not fail. *)
Definition idle (d : Db) (u : nat → string) (n : nat) : World :=
  {| committed := d; txn := None; budget := None; uuid_source := u; uuid_calls := n |}.

(** The key of the unique index. *)
Definition op_key (r : BoardOp) : BoardId * string := (bo_boardId r, bo_opId r).

(** The values [crypto.randomUUID()] returns on calls [n0 .. n0 + len - 1]
    are pairwise distinct and none is the [opId] of a record of the board. *)
Definition fresh_draws (boardId : BoardId) (u : nat → string) (n0 len : nat)
    (log : list BoardOp) : Prop :=
  NoDup (u <$> seq n0 len)
  ∧ ∀ i, (n0 ≤ i < n0 + len)%nat → find_op boardId (Some (u i)) log = None.

(** [BoardOp.countDocuments({ boardId })] *)
Definition count_ops (boardId : BoardId) (d : Db) : Z :=
  Z.of_nat (length (ops_of boardId (boardOps d))).

(** [BoardSnapshot.countDocuments({ boardId })] *)
Definition count_snapshots (boardId : BoardId) (d : Db) : Z :=
  Z.of_nat (length (snapshots_of boardId (boardSnapshots d))).

(** Every joined socket points at a board that exists. *)
Definition sock_inv (s : Server) : Prop :=
  ∀ sid sock b,
    sockets s !! sid = Some sock → truthy (sock_boardId sock) = Some b →
    is_Some (boards (db s) !! b).

(** A board keeps an owner. *)
Definition has_owner (members : list Member) : Prop := owners members ≠ [].

(** Every board of the database has an owner. *)
Definition all_owned (d : Db) : Prop :=
  ∀ b board, boards d !! b = Some board → has_owner (board_members board).

(** [me && me.role === 'owner'] for the caller [uid]. *)
Definition is_owner_of (uid : UserId) (b : Board) : Prop :=
  ∃ me, find_member uid (board_members b) = Some me ∧ role me = owner.

(** The numbers [1 .. n], as the fields [seq] and [version] hold them. *)
Definition one_to (n : nat) : list Z := Z.of_nat <$> seq 1 n.

(** The board's records carry the sequence numbers [1 .. n] in insertion
    order, and its counter stands at [n]. *)
Definition gap_free (boardId : BoardId) (d : Db) : Prop :=
  seqs_of boardId d = Some <$> one_to (length (ops_of boardId (boardOps d)))
  ∧ counter_of boardId d = count_ops boardId d.

(** The versions of a board's snapshot records, in insertion order. *)
Definition versions_of (boardId : BoardId) (d : Db) : list Z :=
  snap_version <$> snapshots_of boardId (boardSnapshots d).

(** Each board's snapshot records carry the versions [1 .. n] in insertion
    order. *)
Definition versions_gap_free (d : Db) : Prop :=
  ∀ b, versions_of b d = one_to (length (snapshots_of b (boardSnapshots d))).

(** The unique index on [(boardId, opId)] holds. *)
Definition keys_unique (d : Db) : Prop := NoDup (op_key <$> boardOps d).

(** Every socket without a user id has the role [viewer]. *)
Definition anonymous_read_only (s : Server) : Prop :=
  ∀ sid sock,
    sockets s !! sid = Some sock → truthy (sock_userId sock) = None →
    sock_role sock = viewer.

(** The board document Restore leaves under the target id: a new board when
    [old] is [None], the merge into the board found otherwise. *)
Definition restored_board (a : Artifact) (old : option Board) : Board :=
  match old with
  | None =>
      {| board_title := default "Recovered Board" (truthy (meta_title a));
         board_document := {| doc_tldraw := art_snapshot a; doc_ops := [] |};
         board_members := art_members a;
         board_publicViewerToken := "" |}
  | Some b =>
      let curHash := match doc_tldraw (board_document b) with
                     | Some t => hashObj (Some t)
                     | None => ""
                     end in
      let newHash := match art_snapshot a with
                     | Some t => hashObj (Some t)
                     | None => ""
                     end in
      set_document
        (if decide (newHash ≠ "" ∧ newHash ≠ curHash)
         then {| doc_tldraw := art_snapshot a; doc_ops := doc_ops (board_document b) |}
         else board_document b)
        (set_members (restore_members (board_members b) (art_members a)) b)
  end.

(** The snapshot records Restore appends for the board [boardId]. *)
Definition restored_snapshots (boardId : BoardId) (a : Artifact) (d : Db)
  : list BoardSnapshot :=
  match art_snapshot a with
  | Some t =>
      [{| snap_boardId := boardId;
          snap_version := count_snapshots boardId d + 1;
          snap_tldraw := Some t;
          snap_checksum := hashObj (Some t) |}]
  | None => []
  end.

(** The greatest [seq] of a list of records, a missing one counting as 0,
    starting from [m]: the [maxSeq] of the restore loop. *)
Definition max_seq (m : Z) (l : list BoardOp) : Z :=
  foldl (λ x r, Z.max x (seq_or_0 (bo_seq r))) m l.

(** No record has a sequence number above its board's counter. *)
Definition seq_bounded (d : Db) : Prop :=
  ∀ r, r ∈ boardOps d → seq_or_0 (bo_seq r) ≤ counter_of (bo_boardId r) d.

(** No board has a public viewer token. *)
Definition tokens_empty (d : Db) : Prop :=
  ∀ b board, boards d !! b = Some board → board_publicViewerToken board = "".

(** The events that write [socket.data]. *)
Definition touches_sockets (e : Event) : Prop :=
  match e with
  | Connect _ _ | Disconnect _ | RoomJoin _ _ _ => True
  | _ => False
  end.

(** The events that reach [POST /api/boards/:id/members]. *)
Definition is_post_member (e : Event) : Prop :=
  match e with PostMember _ _ _ _ => True | _ => False end.

(** The spelling in which MongoDB hands out an [ObjectId] and in which
    [toString] prints it: 24 hexadecimal digits in lower case. Mongoose
    casts a board id to an [ObjectId] wherever it is a filter or the
    [boardId] of a record, while the counter key, [socket.data.boardId] and
    the buffer key keep the string as the client sent it. On this spelling
    the cast is the identity and the two agree. *)
Definition is_hex_digit (c : Ascii.ascii) : bool :=
  let n := Ascii.nat_of_ascii c in
  bool_decide ((48 ≤ n ≤ 57)%nat ∨ (97 ≤ n ≤ 102)%nat).

Definition is_object_id (s : string) : bool :=
  bool_decide (String.length s = 24%nat)
  && forallb is_hex_digit (String.list_ascii_of_string s).

(** Every [room:join] of the trace names its board in that spelling. *)
Definition joins_canonical (es : list Event) : Prop :=
  Forall (λ e, match e with
               | RoomJoin _ boardId _ => is_object_id boardId
               | _ => True
               end) es.

(** The claim that the sequence numbers of a board's records, in insertion
    order, are strictly increasing. *)
Definition seqs_increasing (boardId : BoardId) (d : Db) : Prop :=
  ∃ l, seqs_of boardId d = Some <$> l ∧ StronglySorted Z.lt l.

(* ================================================================== *)
(** * Theorems *)

(** ** Stable sort *)

Section stable_sort_facts.
Context {A : Type} (le : A → A → Prop) `{!∀ x y, Decision (le x y)}.

Lemma insert_sorted_perm x l : insert_sorted le x l ≡ₚ x :: l.
Proof.
  induction l as [|y l IH]; simpl; [done|].
  case_decide; [done|]. rewrite IH. apply Permutation_swap.
Qed.

Lemma stable_sort_perm l : stable_sort le l ≡ₚ l.
Proof.
  induction l as [|x l IH]; simpl; [done|].
  by rewrite insert_sorted_perm, IH.
Qed.

Lemma insert_sorted_sorted `{!Transitive le, !Total le} x l :
  StronglySorted le l → StronglySorted le (insert_sorted le x l).
Proof.
  induction 1 as [|y l Hs IH Hall]; simpl.
  - repeat constructor.
  - case_decide as Hxy.
    + constructor; [by constructor|].
      constructor; [done|].
      eapply Forall_impl; [exact Hall|]. intros z Hz. by etrans.
    + constructor; [done|].
      rewrite insert_sorted_perm. constructor; [|done].
      by destruct (total le x y).
Qed.

Lemma stable_sort_sorted `{!Transitive le, !Total le} l :
  StronglySorted le (stable_sort le l).
Proof.
  induction l; simpl; [constructor|]. by apply insert_sorted_sorted.
Qed.

End stable_sort_facts.

#[global] Instance ts_le_trans : Transitive ts_le.
Proof. unfold ts_le. intros x y z. lia. Qed.

#[global] Instance ts_le_total : Total ts_le.
Proof. unfold ts_le. intros x y. lia. Qed.

(** ** [mergeOps] *)

Section JsMapFacts.
Context {K V : Type} `{EqDecision K}.
Implicit Types (m : list (K * V)) (k : K) (v : V).

Lemma JsMap_get_None k m : JsMap.get k m = None ↔ k ∉ JsMap.keys m.
Proof.
  induction m as [|[k' v'] m IH]; simpl.
  - split; [intros _; apply not_elem_of_nil|done].
  - case_decide as Hk; subst.
    + split; [done|]. intros Hn. exfalso. apply Hn. left.
    + rewrite IH. unfold JsMap.keys. simpl.
      rewrite not_elem_of_cons. tauto.
Qed.

Lemma JsMap_get_Some k v m : JsMap.get k m = Some v → (k, v) ∈ m.
Proof.
  induction m as [|[k' v'] m IH]; simpl; [done|].
  case_decide; subst.
  - intros [= ->]. left.
  - intros. right. auto.
Qed.

Lemma JsMap_keys_set k v m :
  JsMap.keys (JsMap.set k v m)
  = if decide (k ∈ JsMap.keys m) then JsMap.keys m else JsMap.keys m ++ [k].
Proof.
  induction m as [|[k' v'] m IH]; simpl.
  - destruct (decide (k ∈ JsMap.keys (@nil (K * V)))) as [Hin|Hin];
      [by apply elem_of_nil in Hin|done].
  - destruct (decide (k = k')) as [->|Hne]; simpl.
    + rewrite decide_True by left. done.
    + unfold JsMap.keys in *. simpl. rewrite IH.
      destruct (decide (k ∈ fst <$> m)) as [Hin|Hin].
      * rewrite decide_True by (by right). done.
      * rewrite decide_False; [done|].
        rewrite elem_of_cons. tauto.
Qed.

Lemma JsMap_elem_of_keys k v m : (k, v) ∈ m → k ∈ JsMap.keys m.
Proof. intros Hin. apply list_elem_of_fmap. by exists (k, v). Qed.

Lemma JsMap_entry_unique k v1 v2 m :
  NoDup (JsMap.keys m) → (k, v1) ∈ m → (k, v2) ∈ m → v1 = v2.
Proof.
  induction m as [|[k0 v0] m IH]; simpl; intros Hnd H1 H2.
  - by apply elem_of_nil in H1.
  - apply NoDup_cons in Hnd as [Hk0 Hnd].
    apply elem_of_cons in H1 as [[= -> ->]|H1];
      apply elem_of_cons in H2 as [[= ->]|H2]; subst; auto.
    + exfalso. apply Hk0. by eapply JsMap_elem_of_keys.
    + exfalso. apply Hk0. by eapply JsMap_elem_of_keys.
Qed.

(** With distinct keys, [set] only touches the entry of its key. *)
Lemma JsMap_elem_of_set k v k' v' m :
  NoDup (JsMap.keys m) →
  (k', v') ∈ JsMap.set k v m →
  (k' = k ∧ v' = v) ∨ (k' ≠ k ∧ (k', v') ∈ m).
Proof.
  induction m as [|[k0 v0] m IH]; simpl; intros Hnd.
  - rewrite list_elem_of_singleton. intros [= -> ->]. by left.
  - apply NoDup_cons in Hnd as [Hk0 Hnd].
    case_decide as Hk; subst; rewrite !elem_of_cons.
    + intros [[= -> ->]|Hin]; [by left|].
      right. split; [|by right].
      intros ->. apply Hk0. by eapply JsMap_elem_of_keys.
    + intros [[= -> ->]|Hin]; [right; split; [done|by left]|].
      destruct (IH Hnd Hin) as [?|[? ?]]; [by left|right; split; [done|by right]].
Qed.

Lemma JsMap_NoDup_keys_set k v m :
  NoDup (JsMap.keys m) → NoDup (JsMap.keys (JsMap.set k v m)).
Proof.
  intros Hnd. rewrite JsMap_keys_set. case_decide as Hin; [done|].
  apply NoDup_app. split_and!; [done| |apply NoDup_singleton].
  intros x Hx ->%list_elem_of_singleton. done.
Qed.
End JsMapFacts.

Lemma merge_inv_nil : merge_inv [] [].
Proof.
  split_and!; [constructor|done|]. intros k v Hin. by apply elem_of_nil in Hin.
Qed.

Lemma merge_inv_step l m op :
  merge_inv l m → merge_inv (l ++ [op]) (merge_step m op).
Proof.
  intros (Hnd & Hkeys & Hmax). unfold merge_step.
  destruct (JsMap.get (item_id op) m) as [cur|] eqn:Hget.
  - apply JsMap_get_Some in Hget as Hcur.
    destruct (Hmax _ _ Hcur) as (Hidc & Hcl & Hcmax).
    assert (Hink : item_id op ∈ JsMap.keys m) by (by eapply JsMap_elem_of_keys).
    case_decide as Hts.
    + split_and!.
      * by apply JsMap_NoDup_keys_set.
      * intros k. rewrite JsMap_keys_set, decide_True by done.
        rewrite Hkeys, fmap_app, elem_of_app. simpl.
        rewrite list_elem_of_singleton. split; [tauto|].
        intros [?| ->]; [done|]. by apply Hkeys.
      * intros k v Hin. apply (JsMap_elem_of_set _ _ _ _ _ Hnd) in Hin as [[-> ->]|[Hne Hin]].
        -- split_and!; [done|apply elem_of_app; right; left|].
           intros op' [Hin'| ->%list_elem_of_singleton]%elem_of_app Hid; [|lia].
           specialize (Hcmax _ Hin' Hid). lia.
        -- destruct (Hmax _ _ Hin) as (Hidv & Hvl & Hvmax).
           split_and!; [done|apply elem_of_app; by left|].
           intros op' [Hin'| ->%list_elem_of_singleton]%elem_of_app Hid; [by apply Hvmax|].
           congruence.
    + split_and!; [done| |].
      * intros k. rewrite Hkeys, fmap_app, elem_of_app. simpl.
        rewrite list_elem_of_singleton. split; [tauto|].
        intros [?| ->]; [done|]. by apply Hkeys.
      * intros k v Hin. destruct (Hmax _ _ Hin) as (Hidv & Hvl & Hvmax).
        split_and!; [done|apply elem_of_app; by left|].
        intros op' [Hin'| ->%list_elem_of_singleton]%elem_of_app Hid; [by apply Hvmax|].
        subst k.
        assert (v = cur) as ->.
        { rewrite Hid in Hcur.
          eapply JsMap_entry_unique; [exact Hnd|exact Hin|exact Hcur]. }
        lia.
  - apply JsMap_get_None in Hget.
    split_and!.
    + by apply JsMap_NoDup_keys_set.
    + intros k. rewrite JsMap_keys_set, decide_False by done.
      rewrite fmap_app, !elem_of_app, Hkeys. simpl. done.
    + intros k v Hin. apply (JsMap_elem_of_set _ _ _ _ _ Hnd) in Hin as [[-> ->]|[Hne Hin]].
      * split_and!; [done|apply elem_of_app; right; left|].
        intros op' [Hin'| ->%list_elem_of_singleton]%elem_of_app Hid; [|lia].
        exfalso. apply Hget, Hkeys. rewrite <- Hid.
        apply list_elem_of_fmap. eauto.
      * destruct (Hmax _ _ Hin) as (Hidv & Hvl & Hvmax).
        split_and!; [done|apply elem_of_app; by left|].
        intros op' [Hin'| ->%list_elem_of_singleton]%elem_of_app Hid; [by apply Hvmax|].
        congruence.
Qed.

Lemma merge_inv_foldl l : merge_inv l (foldl merge_step [] l).
Proof.
  induction l as [|op l IH] using rev_ind; [apply merge_inv_nil|].
  rewrite foldl_app. simpl. by apply merge_inv_step.
Qed.

(** C9 — Buffer merge policy. For all lists [existing] and [incoming],
    [mergeOps] returns a list with exactly one operation per distinct id of
    the inputs (no id twice, every input id present, no other id); the
    operation kept for an id is one of the inputs with that id and no input
    with the same id has a greater timestamp; and the list is in ascending
    timestamp order. *)
Theorem mergeOps_policy (existing incoming : list OpItem) :
  let r := mergeOps existing incoming in
  NoDup (item_id <$> r)
  ∧ (∀ k, k ∈ item_id <$> r ↔ k ∈ item_id <$> (existing ++ incoming))
  ∧ (∀ op, op ∈ r →
       op ∈ existing ++ incoming
       ∧ ∀ op', op' ∈ existing ++ incoming →
                item_id op' = item_id op → item_ts op' ≤ item_ts op)
  ∧ StronglySorted ts_le r.
Proof.
  intros r. subst r. unfold mergeOps.
  set (l := existing ++ incoming).
  destruct (merge_inv_foldl l) as (Hnd & Hkeys & Hmax).
  set (m := foldl merge_step [] l) in *.
  assert (Hids : item_id <$> JsMap.values m = JsMap.keys m).
  { unfold JsMap.values, JsMap.keys. rewrite <- list_fmap_compose.
    apply Forall_fmap_ext, Forall_forall. intros [k v] Hin. simpl.
    by destruct (Hmax _ _ Hin) as [? _]. }
  assert (Hperm : item_id <$> stable_sort ts_le (JsMap.values m) ≡ₚ JsMap.keys m).
  { rewrite stable_sort_perm. by rewrite Hids. }
  split_and!.
  - by rewrite Hperm.
  - intros k. rewrite Hperm. apply Hkeys.
  - intros op Hin. rewrite stable_sort_perm in Hin.
    apply list_elem_of_fmap in Hin as ([k v] & -> & Hin). simpl.
    destruct (Hmax _ _ Hin) as (<- & ? & ?). done.
  - apply stable_sort_sorted; apply _.
Qed.

(** ** The monad of database calls *)

Lemma bind_Ok {A B} (m : M A) (k : A → M B) w a w' :
  m w = (Ok a, w') → bind m k w = k a w'.
Proof. unfold bind. by intros ->. Qed.

Lemma bind_Throw {A B} (m : M A) (k : A → M B) w e w' :
  m w = (Throw e, w') → bind m k w = (Throw e, w').
Proof. unfold bind. by intros ->. Qed.

Lemma bind_inv_Ok {A B} (m : M A) (k : A → M B) w b w' :
  bind m k w = (Ok b, w') → ∃ a w1, m w = (Ok a, w1) ∧ k a w1 = (Ok b, w').
Proof.
  unfold bind. destruct (m w) as [[a|e] w1]; [eauto|done].
Qed.

Lemma bind_inv_Throw {A B} (m : M A) (k : A → M B) w e w' :
  bind m k w = (Throw e, w') →
  m w = (Throw e, w') ∨ ∃ a w1, m w = (Ok a, w1) ∧ k a w1 = (Throw e, w').
Proof.
  unfold bind. destruct (m w) as [[a|e'] w1]; [eauto|].
  intros [= -> ->]. by left.
Qed.

(** *** Transaction isolation *)

Lemma isolated_ret {A} (a : A) : isolated (ret a).
Proof. by intros w Ht. Qed.

Lemma isolated_bind {A B} (m : M A) (k : A → M B) :
  isolated m → (∀ a, isolated (k a)) → isolated (bind m k).
Proof.
  intros Hm Hk w Ht. destruct (Hm w Ht) as [Hc Ht']. unfold bind.
  destruct (m w) as [[a|e] w1]; simpl in *; [|done].
  destruct (Hk a w1 Ht') as [Hc' Ht'']. split; [congruence|done].
Qed.

Lemma isolated_tick : isolated tick.
Proof. intros w Ht. unfold tick. by destruct (budget w) as [[|n]|]. Qed.

Lemma isolated_db_call {A} (s : Session) (f : Db → Result A * Db) :
  isolated (db_call (Some s) f).
Proof.
  apply isolated_bind; [apply isolated_tick|]. intros _ w [t Ht].
  unfold view, store. rewrite Ht. destruct (f t) as [r d]. simpl. eauto.
Qed.

Lemma isolated_randomUUID : isolated randomUUID.
Proof. by intros w Ht. Qed.

Lemma isolated_for_each {A} (body : A → M unit) (arr : list A) :
  (∀ x, isolated (body x)) → isolated (for_each body arr).
Proof.
  intros Hbody. induction arr as [|x arr IH]; simpl.
  - apply isolated_ret.
  - apply isolated_bind; auto.
Qed.

Lemma isolated_append_item boardId author s item :
  isolated (append_item boardId author (Some s) item).
Proof.
  unfold append_item, nextBoardSeq, BoardOp_findOne, BoardOp_create,
    Counter_findOneAndUpdate_inc.
  apply isolated_bind.
  { destruct (client_key item); [apply isolated_ret|apply isolated_randomUUID]. }
  intros opId. apply isolated_bind; [apply isolated_db_call|].
  intros [r|]; [apply isolated_ret|].
  repeat (apply isolated_bind; [try apply isolated_db_call|intros ?]);
    try apply isolated_ret.
Qed.

Lemma isolated_checkpoint_if_due boardId s :
  isolated (checkpoint_if_due boardId (Some s)).
Proof.
  unfold checkpoint_if_due, BoardOp_countDocuments, Board_findById,
    BoardSnapshot_countDocuments, BoardSnapshot_create.
  apply isolated_bind; [apply isolated_db_call|]. intros n.
  case_decide; [|apply isolated_ret].
  apply isolated_bind; [apply isolated_db_call|]. intros [b|]; [|apply isolated_ret].
  apply isolated_bind; [apply isolated_db_call|]. intros k. apply isolated_db_call.
Qed.

Lemma isolated_ops_transaction boardId author ops s :
  isolated (ops_transaction boardId author ops (Some s)).
Proof.
  apply isolated_bind.
  - apply isolated_for_each. intros item. apply isolated_append_item.
  - intros _. apply isolated_checkpoint_if_due.
Qed.

Lemma tick_committed w : committed (tick w).2 = committed w.
Proof. unfold tick. by destruct (budget w) as [[|n]|]. Qed.

Lemma tick_txn w : txn (tick w).2 = txn w.
Proof. unfold tick. by destruct (budget w) as [[|n]|]. Qed.

(** A transaction whose callback is isolated and which throws leaves the
    committed data as it found them. *)
Lemma withTransaction_abort (fn : M unit) w e w' :
  isolated fn → withTransaction fn w = (Throw e, w') → committed w' = committed w.
Proof.
  intros Hfn. unfold withTransaction.
  destruct (Hfn (set_store (committed w) (Some (committed w)) w)) as [Hc _];
    [by eexists|].
  destruct (fn _) as [[[]|e1] w1]; simpl in *.
  - pose proof (tick_committed w1) as Htc.
    destruct (tick w1) as [[[]|e2] w2]; [done|]. simpl in *.
    intros [= _ <-]. simpl. congruence.
  - intros [= _ <-]. simpl. done.
Qed.

Lemma persist_ops_abort boardId author ops w e w' :
  persist_ops boardId author ops w = (Throw e, w') → committed w' = committed w.
Proof.
  unfold persist_ops, startSession. intros H.
  apply bind_inv_Throw in H as [H|(session & w1 & H1 & H)].
  - apply bind_inv_Throw in H as [H|(? & w1 & H1 & H)].
    + pose proof (tick_committed w) as Hc. rewrite H in Hc. done.
    + done.
  - apply bind_inv_Ok in H1 as (? & w0 & H0 & Hret).
    unfold ret in Hret. simplify_eq.
    pose proof (tick_committed w) as Hc. rewrite H0 in Hc. simpl in Hc.
    rewrite <- Hc. eapply withTransaction_abort; [|exact H].
    apply isolated_ops_transaction.
Qed.

(** *** Storage faults *)

Lemma faultless_ret {A} (a : A) : faultless (ret a).
Proof. intros w a' w'. unfold ret. by intros [= -> ->]. Qed.

Lemma faultless_bind {A B} (m : M A) (k : A → M B) :
  faultless m → (∀ a, faultless (k a)) → faultless (bind m k).
Proof.
  intros Hm Hk w b w' (a & w1 & H1 & H2)%bind_inv_Ok.
  erewrite bind_Ok; [|by apply Hm]. by apply Hk.
Qed.

Lemma faultless_tick : faultless tick.
Proof.
  intros w [] w'. unfold tick. destruct (budget w) as [[|n]|]; [done| |];
    by intros [= <-].
Qed.

Lemma faultless_db_call {A} session (f : Db → Result A * Db) :
  faultless (db_call session f).
Proof.
  apply faultless_bind; [apply faultless_tick|]. intros _ w a w'.
  replace (view session (calm w)) with (view session w) by done.
  destruct (f (view session w)) as [r d]. intros [= -> <-]. f_equal.
  unfold store, calm. simpl. by destruct session, (txn w).
Qed.

Lemma faultless_randomUUID : faultless randomUUID.
Proof. intros w a w'. unfold randomUUID. by intros [= <- <-]. Qed.

Lemma faultless_for_each {A} (body : A → M unit) (arr : list A) :
  (∀ x, faultless (body x)) → faultless (for_each body arr).
Proof.
  intros Hbody. induction arr as [|x arr IH]; simpl.
  - apply faultless_ret.
  - apply faultless_bind; auto.
Qed.

Lemma faultless_withTransaction (fn : M unit) :
  faultless fn → faultless (withTransaction fn).
Proof.
  intros Hfn w [] w'. unfold withTransaction.
  replace (set_store (committed (calm w)) (Some (committed (calm w))) (calm w))
    with (calm (set_store (committed w) (Some (committed w)) w)) by done.
  destruct (fn (set_store _ _ w)) as [[[]|e] w1] eqn:Hrun; [|done].
  rewrite (Hfn _ _ _ Hrun).
  destruct (tick w1) as [[[]|e] w2] eqn:Htick; [|done].
  rewrite (faultless_tick _ _ _ Htick). by intros [= <-].
Qed.

Lemma faultless_append_item boardId author session item :
  faultless (append_item boardId author session item).
Proof.
  unfold append_item, nextBoardSeq, BoardOp_findOne, BoardOp_create,
    Counter_findOneAndUpdate_inc.
  apply faultless_bind.
  { destruct (client_key item); [apply faultless_ret|apply faultless_randomUUID]. }
  intros opId. apply faultless_bind; [apply faultless_db_call|].
  intros [r|]; [apply faultless_ret|].
  repeat (apply faultless_bind; [try apply faultless_db_call|intros ?]);
    try apply faultless_ret.
Qed.

Lemma faultless_checkpoint_if_due boardId session :
  faultless (checkpoint_if_due boardId session).
Proof.
  unfold checkpoint_if_due, BoardOp_countDocuments, Board_findById,
    BoardSnapshot_countDocuments, BoardSnapshot_create.
  apply faultless_bind; [apply faultless_db_call|]. intros n.
  case_decide; [|apply faultless_ret].
  apply faultless_bind; [apply faultless_db_call|]. intros [b|]; [|apply faultless_ret].
  apply faultless_bind; [apply faultless_db_call|]. intros k. apply faultless_db_call.
Qed.

Lemma faultless_persist_ops boardId author ops :
  faultless (persist_ops boardId author ops).
Proof.
  unfold persist_ops, startSession.
  apply faultless_bind.
  { apply faultless_bind; [apply faultless_tick|]. intros _. apply faultless_ret. }
  intros session. apply faultless_withTransaction.
  apply faultless_bind.
  - apply faultless_for_each. intros item. apply faultless_append_item.
  - intros _. apply faultless_checkpoint_if_due.
Qed.

(** *** The committed batch as a function *)

Lemma append_item_run boardId author item c t u n :
  append_item boardId author (Some ClientSession) item (in_txn c t u n)
  = (Ok (),
     in_txn c (append_pure boardId author u (t, n) item).1 u
       (append_pure boardId author u (t, n) item).2).
Proof.
  unfold append_item, append_pure, in_txn, nextBoardSeq, BoardOp_findOne,
    BoardOp_create, Counter_findOneAndUpdate_inc, db_call, tick, bind, ret,
    randomUUID, view, store, set_store, find_op.
  simpl.
  destruct (client_key item) as [k|]; simpl;
    (destruct (head _) as [r|] eqn:Hfind; [done|]); simpl; by rewrite Hfind.
Qed.

Lemma for_each_append_run boardId author ops c t u n :
  for_each (append_item boardId author (Some ClientSession)) ops (in_txn c t u n)
  = (Ok (),
     in_txn c (foldl (append_pure boardId author u) (t, n) ops).1 u
       (foldl (append_pure boardId author u) (t, n) ops).2).
Proof.
  revert t n. induction ops as [|item ops IH]; intros t n; simpl; [done|].
  erewrite bind_Ok; [|apply append_item_run].
  rewrite IH. by destruct (append_pure boardId author u (t, n) item).
Qed.

Lemma checkpoint_run boardId c t u n :
  checkpoint_if_due boardId (Some ClientSession) (in_txn c t u n)
  = (Ok (), in_txn c (checkpoint_pure boardId t) u n).
Proof.
  unfold checkpoint_if_due, checkpoint_pure, in_txn, BoardOp_countDocuments,
    Board_findById, BoardSnapshot_countDocuments, BoardSnapshot_create, db_call,
    tick, bind, ret, view, store, set_store.
  simpl. case_decide; [|done]. simpl.
  by destruct (boards t !! boardId) as [b|].
Qed.

(** Whatever the fault oracle, a batch that is acknowledged as persisted
    has turned the database into [commit_pure]. *)
Lemma persist_ops_commit boardId author ops faults u d d' :
  run (persist_ops boardId author ops) faults u d = (Ok (), d') →
  d' = commit_pure boardId author u ops d.
Proof.
  unfold run. destruct (persist_ops _ _ _ _) as [[[]|e] w'] eqn:Hrun; [|done].
  intros [= <-]. apply faultless_persist_ops in Hrun.
  unfold calm in Hrun. simpl in Hrun.
  unfold persist_ops, startSession in Hrun.
  unfold bind at 1 in Hrun. simpl in Hrun.
  unfold withTransaction, ops_transaction in Hrun. simpl in Hrun.
  change (set_store d (Some d) _) with (in_txn d d u 0) in Hrun.
  erewrite bind_Ok in Hrun; [|apply for_each_append_run].
  rewrite checkpoint_run in Hrun. simpl in Hrun.
  injection Hrun as Hw. rewrite <- Hw. done.
Qed.

(** The two outcomes of a submission by a joined writer. *)
Lemma board_ops_outcome s sid sock boardId ops snapshot uuid faults s' out :
  sockets s !! sid = Some sock →
  truthy (sock_boardId sock) = Some boardId →
  can_write (sock_role sock) = true →
  step (BoardOps sid ops snapshot uuid faults) s = (s', out) →
  sockets s' = sockets s
  ∧ buffers s' = enqueuePersist boardId ops snapshot (buffers s)
  ∧ ((db s' = db s
      ∧ out = [EmitBoardOps sid boardId ops snapshot;
               Ack sid false (Some "persist failed") None])
     ∨ (db s' = commit_pure boardId (truthy (sock_userId sock)) uuid ops (db s)
        ∧ out = [EmitBoardOps sid boardId ops snapshot; Ack sid true None None])).
Proof.
  intros Hsock Hb Hw. simpl. unfold on_board_ops. rewrite Hsock, Hb, Hw.
  destruct (run _ _ _ _) as [[[]|e] d] eqn:Hrun; intros [= <- <-]; simpl.
  - split_and!; [done..|]. right. split; [|done].
    by eapply persist_ops_commit.
  - split_and!; [done..|]. left. split; [|done].
    unfold run in Hrun. destruct (persist_ops _ _ _ _) as [r w'] eqn:Hp.
    simplify_eq. by apply persist_ops_abort in Hp.
Qed.

(** An acknowledged submission by a joined socket was committed. *)
Lemma board_ops_acked s sid sock boardId ops snapshot uuid faults s' out :
  sockets s !! sid = Some sock →
  truthy (sock_boardId sock) = Some boardId →
  step (BoardOps sid ops snapshot uuid faults) s = (s', out) →
  Ack sid true None None ∈ out →
  sockets s' = sockets s
  ∧ db s' = commit_pure boardId (truthy (sock_userId sock)) uuid ops (db s).
Proof.
  intros Hsock Hb Hstep Hack.
  destruct (can_write (sock_role sock)) eqn:Hw.
  - destruct (board_ops_outcome _ _ _ _ _ _ _ _ _ _ Hsock Hb Hw Hstep)
      as (Hs & _ & [[_ ->]|[Hd _]]); [|done].
    apply elem_of_cons in Hack as [?|Hack]; [done|].
    by apply list_elem_of_singleton in Hack.
  - simpl in Hstep. unfold on_board_ops in Hstep.
    rewrite Hsock, Hb, Hw in Hstep. simplify_eq.
    by apply list_elem_of_singleton in Hack.
Qed.

(** *** Counter keys *)

Lemma list_ascii_of_string_app s1 s2 :
  String.list_ascii_of_string (s1 +:+ s2)
  = (String.list_ascii_of_string s1 ++ String.list_ascii_of_string s2)%list.
Proof. induction s1 as [|c s1 IH]; simpl; [done|]. by rewrite IH. Qed.

Lemma string_app_inv_tail s1 s2 t : s1 +:+ t = s2 +:+ t → s1 = s2.
Proof.
  intros H. apply (f_equal String.list_ascii_of_string) in H.
  rewrite !list_ascii_of_string_app in H. apply app_inv_tail in H.
  apply (f_equal String.string_of_list_ascii) in H.
  by rewrite !String.string_of_list_ascii_of_string in H.
Qed.

#[global] Instance counter_key_inj : Inj (=) (=) counter_key.
Proof.
  intros b1 b2 H. unfold counter_key in H.
  apply (inj (String.app "board:")) in H. by apply string_app_inv_tail in H.
Qed.

(** *** Frame properties of a committed batch *)

Lemma append_pure_frame boardId author u st item :
  let st' := append_pure boardId author u st item in
  users st'.1 = users st.1
  ∧ boards st'.1 = boards st.1
  ∧ boardSnapshots st'.1 = boardSnapshots st.1.
Proof. unfold append_pure. by destruct (find_op _ _ _). Qed.

Lemma foldl_append_pure_frame boardId author u ops st :
  let st' := foldl (append_pure boardId author u) st ops in
  users st'.1 = users st.1
  ∧ boards st'.1 = boards st.1
  ∧ boardSnapshots st'.1 = boardSnapshots st.1.
Proof.
  revert st. induction ops as [|item ops IH]; intros st; simpl; [done|].
  destruct (IH (append_pure boardId author u st item)) as (-> & -> & ->).
  apply append_pure_frame.
Qed.

(** The log only grows, by records of the submitting socket's board; the
    counters of other boards are not touched. *)
Lemma append_pure_log boardId author u st item :
  let st' := append_pure boardId author u st item in
  (∃ new, boardOps st'.1 = boardOps st.1 ++ new
          ∧ Forall (λ r, bo_boardId r = boardId) new)
  ∧ (∀ key, key ≠ counter_key boardId → counters st'.1 !! key = counters st.1 !! key).
Proof.
  unfold append_pure. destruct (find_op _ _ _); simpl.
  - split; [|done]. exists []. by rewrite app_nil_r.
  - split.
    + eexists. split; [done|]. by repeat constructor.
    + intros key Hkey. by rewrite lookup_insert_ne.
Qed.

Lemma foldl_append_pure_log boardId author u ops st :
  let st' := foldl (append_pure boardId author u) st ops in
  (∃ new, boardOps st'.1 = boardOps st.1 ++ new
          ∧ Forall (λ r, bo_boardId r = boardId) new)
  ∧ (∀ key, key ≠ counter_key boardId → counters st'.1 !! key = counters st.1 !! key).
Proof.
  revert st. induction ops as [|item ops IH]; intros st; simpl.
  - split; [|done]. exists []. by rewrite app_nil_r.
  - destruct (IH (append_pure boardId author u st item)) as [(new2 & -> & Hn2) Hc2].
    destruct (append_pure_log boardId author u st item) as [(new1 & -> & Hn1) Hc1].
    split.
    + exists (new1 ++ new2). rewrite app_assoc. split; [done|].
      by apply Forall_app.
    + intros key Hkey. rewrite Hc2, Hc1; done.
Qed.

Lemma checkpoint_pure_frame boardId d :
  users (checkpoint_pure boardId d) = users d
  ∧ boards (checkpoint_pure boardId d) = boards d
  ∧ counters (checkpoint_pure boardId d) = counters d
  ∧ boardOps (checkpoint_pure boardId d) = boardOps d.
Proof.
  unfold checkpoint_pure. case_decide; [|done]. by destruct (boards d !! boardId).
Qed.

(** *** The log invariant *)

Lemma log_inv_empty d : boardOps d = [] → log_inv d.
Proof.
  intros Hops b. exists []. unfold seqs_of, ops_of. rewrite Hops.
  split_and!; [done|constructor|constructor].
Qed.

Lemma log_inv_ext d d' :
  boardOps d' = boardOps d → counters d' = counters d → log_inv d → log_inv d'.
Proof.
  intros Hops Hc Hinv b. destruct (Hinv b) as (l & Hl & Hs & Hb).
  exists l. unfold seqs_of, counter_of in *. by rewrite Hops, Hc.
Qed.

Lemma append_pure_log_inv boardId author u st item :
  log_inv st.1 → log_inv (append_pure boardId author u st item).1.
Proof.
  intros Hinv. unfold append_pure.
  destruct (find_op _ _ _); simpl; [done|].
  intros b. destruct (Hinv b) as (l & Hl & Hs & Hb).
  unfold seqs_of, counter_of, ops_of in *. simpl.
  rewrite filter_app, fmap_app.
  destruct (decide (b = boardId)) as [->|Hne].
  - exists (l ++ [default 0 (counters st.1 !! counter_key boardId) + 1]).
    rewrite filter_cons_True by done. simpl.
    rewrite fmap_app, Hl. split_and!; [done| |].
    + apply StronglySorted_app. split_and!; [|done|repeat constructor].
      intros x1 x2 Hx1 ->%list_elem_of_singleton.
      rewrite Forall_forall in Hb. specialize (Hb _ Hx1). lia.
    + rewrite lookup_insert_eq. simpl. apply Forall_app. split.
      * eapply Forall_impl; [exact Hb|]. simpl. intros. lia.
      * repeat constructor. lia.
  - exists l. rewrite filter_cons_False by (simpl; congruence).
    rewrite filter_nil. simpl. rewrite app_nil_r.
    rewrite lookup_insert_ne; [done|]. intros Hk. by apply (inj counter_key) in Hk.
Qed.

Lemma commit_pure_log_inv boardId author u ops d :
  log_inv d → log_inv (commit_pure boardId author u ops d).
Proof.
  intros Hinv. unfold commit_pure.
  destruct (checkpoint_pure_frame boardId
              (foldl (append_pure boardId author u) (d, 0%nat) ops).1)
    as (_ & _ & Hc & Ho).
  eapply log_inv_ext; [exact Ho|exact Hc|].
  assert (Hfold : ∀ st, log_inv st.1 →
            log_inv (foldl (append_pure boardId author u) st ops).1).
  { clear. induction ops as [|item ops IH]; intros st Hst; simpl; [done|].
    apply IH. by apply append_pure_log_inv. }
  by apply Hfold.
Qed.

(** *** What each event can do to the database *)

Lemma commit_pure_frame boardId author u ops d :
  users (commit_pure boardId author u ops d) = users d
  ∧ boards (commit_pure boardId author u ops d) = boards d.
Proof.
  unfold commit_pure.
  destruct (checkpoint_pure_frame boardId
              (foldl (append_pure boardId author u) (d, 0%nat) ops).1)
    as (-> & -> & _ & _).
  destruct (foldl_append_pure_frame boardId author u ops (d, 0%nat)) as (-> & -> & _).
  done.
Qed.

Lemma flush_db boardId payload faults u d :
  let d' := (run (flush_body boardId payload) faults u d).2 in
  users d' = users d ∧ counters d' = counters d ∧ boardOps d' = boardOps d
  ∧ boardSnapshots d' = boardSnapshots d
  ∧ ∀ b, is_Some (boards d !! b) → is_Some (boards d' !! b).
Proof.
  unfold run, flush_body, catch, Board_findById, Board_findByIdAndUpdate_document,
    db_call, bind, tick, ret, view, store, set_store. simpl.
  destruct faults as [[|[|n]]|]; simpl; split_and!; try done;
    intros b Hb; rewrite lookup_alter; case_decide; subst; try done;
    by apply fmap_is_Some.
Qed.

(** Every event either leaves the operation log and the counters alone
    (adding at most snapshots and boards), or is a batch committed for the
    board its socket has joined. *)
Lemma step_cases e s s' out :
  step e s = (s', out) →
  (boardOps (db s') = boardOps (db s)
   ∧ counters (db s') = counters (db s)
   ∧ (∃ more, boardSnapshots (db s') = boardSnapshots (db s) ++ more)
   ∧ (∀ b, is_Some (boards (db s) !! b) → is_Some (boards (db s') !! b))
   ∧ (∀ sid ops snapshot uuid faults,
        e = BoardOps sid ops snapshot uuid faults → s' = s ∨
          (sockets s' = sockets s ∧ db s' = db s)))
  ∨ (∃ sid ops snapshot uuid faults sock boardId,
       e = BoardOps sid ops snapshot uuid faults
       ∧ sockets s !! sid = Some sock
       ∧ truthy (sock_boardId sock) = Some boardId
       ∧ sockets s' = sockets s
       ∧ out = [EmitBoardOps sid boardId ops snapshot; Ack sid true None None]
       ∧ db s' = commit_pure boardId (truthy (sock_userId sock)) uuid ops (db s)).
Proof.
  assert (Hnil : ∀ A (l : list A), ∃ more, l = l ++ more)
    by (intros A l; exists []; by rewrite app_nil_r).
  destruct e; simpl.
  - intros [= <- <-]. left. simpl. split_and!; done.
  - intros [= <- <-]. left. simpl. split_and!; done.
  - unfold on_room_join. intros H. left.
    repeat case_match; simplify_eq; simpl; split_and!; done.
  - intros H. unfold on_board_ops in H.
    destruct (sockets s !! sid) as [sock|] eqn:Hsock;
      [|simplify_eq; left; split_and!; auto].
    destruct (truthy (sock_boardId sock)) as [boardId|] eqn:Hb;
      [|simplify_eq; left; split_and!; auto].
    destruct (can_write (sock_role sock)) eqn:Hw;
      [|simplify_eq; left; split_and!; auto].
    assert (Hstep : step (BoardOps sid ops snapshot uuid faults) s = (s', out)).
    { simpl. unfold on_board_ops. by rewrite Hsock, Hb, Hw. }
    destruct (board_ops_outcome _ _ _ _ _ _ _ _ _ _ Hsock Hb Hw Hstep)
      as (Hs & _ & [[Hd _]|[Hd Ho]]).
    + left. rewrite Hd. split_and!; auto.
    + right. by exists sid, ops, snapshot, uuid, faults, sock, boardId.
  - unfold on_flush_timer. intros H. left.
    destruct (buffers s !! boardId) as [payload|]; [|simplify_eq; split_and!; done].
    pose proof (flush_db boardId payload faults (λ _, "") (db s)) as Hf.
    destruct (run _ _ _ _) as [r d]. simpl in Hf. simplify_eq. simpl.
    destruct Hf as (_ & -> & -> & -> & Hb). split_and!; done.
  - unfold http, post_board. intros H. left.
    repeat case_match; simplify_eq; simpl; split_and!; try done.
    intros b0 Hb0. destruct (decide (newId = b0)) as [->|Hne];
      [by rewrite lookup_insert_eq|by rewrite lookup_insert_ne].
  - unfold http, get_board. intros H. left.
    repeat case_match; simplify_eq; simpl; split_and!; try done;
      intros b0 Hb0; (destruct (decide (boardId = b0)) as [->|Hne];
        [by rewrite lookup_insert_eq|by rewrite lookup_insert_ne]).
  - unfold http, post_member. intros H. left.
    repeat case_match; simplify_eq; simpl; split_and!; try done;
      intros b0 Hb0; (destruct (decide (boardId = b0)) as [->|Hne];
        [by rewrite lookup_insert_eq|by rewrite lookup_insert_ne]).
  - unfold http, patch_member. intros H. left.
    repeat case_match; simplify_eq; simpl; split_and!; try done;
      intros b0 Hb0; (destruct (decide (boardId = b0)) as [->|Hne];
        [by rewrite lookup_insert_eq|by rewrite lookup_insert_ne]).
  - unfold http, delete_member. intros H. left.
    repeat case_match; simplify_eq; simpl; split_and!; try done;
      intros b0 Hb0; (destruct (decide (boardId = b0)) as [->|Hne];
        [by rewrite lookup_insert_eq|by rewrite lookup_insert_ne]).
  - unfold http, post_snapshot. intros H. left.
    repeat case_match; simplify_eq; simpl; split_and!; try done;
      try (by eexists);
      intros b0 Hb0; (destruct (decide (boardId = b0)) as [->|Hne];
        [by rewrite lookup_insert_eq|by rewrite lookup_insert_ne]).
  - unfold http, get_export. intros H. left.
    repeat case_match; simplify_eq; simpl; split_and!; done.
Qed.

(** The log invariant is kept by every event. *)
Lemma step_log_inv e s : log_inv (db s) → log_inv (db (step e s).1).
Proof.
  intros Hinv. destruct (step e s) as [s' out] eqn:Hstep. simpl.
  apply step_cases in Hstep
    as [(Ho & Hc & _)|(sid & ops & snapshot & uuid & faults & sock & b & _ & _ & _ & _ & _ & ->)].
  - by eapply log_inv_ext.
  - by apply commit_pure_log_inv.
Qed.

Lemma steps_log_inv es s : log_inv (db s) → log_inv (db (steps es s)).
Proof.
  revert s. induction es as [|e es IH]; intros s Hinv; simpl; [done|].
  apply IH. by apply step_log_inv.
Qed.

(** ** The sequence allocator *)

Lemma nextBoardSeq_run boardId c t u n :
  nextBoardSeq boardId (Some ClientSession) (in_txn c t u n)
  = (Ok (counter_of boardId t + 1),
     in_txn c (set_counters (<[counter_key boardId := counter_of boardId t + 1]>) t) u n).
Proof. done. Qed.

Lemma counter_of_alloc boardId b t :
  counter_of b (set_counters (<[counter_key boardId := counter_of boardId t + 1]>) t)
  = if decide (b = boardId) then counter_of boardId t + 1 else counter_of b t.
Proof.
  unfold counter_of. simpl. case_decide as Hb.
  - subst. by rewrite lookup_insert_eq.
  - rewrite lookup_insert_ne; [done|]. intros Hk. by apply (inj counter_key) in Hk.
Qed.

Lemma allocate_run bs c t u n :
  ∃ res t',
    allocate (Some ClientSession) bs (in_txn c t u n) = (Ok res, in_txn c t' u n)
    ∧ res.*1 = bs
    ∧ ∀ b, StronglySorted Z.lt (allocated_for b res)
           ∧ Forall (λ k, counter_of b t < k) (allocated_for b res)
           ∧ counter_of b t ≤ counter_of b t'.
Proof.
  revert t. induction bs as [|b0 bs IH]; intros t; simpl.
  - exists [], t. split_and!; [done..|]. intros b.
    split_and!; [constructor|constructor|lia].
  - erewrite bind_Ok; [|apply nextBoardSeq_run].
    destruct (IH (set_counters (<[counter_key b0 := counter_of b0 t + 1]>) t))
      as (res & t' & Hrun & Hfst & Hres).
    erewrite bind_Ok; [|exact Hrun].
    exists ((b0, counter_of b0 t + 1) :: res), t'.
    split_and!; [done|by rewrite <- Hfst|].
    intros b. destruct (Hres b) as (Hs & Hlt & Hle).
    rewrite counter_of_alloc in Hlt, Hle. unfold allocated_for in *.
    destruct (decide (b = b0)) as [->|Hne].
    + rewrite filter_cons_True by done. simpl.
      split_and!; [constructor; done| |lia].
      constructor; [lia|]. eapply Forall_impl; [exact Hlt|]. simpl. intros. lia.
    + rewrite filter_cons_False by (simpl; congruence). done.
Qed.

(** ** Deduplication by [(boardId, opId)] *)

Arguments find_op : simpl never.

Lemma find_op_app boardId k l1 l2 :
  find_op boardId k (l1 ++ l2)
  = match find_op boardId k l1 with
    | Some r => Some r
    | None => find_op boardId k l2
    end.
Proof.
  destruct k as [k|]; unfold find_op; [|done]. rewrite filter_app.
  by destruct (filter _ l1).
Qed.

Lemma find_op_Some boardId k l r :
  find_op boardId k l = Some r →
  r ∈ l ∧ bo_boardId r = boardId ∧ k = Some (bo_opId r).
Proof.
  destruct k as [k|]; unfold find_op; [|done]. intros Hhd.
  apply head_Some_elem_of in Hhd. apply list_elem_of_filter in Hhd as [[? ?] ?].
  by subst.
Qed.

Lemma find_op_None boardId k l :
  find_op boardId (Some k) l = None ↔
  ∀ r, r ∈ l → bo_boardId r = boardId → bo_opId r ≠ k.
Proof.
  unfold find_op. rewrite head_None. split.
  - intros Hnil r Hr Hb Hk.
    assert (r ∈ filter (λ r, bo_boardId r = boardId ∧ bo_opId r = k) l) as Hin
      by (by apply list_elem_of_filter).
    rewrite Hnil in Hin. by apply elem_of_nil in Hin.
  - intros Hno. induction l as [|r l IH]; [done|].
    rewrite filter_cons_False.
    + apply IH. intros r' Hr'. apply Hno. by right.
    + intros [Hb Hk]. eapply Hno; [left|done..].
Qed.

(** An operation whose key is already in the board's log is skipped. *)
Lemma append_pure_present boardId author u st item k :
  client_key item = Some k →
  is_Some (find_op boardId (Some k) (boardOps st.1)) →
  append_pure boardId author u st item = st.
Proof.
  intros Hk [r Hr]. unfold append_pure. rewrite Hk. simpl. rewrite Hr.
  by destruct st.
Qed.

(** After its iteration, the key of an operation is in the board's log. *)
Lemma append_pure_stores boardId author u st item k :
  client_key item = Some k →
  is_Some (find_op boardId (Some k) (boardOps (append_pure boardId author u st item).1)).
Proof.
  intros Hk. unfold append_pure. rewrite Hk. simpl.
  destruct (find_op boardId (Some k) (boardOps st.1)) as [r|] eqn:Hfind.
  - simpl. rewrite Hfind. by eexists.
  - cbn [fst boardOps set_boardOps set_counters]. rewrite find_op_app, Hfind.
    unfold find_op. rewrite filter_cons_True by done. by eexists.
Qed.

Lemma append_pure_keeps boardId author u st item k :
  is_Some (find_op boardId k (boardOps st.1)) →
  is_Some (find_op boardId k (boardOps (append_pure boardId author u st item).1)).
Proof.
  intros [r Hr].
  destruct (append_pure_log boardId author u st item) as [(new & -> & _) _].
  rewrite find_op_app, Hr. by eexists.
Qed.

Lemma foldl_append_pure_keeps boardId author u ops st k :
  is_Some (find_op boardId k (boardOps st.1)) →
  is_Some (find_op boardId k
             (boardOps (foldl (append_pure boardId author u) st ops).1)).
Proof.
  revert st. induction ops as [|item ops IH]; intros st Hst; simpl; [done|].
  apply IH. by apply append_pure_keeps.
Qed.

Lemma foldl_append_pure_stores boardId author u ops st item k :
  item ∈ ops → client_key item = Some k →
  is_Some (find_op boardId (Some k)
             (boardOps (foldl (append_pure boardId author u) st ops).1)).
Proof.
  revert st. induction ops as [|x ops IH]; intros st Hin Hk; simpl.
  - by apply elem_of_nil in Hin.
  - apply elem_of_cons in Hin as [->|Hin]; [|by apply IH].
    apply foldl_append_pure_keeps. by apply append_pure_stores.
Qed.

Lemma foldl_append_pure_present boardId author u ops st :
  (∀ item, item ∈ ops → ∃ k, client_key item = Some k
     ∧ is_Some (find_op boardId (Some k) (boardOps st.1))) →
  foldl (append_pure boardId author u) st ops = st.
Proof.
  revert st. induction ops as [|x ops IH]; intros st Hall; simpl; [done|].
  destruct (Hall x) as (k & Hk & Hfound); [left|].
  rewrite (append_pure_present _ _ _ _ _ _ Hk Hfound).
  apply IH. intros item Hin. apply Hall. by right.
Qed.

(** A committed batch stores every keyed operation it carries. *)
Lemma commit_pure_stores boardId author u ops d item k :
  item ∈ ops → client_key item = Some k →
  is_Some (find_op boardId (Some k)
             (boardOps (commit_pure boardId author u ops d))).
Proof.
  intros Hin Hk. unfold commit_pure.
  destruct (checkpoint_pure_frame boardId
              (foldl (append_pure boardId author u) (d, 0%nat) ops).1)
    as (_ & _ & _ & ->).
  by eapply foldl_append_pure_stores.
Qed.

(** A committed batch of operations that are all in the log already changes
    neither the log nor the counters. *)
Lemma commit_pure_present boardId author u ops d :
  (∀ item, item ∈ ops → ∃ k, client_key item = Some k
     ∧ is_Some (find_op boardId (Some k) (boardOps d))) →
  boardOps (commit_pure boardId author u ops d) = boardOps d
  ∧ counters (commit_pure boardId author u ops d) = counters d.
Proof.
  intros Hall. unfold commit_pure.
  destruct (checkpoint_pure_frame boardId
              (foldl (append_pure boardId author u) (d, 0%nat) ops).1)
    as (_ & _ & -> & ->).
  by rewrite foldl_append_pure_present.
Qed.

(** ** The [board:ops] handler *)

(** C6 — Read-only enforcement. A socket whose role is neither owner nor
    editor that submits [board:ops] gets one rejection acknowledgment
    ("read-only" once it has joined a room, "no-room" before) and nothing
    else happens: no broadcast is emitted and the server state (database and
    persistence buffers) is unchanged. *)
Theorem read_only_enforcement s sid sock ops snapshot uuid faults :
  sockets s !! sid = Some sock →
  sock_role sock ≠ owner →
  sock_role sock ≠ editor →
  step (BoardOps sid ops snapshot uuid faults) s
  = (s, [Ack sid false
           (Some (match truthy (sock_boardId sock) with
                  | Some _ => "read-only"
                  | None => "no-room"
                  end)) None]).
Proof.
  intros Hsock Ho He. simpl. unfold on_board_ops. rewrite Hsock.
  destruct (truthy (sock_boardId sock)) as [boardId|]; [|done].
  unfold can_write. rewrite bool_decide_eq_false_2; [done|]. tauto.
Qed.

(** C5 — Atomic batch append. The appends of a batch run in one
    transaction: when the handler reports that persisting failed (the
    transaction aborted, wherever the failure struck), the database is
    exactly the one before the submission, so no operation of the batch is
    stored and the sequence counters are unchanged. *)
Theorem atomic_batch_append s sid ops snapshot uuid faults s' out :
  step (BoardOps sid ops snapshot uuid faults) s = (s', out) →
  Ack sid false (Some "persist failed") None ∈ out →
  db s' = db s
  ∧ boardOps (db s') = boardOps (db s)
  ∧ counters (db s') = counters (db s).
Proof.
  simpl. unfold on_board_ops. intros Hstep Hack.
  assert (db s' = db s) as ->; [|done].
  destruct (sockets s !! sid) as [sock|]; [|by simplify_eq].
  destruct (truthy (sock_boardId sock)) as [boardId|];
    [|simplify_eq; by apply list_elem_of_singleton in Hack].
  destruct (can_write (sock_role sock));
    [|simplify_eq; by apply list_elem_of_singleton in Hack].
  unfold run in Hstep.
  destruct (persist_ops _ _ _ _) as [[[]|e] w'] eqn:Hrun; simplify_eq; simpl.
  - apply elem_of_cons in Hack as [?|Hack]; [done|].
    by apply list_elem_of_singleton in Hack.
  - by apply persist_ops_abort in Hrun.
Qed.

(** C2 — Monotonic sequence, as amended. The allocator is an
    increment-and-read of the counter kept under the id it is called with,
    an absent counter counting as 0: the first allocation returns 1, and in
    any run of successive allocator calls the numbers handed out for one id
    are strictly increasing (so no number is handed out twice). The records
    the server itself appends keep that order: in every state the server
    reaches from a database with an empty operation log, by events whose
    [room:join]s name their board in the spelling of its [ObjectId], the
    sequence numbers of each board's records, in insertion order, are all
    present and strictly increasing. Records written by the restore tool
    keep the number of their file and are outside this statement. *)
Theorem monotonic_sequence (d : Db) (es : list Event) (boardId : BoardId)
    (bs : list BoardId) (c t : Db) (u : nat → string) (n : nat)
    (Hfresh : boardOps d = []) (Hjoins : joins_canonical es) :
  (nextBoardSeq boardId (Some ClientSession) (in_txn c t u n)).1
    = Ok (counter_of boardId t + 1)
  ∧ (counters t !! counter_key boardId = None →
     (nextBoardSeq boardId (Some ClientSession) (in_txn c t u n)).1 = Ok 1)
  ∧ (∃ res w',
       allocate (Some ClientSession) bs (in_txn c t u n) = (Ok res, w')
       ∧ res.*1 = bs
       ∧ StronglySorted Z.lt (allocated_for boardId res)
       ∧ NoDup (allocated_for boardId res))
  ∧ (∃ l, seqs_of boardId (db (steps es (boot d))) = Some <$> l
          ∧ StronglySorted Z.lt l
          ∧ NoDup l).
Proof.
  assert (Hnd : ∀ l, StronglySorted Z.lt l → NoDup l).
  { induction 1 as [|x l Hs IH Hall]; constructor; [|done].
    intros Hin. rewrite Forall_forall in Hall. specialize (Hall _ Hin). lia. }
  split_and!.
  - by rewrite nextBoardSeq_run.
  - intros Hnone. rewrite nextBoardSeq_run. simpl. unfold counter_of.
    by rewrite Hnone.
  - destruct (allocate_run bs c t u n) as (res & t' & Hrun & Hfst & Hres).
    destruct (Hres boardId) as (Hs & _ & _).
    exists res, (in_txn c t' u n). split_and!; auto.
  - destruct (steps_log_inv es (boot d) (log_inv_empty d Hfresh) boardId)
      as (l & Hl & Hs & _).
    exists l. split_and!; auto.
Qed.

(** ** The restore tool *)

Lemma restore_item_run boardId maxSeq item d u n :
  restore_item boardId maxSeq item (idle d u n)
  = let r := restore_item_pure boardId u (boardOps d, n) maxSeq item in
    (Ok r.2, idle (set_boardOps (λ _, r.1.1) d) u r.1.2).
Proof.
  assert (Hid : set_boardOps (λ _, boardOps d) d = d) by (by destruct d).
  unfold restore_item, restore_item_pure, idle, BoardOp_findOne, BoardOp_create,
    db_call, catch, tick, bind, ret, randomUUID, view, store, set_store.
  simpl.
  destruct (find_op boardId (art_opId item) (boardOps d)) as [r|] eqn:Hfind; simpl.
  { by rewrite Hid. }
  destruct (truthy (art_opId item)) as [k|]; simpl.
  - destruct (find_op boardId (Some k) (boardOps d)) as [r|] eqn:Hdup; simpl.
    + by rewrite Hid.
    + done.
  - destruct (find_op boardId (Some (u n)) (boardOps d)) as [r|] eqn:Hdup; simpl.
    + by rewrite Hid.
    + done.
Qed.

Lemma restore_ops_run boardId maxSeq items d u n :
  restore_ops boardId maxSeq items (idle d u n)
  = let r := restore_ops_pure boardId u (boardOps d, n) maxSeq items in
    (Ok r.2, idle (set_boardOps (λ _, r.1.1) d) u r.1.2).
Proof.
  revert maxSeq d n. induction items as [|item items IH]; intros maxSeq d n; simpl.
  - by destruct d.
  - erewrite bind_Ok; [|apply restore_item_run]. rewrite IH. simpl.
    destruct (restore_item_pure boardId u (boardOps d, n) maxSeq item) as [[l n'] m].
    simpl. by destruct (restore_ops_pure boardId u (l, n') m items) as [[l' n''] m'].
Qed.

Lemma reconcile_counter_run boardId maxSeq d u n :
  reconcile_counter boardId maxSeq (idle d u n)
  = (Ok (), idle (set_counters (reconciled boardId maxSeq) d) u n).
Proof.
  assert (Hid : set_counters (λ _, counters d) d = d) by (by destruct d).
  unfold reconcile_counter, reconciled, idle, Counter_findOne, Counter_put,
    db_call, tick, bind, ret, view, store, set_store.
  simpl. destruct (counters d !! counter_key boardId) as [seq|] eqn:Hc; simpl.
  - case_decide; simpl.
    + unfold set_counters. simpl. by rewrite Hc, decide_True.
    + unfold set_counters. simpl. rewrite Hc, decide_False by done. by destruct d.
  - unfold set_counters. simpl. by rewrite Hc.
Qed.

(** Locating or creating the board touches the [Board] collection only. *)
Lemma restore_board_run newId a d u n :
  ∃ r bs,
    restore_board newId a (idle d u n) = (r, idle (set_boards (λ _, bs) d) u n)
    ∧ (∀ b, r = Ok b → b = default newId (truthy (meta_boardId a))).
Proof.
  assert (Hid : set_boards (λ _, boards d) d = d) by (by destruct d).
  unfold restore_board, idle, Board_findById, Board_create, Board_save,
    db_call, tick, bind, ret, view, store, set_store.
  simpl. destruct (truthy (meta_boardId a)) as [b|]; simpl.
  - destruct (boards d !! b) as [board|] eqn:Hb; simpl.
    + eexists _, _. split; [reflexivity|]. by intros ? [= <-].
    + rewrite Hb. simpl. eexists _, _. split; [reflexivity|]. by intros ? [= <-].
  - destruct (boards d !! newId) as [board|] eqn:Hb; simpl.
    + exists (Throw DuplicateKey), (boards d). by rewrite Hid.
    + eexists _, _. split; [reflexivity|]. by intros ? [= <-].
Qed.

Lemma restore_snapshot_run boardId a d u n :
  ∃ snaps,
    restore_snapshot boardId a (idle d u n)
    = (Ok (), idle (set_boardSnapshots (λ _, snaps) d) u n).
Proof.
  assert (Hid : set_boardSnapshots (λ _, boardSnapshots d) d = d) by (by destruct d).
  unfold restore_snapshot, idle, BoardSnapshot_countDocuments, BoardSnapshot_create,
    db_call, tick, bind, ret, view, store, set_store.
  simpl. destruct (art_snapshot a) as [t|]; simpl.
  - eexists. reflexivity.
  - exists (boardSnapshots d). by rewrite Hid.
Qed.

(** A completed restore: the board it worked on, the log and the counters
    it leaves. *)
Lemma restore_run newId u a d boardId maxSeq d' :
  restore newId u a d = (Ok (boardId, maxSeq), d') →
  boardId = default newId (truthy (meta_boardId a))
  ∧ (∃ n', restore_ops_pure boardId u (boardOps d, 0%nat) 0 (art_ops a)
           = (boardOps d', n', maxSeq))
  ∧ counters d' = reconciled boardId maxSeq (counters d)
  ∧ users d' = users d
  ∧ is_Some (boards d' !! boardId).
Proof.
  unfold restore, run, restore_main.
  change {| committed := d; txn := None; budget := None; uuid_source := u;
            uuid_calls := 0 |} with (idle d u 0).
  destruct (restore_board_run newId a d u 0) as (r & bs & Hboard & Hb).
  assert (Hexists : ∀ b, r = Ok b → is_Some (bs !! b)).
  { clear Hb. revert Hboard.
    unfold restore_board, idle, Board_findById, Board_create, Board_save,
      db_call, tick, bind, ret, view, store, set_store.
    simpl. destruct (truthy (meta_boardId a)) as [b0|]; simpl.
    - destruct (boards d !! b0) as [board|] eqn:Hb0; simpl.
      + intros [= <- <-] b [= <-]. by rewrite lookup_insert_eq.
      + rewrite Hb0. simpl. intros [= <- <-] b [= <-]. by rewrite lookup_insert_eq.
    - destruct (boards d !! newId) as [board|] eqn:Hb0; simpl.
      + by intros [= <- _].
      + intros [= <- <-] b [= <-]. by rewrite lookup_insert_eq. }
  unfold bind at 1. rewrite Hboard. destruct r as [b|e]; [|done].
  specialize (Hb b eq_refl). specialize (Hexists b eq_refl).
  destruct (restore_snapshot_run b a (set_boards (λ _, bs) d) u 0) as (snaps & Hsnap).
  unfold bind at 1. rewrite Hsnap.
  unfold bind at 1. rewrite restore_ops_run. cbn zeta.
  unfold bind at 1. rewrite reconcile_counter_run. unfold ret.
  destruct (restore_ops_pure b u _ 0 (art_ops a)) as [[l n'] m] eqn:Hops.
  simpl in *. intros [= <- <- <-]. simpl.
  split_and!; [done|by exists n'|done..].
Qed.

(** With a board id in the file, the tool always completes. *)
Lemma restore_total newId u a d boardId :
  truthy (meta_boardId a) = Some boardId →
  ∃ maxSeq d', restore newId u a d = (Ok (boardId, maxSeq), d').
Proof.
  intros Hb. unfold restore, run, restore_main.
  change {| committed := d; txn := None; budget := None; uuid_source := u;
            uuid_calls := 0 |} with (idle d u 0).
  assert (∃ bs, restore_board newId a (idle d u 0)
                = (Ok boardId, idle (set_boards (λ _, bs) d) u 0)) as [bs Hboard].
  { unfold restore_board, idle, Board_findById, Board_create, Board_save,
      db_call, tick, bind, ret, view, store, set_store.
    simpl. rewrite Hb. simpl.
    destruct (boards d !! boardId) as [board|] eqn:Hb0; simpl.
    - eexists. reflexivity.
    - rewrite Hb0. simpl. eexists. reflexivity. }
  unfold bind at 1. rewrite Hboard.
  destruct (restore_snapshot_run boardId a (set_boards (λ _, bs) d) u 0)
    as (snaps & Hsnap).
  unfold bind at 1. rewrite Hsnap.
  unfold bind at 1. rewrite restore_ops_run. cbn zeta.
  unfold bind at 1. rewrite reconcile_counter_run. unfold ret.
  destruct (restore_ops_pure boardId u _ 0 (art_ops a)) as [[l n'] m] eqn:Hops.
  simpl. by eexists _, _.
Qed.

(** The op loop: the log grows by records of the target board; [maxSeq]
    only grows, bounds the sequence number of every record created and of
    every record an item of the file matches, and is attained by one of them
    unless it kept its initial value. *)
Lemma restore_ops_pure_spec boardId u items l n m :
  let r := restore_ops_pure boardId u (l, n) m items in
  ∃ new,
    r.1.1 = l ++ new
    ∧ Forall (λ x, bo_boardId x = boardId ∧ seq_or_0 (bo_seq x) ≤ r.2) new
    ∧ m ≤ r.2
    ∧ (∀ item x, item ∈ items → find_op boardId (art_opId item) r.1.1 = Some x →
         seq_or_0 (bo_seq x) ≤ r.2)
    ∧ (r.2 = m
       ∨ ∃ x, seq_or_0 (bo_seq x) = r.2
              ∧ (x ∈ new
                 ∨ ∃ item, item ∈ items
                           ∧ find_op boardId (art_opId item) r.1.1 = Some x)).
Proof.
  revert l n m. induction items as [|item items IH]; intros l n m; simpl.
  - exists []. rewrite app_nil_r. split_and!; [done|constructor|lia| |by left].
    intros item x Hin. by apply elem_of_nil in Hin.
  - set (r1 := restore_item_pure boardId u (l, n) m item).
    assert (Hitem :
      ∃ new1, r1.1.1 = l ++ new1 ∧ m ≤ r1.2
        ∧ Forall (λ x, bo_boardId x = boardId ∧ seq_or_0 (bo_seq x) ≤ r1.2) new1
        ∧ (∀ x, find_op boardId (art_opId item) l = Some x → seq_or_0 (bo_seq x) ≤ r1.2)
        ∧ (r1.2 = m
           ∨ (∃ x, seq_or_0 (bo_seq x) = r1.2
                   ∧ (x ∈ new1 ∨ find_op boardId (art_opId item) l = Some x)))).
    { subst r1. unfold restore_item_pure. simpl.
      destruct (find_op boardId (art_opId item) l) as [x|] eqn:Hfind; simpl.
      - exists []. rewrite app_nil_r. split_and!; [done|lia|constructor| |].
        + intros ? [= <-]. lia.
        + destruct (Z.max_spec m (seq_or_0 (bo_seq x))) as [[_ ->]|[_ ->]];
            [right; eauto|by left].
      - destruct (find_op boardId (Some _) l) as [x|] eqn:Hdup; simpl.
        + exists []. rewrite app_nil_r. split_and!; [done|lia|constructor|done|by left].
        + eexists. split_and!; [done|lia| |done|].
          * repeat constructor; simpl. lia.
          * destruct (Z.max_spec m (seq_or_0 (art_seq item))) as [[_ ->]|[_ ->]];
              [right|by left].
            eexists. split; [|left; left]. done. }
    destruct Hitem as (new1 & Hl1 & Hm1 & Hnew1 & Hfound1 & Hatt1).
    destruct r1 as [[l1 n1] m1]. simpl in *. subst l1.
    destruct (IH (l ++ new1) n1 m1) as (new2 & Hl2 & Hnew2 & Hm2 & Hfound2 & Hatt2).
    set (r := restore_ops_pure boardId u (l ++ new1, n1) m1 items) in *.
    exists (new1 ++ new2). split_and!.
    + by rewrite Hl2, app_assoc.
    + apply Forall_app. split; [|done].
      eapply Forall_impl; [exact Hnew1|]. simpl. intros x [? ?]. split; [done|lia].
    + lia.
    + intros item' x [->|Hin]%elem_of_cons Hx; [|by eapply Hfound2].
      rewrite Hl2, <- app_assoc, find_op_app in Hx.
      destruct (find_op boardId (art_opId item) l) as [x0|] eqn:Hfind.
      * simplify_eq. specialize (Hfound1 _ eq_refl). lia.
      * apply find_op_Some in Hx as (Hx & _ & _).
        apply elem_of_app in Hx as [Hx|Hx].
        -- rewrite Forall_forall in Hnew1. destruct (Hnew1 _ Hx). lia.
        -- rewrite Forall_forall in Hnew2. by destruct (Hnew2 _ Hx).
    + destruct Hatt2 as [Heq|(x & Hx & Hwhere)].
      * rewrite Heq. destruct Hatt1 as [->|(x & Hx & Hwhere)]; [by left|].
        right. exists x. split; [done|].
        destruct Hwhere as [Hin|Hfind].
        -- left. apply elem_of_app. by left.
        -- right. exists item. split; [left|].
           by rewrite Hl2, <- app_assoc, find_op_app, Hfind.
      * right. exists x. split; [done|].
        destruct Hwhere as [Hin|(item' & Hin & Hfind)].
        -- left. apply elem_of_app. by right.
        -- right. exists item'. split; [by right|done].
Qed.

(** Running the loop again, on the log the first run left (or any
    extension of it), finds every keyed operation and computes the same
    [maxSeq]. *)
Lemma restore_ops_pure_again boardId u u2 items l n m ext n2 :
  (∀ item, item ∈ items → is_Some (truthy (art_opId item))) →
  let r := restore_ops_pure boardId u (l, n) m items in
  restore_ops_pure boardId u2 (r.1.1 ++ ext, n2) m items = (r.1.1 ++ ext, n2, r.2).
Proof.
  revert l n m ext. induction items as [|item items IH]; intros l n m ext Hkeys; simpl.
  - done.
  - destruct (Hkeys item) as [k Hk]; [left|].
    assert (Hopid : art_opId item = Some k).
    { unfold truthy in Hk. destruct (art_opId item) as [k'|]; [|done].
      by case_decide; simplify_eq. }
    assert (Hrest : ∀ item', item' ∈ items → is_Some (truthy (art_opId item')))
      by (intros; apply Hkeys; by right).
    set (r1 := restore_item_pure boardId u (l, n) m item).
    destruct (restore_ops_pure_spec boardId u items r1.1.1 r1.1.2 r1.2)
      as (new2 & Hl2 & _).
    replace (r1.1.1, r1.1.2) with r1.1 in Hl2 by (by destruct r1.1).
    specialize (IH r1.1.1 r1.1.2 r1.2 ext Hrest).
    replace (r1.1.1, r1.1.2) with r1.1 in IH by (by destruct r1.1).
    cbn zeta in IH.
    set (r := restore_ops_pure boardId u r1.1 r1.2 items) in *.
    assert (Hagain : restore_item_pure boardId u2 (r.1.1 ++ ext, n2) m item
                     = (r.1.1 ++ ext, n2, r1.2)).
    { subst r1. unfold restore_item_pure in *. simpl in *. rewrite Hopid, Hk in *.
      simpl in *.
      destruct (find_op boardId (Some k) l) as [x|] eqn:Hfind; simpl in *.
      - by rewrite Hl2, <- !app_assoc, find_op_app, Hfind.
      - rewrite Hl2, <- !app_assoc, find_op_app, Hfind, find_op_app.
        unfold find_op at 1. rewrite filter_cons_True by done. done. }
    rewrite Hagain. simpl. apply IH.
Qed.

Lemma restore_ops_pure_NoDup boardId u items l n m :
  NoDup (op_key <$> l) →
  NoDup (op_key <$> (restore_ops_pure boardId u (l, n) m items).1.1).
Proof.
  revert l n m. induction items as [|item items IH]; intros l n m Hnd; simpl; [done|].
  set (r1 := restore_item_pure boardId u (l, n) m item).
  replace r1.1 with (r1.1.1, r1.1.2) by (by destruct r1.1).
  apply IH. subst r1. unfold restore_item_pure. simpl.
  destruct (find_op boardId (art_opId item) l); simpl; [done|].
  destruct (find_op boardId (Some _) l) eqn:Hdup; simpl; [done|].
  rewrite fmap_app. apply NoDup_app. split_and!; [done| |apply NoDup_singleton].
  intros key Hin ->%list_elem_of_singleton.
  apply list_elem_of_fmap in Hin as (x & Hkey & Hx).
  rewrite find_op_None in Hdup. unfold op_key in Hkey. simpl in Hkey.
  injection Hkey as Hb Hk. by eapply Hdup.
Qed.

(** Reconciling to the same value twice is reconciling once. *)
Lemma reconciled_idemp boardId m cs :
  reconciled boardId m (reconciled boardId m cs) = reconciled boardId m cs.
Proof.
  unfold reconciled. destruct (cs !! counter_key boardId) as [c|] eqn:Hc.
  - case_decide as Hlt.
    + rewrite lookup_insert_eq. by rewrite decide_False by lia.
    + by rewrite Hc, decide_False.
  - rewrite lookup_insert_eq. by rewrite decide_False by lia.
Qed.

(** A second run of the tool with the same file leaves the log and the
    counters as the first run left them. *)
Lemma restore_twice newId1 u1 newId2 u2 a d boardId m1 d1 :
  truthy (meta_boardId a) = Some boardId →
  (∀ item, item ∈ art_ops a → is_Some (truthy (art_opId item))) →
  restore newId1 u1 a d = (Ok (boardId, m1), d1) →
  ∃ d2, restore newId2 u2 a d1 = (Ok (boardId, m1), d2)
        ∧ boardOps d2 = boardOps d1
        ∧ counters d2 = counters d1.
Proof.
  intros Hb Hkeys H1.
  destruct (restore_total newId2 u2 a d1 boardId Hb) as (m2 & d2 & H2).
  apply restore_run in H1 as (_ & (n1 & Hops1) & Hc1 & _).
  pose proof H2 as H2'.
  apply restore_run in H2' as (_ & (n2 & Hops2) & Hc2 & _).
  pose proof (restore_ops_pure_again boardId u1 u2 (art_ops a) (boardOps d) 0 0 [] 0
                Hkeys) as Hagain.
  cbn zeta in Hagain. rewrite Hops1 in Hagain. simpl in Hagain.
  rewrite app_nil_r in Hagain. rewrite Hagain in Hops2.
  injection Hops2 as Hl _ Hm. subst m2.
  exists d2. split_and!; [done|done|].
  rewrite Hc2, Hc1. apply reconciled_idemp.
Qed.

(** After the loop, every operation of the file that carries a non-empty
    [opId] is in the log. *)
Lemma restore_ops_pure_stores boardId u items l n m item k :
  item ∈ items → truthy (art_opId item) = Some k →
  is_Some (find_op boardId (Some k) (restore_ops_pure boardId u (l, n) m items).1.1).
Proof.
  revert l n m. induction items as [|x items IH]; intros l n m Hin Hk; simpl.
  - by apply elem_of_nil in Hin.
  - apply elem_of_cons in Hin as [Heq|Hin].
    2:{ set (r1 := restore_item_pure boardId u (l, n) m x).
        replace r1.1 with (r1.1.1, r1.1.2) by (by destruct r1.1). by apply IH. }
    subst x. set (r1 := restore_item_pure boardId u (l, n) m item).
    replace r1.1 with (r1.1.1, r1.1.2) by (by destruct r1.1).
    destruct (restore_ops_pure_spec boardId u items r1.1.1 r1.1.2 r1.2)
      as (new & -> & _).
    rewrite find_op_app.
    assert (is_Some (find_op boardId (Some k) r1.1.1)) as [y ->]; [|by eexists].
    assert (Hopid : art_opId item = Some k).
    { unfold truthy in Hk. destruct (art_opId item) as [k'|]; [|done].
      by case_decide; simplify_eq. }
    subst r1. unfold restore_item_pure. simpl. rewrite Hopid.
    destruct (find_op boardId (Some k) l) as [y|] eqn:Hfind; simpl.
    + rewrite Hfind. by eexists.
    + assert (Hne : k ≠ "").
      { rewrite Hopid in Hk. simpl in Hk. by case_decide. }
      rewrite !decide_False by done. simpl. rewrite Hfind. simpl.
      rewrite find_op_app, Hfind. unfold find_op.
      rewrite filter_cons_True by done. by eexists.
Qed.

(** When every operation of the file is in the log already, the loop
    leaves the log alone. *)
Lemma restore_ops_pure_present boardId u items l n m :
  (∀ item, item ∈ items → is_Some (find_op boardId (art_opId item) l)) →
  (restore_ops_pure boardId u (l, n) m items).1 = (l, n).
Proof.
  revert m. induction items as [|x items IH]; intros m Hall; simpl; [done|].
  destruct (Hall x) as [r Hr]; [left|].
  unfold restore_item_pure at 1 2. simpl. rewrite Hr. simpl.
  apply IH. intros item Hin. apply Hall. by right.
Qed.

Lemma counter_inv_ext d d' :
  boardOps d' = boardOps d → counters d' = counters d → counter_inv d → counter_inv d'.
Proof. unfold counter_inv. by intros -> ->. Qed.

Lemma append_pure_counter_inv boardId author u st item :
  counter_inv st.1 → counter_inv (append_pure boardId author u st item).1.
Proof.
  intros [Hpos Hrec]. unfold append_pure.
  destruct (find_op _ _ _); simpl; [done|].
  assert (Hc : 0 ≤ default 0 (counters st.1 !! counter_key boardId)).
  { destruct (counters st.1 !! counter_key boardId) as [c|] eqn:Hc; simpl; [|lia].
    by eapply Hpos. }
  split; simpl.
  - intros key c. destruct (decide (key = counter_key boardId)) as [->|Hne].
    + rewrite lookup_insert_eq. intros [= <-]. lia.
    + rewrite lookup_insert_ne by done. apply Hpos.
  - intros r [Hr| ->%list_elem_of_singleton]%elem_of_app.
    + destruct (Hrec r Hr) as (c & n & Hcr & Hn & Hle).
      destruct (decide (bo_boardId r = boardId)) as [<- |Hne].
      * rewrite lookup_insert_eq. rewrite Hcr in *. simpl in *.
        eexists _, n. split_and!; [done..|lia].
      * rewrite lookup_insert_ne; [by eexists _, _|].
        intros Hk. by apply (inj counter_key) in Hk.
    + simpl. rewrite lookup_insert_eq. eexists _, _. split_and!; [done..|lia].
Qed.

Lemma commit_pure_counter_inv boardId author u ops d :
  counter_inv d → counter_inv (commit_pure boardId author u ops d).
Proof.
  intros Hinv. unfold commit_pure.
  destruct (checkpoint_pure_frame boardId
              (foldl (append_pure boardId author u) (d, 0%nat) ops).1)
    as (_ & _ & Hc & Ho).
  eapply counter_inv_ext; [exact Ho|exact Hc|].
  assert (Hfold : ∀ st, counter_inv st.1 →
            counter_inv (foldl (append_pure boardId author u) st ops).1).
  { clear. induction ops as [|item ops IH]; intros st Hst; simpl; [done|].
    apply IH. by apply append_pure_counter_inv. }
  by apply Hfold.
Qed.

Lemma steps_counter_inv es s : counter_inv (db s) → counter_inv (db (steps es s)).
Proof.
  revert s. induction es as [|e es IH]; intros s Hinv; simpl; [done|].
  apply IH. destruct (step e s) as [s' out] eqn:Hstep. simpl.
  apply step_cases in Hstep
    as [(Ho & Hc & _)|(sid & ops & snapshot & uuid & faults & sock & b & _ & _ & _ & _ & _ & ->)].
  - by eapply counter_inv_ext.
  - by apply commit_pure_counter_inv.
Qed.

(** Restoring operations that are all in the log of a database the server
    has written changes neither the log nor the counters. *)
Lemma restore_present newId u a d boardId :
  counter_inv d →
  truthy (meta_boardId a) = Some boardId →
  art_ops a ≠ [] →
  (∀ item, item ∈ art_ops a → is_Some (find_op boardId (art_opId item) (boardOps d))) →
  ∃ maxSeq d', restore newId u a d = (Ok (boardId, maxSeq), d')
               ∧ boardOps d' = boardOps d
               ∧ counters d' = counters d.
Proof.
  intros [Hpos Hrec] Hb Hne Hall.
  destruct (restore_total newId u a d boardId Hb) as (m & d' & Hrun).
  exists m, d'. split; [done|].
  apply restore_run in Hrun as (_ & (n' & Hops) & Hc & _).
  pose proof (restore_ops_pure_present boardId u (art_ops a) (boardOps d) 0 0 Hall)
    as Hsame.
  rewrite Hops in Hsame. simpl in Hsame. injection Hsame as Hl _.
  split; [done|]. rewrite Hc.
  destruct (restore_ops_pure_spec boardId u (art_ops a) (boardOps d) 0 0)
    as (new & Hnew & _ & Hm0 & _ & Hatt).
  rewrite Hops in *. simpl in *.
  assert (new = []) as -> by (rewrite Hl in Hnew; by eapply app_inv_head; rewrite app_nil_r).
  destruct (art_ops a) as [|item0 rest] eqn:Hitems; [done|].
  destruct (Hall item0) as [r0 Hr0]; [left|].
  apply find_op_Some in Hr0 as (Hin0 & Hb0 & _).
  destruct (Hrec r0 Hin0) as (c0 & n0 & Hc0 & _ & _). rewrite Hb0 in Hc0.
  assert (Hle : m ≤ c0).
  { destruct Hatt as [->|(x & Hx & [Hin|(item & _ & Hfind)])].
    - by eapply Hpos.
    - by apply elem_of_nil in Hin.
    - rewrite Hl in Hfind. apply find_op_Some in Hfind as (Hin & Hbx & _).
      destruct (Hrec x Hin) as (c & n & Hcx & Hn & Hnc).
      rewrite Hbx, Hc0 in Hcx. injection Hcx as <-.
      rewrite Hn in Hx. simpl in Hx. lia. }
  unfold reconciled. rewrite Hc0. by rewrite decide_False by lia.
Qed.

(** C1 — Idempotent append. An operation whose [(boardId, opId)] is in
    the log is not stored again, whichever path submits it.
    (1) [board:ops] twice: once a batch has been acknowledged as persisted,
    a later submission to the same board (by any socket, under any fault or
    UUID oracle) of operations whose keys (a non-empty [opId], or the nested
    [op.id]) were all carried by that batch stores no record: the operation
    log and the counters are exactly as the first submission left them.
    (2) Restore twice: for a file that names its board and whose operations
    all carry a non-empty [opId], a second run on the database the first run
    produced completes with the same result and leaves log and counters as
    the first run left them.
    (3) Restore, then [board:ops]: a submission of operations whose keys are
    [opId]s of the restored file leaves log and counters as the restore left
    them.
    (4) [board:ops], then Restore: on a server started on a fresh database,
    after an acknowledged batch, restoring a non-empty file for that board
    whose [opId]s are all keys of the batch completes and leaves log and
    counters as the batch left them. *)
Theorem idempotent_append
    (d0 : Db) (es : list Event)
    (s s1 s2 : Server) (sid sid2 : SocketId) (sock sock2 : SocketData)
    (boardId : BoardId) (ops ops2 : list OpItem) (snapshot snapshot2 : option Tldraw)
    (u1 u2 : nat → string) (f1 f2 : option nat) (out1 out2 : list Output)
    (newId1 newId2 : BoardId) (v1 v2 : nat → string) (a : Artifact) (d d1 : Db)
    (b : BoardId) (m1 : Z)
    (s3 s4 : Server) (sid3 : SocketId) (sock3 : SocketData) (ops3 : list OpItem)
    (snapshot3 : option Tldraw) (u3 : nat → string) (f3 : option nat)
    (out3 : list Output)
    (newId4 : BoardId) (v4 : nat → string) (a4 : Artifact) :
  (sockets s !! sid = Some sock →
   truthy (sock_boardId sock) = Some boardId →
   step (BoardOps sid ops snapshot u1 f1) s = (s1, out1) →
   Ack sid true None None ∈ out1 →
   sockets s1 !! sid2 = Some sock2 →
   truthy (sock_boardId sock2) = Some boardId →
   (∀ item2, item2 ∈ ops2 →
      ∃ k item, client_key item2 = Some k ∧ item ∈ ops ∧ client_key item = Some k) →
   step (BoardOps sid2 ops2 snapshot2 u2 f2) s1 = (s2, out2) →
   boardOps (db s2) = boardOps (db s1) ∧ counters (db s2) = counters (db s1))
  ∧ (truthy (meta_boardId a) = Some b →
     (∀ item, item ∈ art_ops a → is_Some (truthy (art_opId item))) →
     restore newId1 v1 a d = (Ok (b, m1), d1) →
     ∃ d2, restore newId2 v2 a d1 = (Ok (b, m1), d2)
           ∧ boardOps d2 = boardOps d1
           ∧ counters d2 = counters d1)
  ∧ (restore newId1 v1 a d = (Ok (b, m1), d1) →
     db s3 = d1 →
     sockets s3 !! sid3 = Some sock3 →
     truthy (sock_boardId sock3) = Some b →
     (∀ item3, item3 ∈ ops3 →
        ∃ k item, client_key item3 = Some k ∧ item ∈ art_ops a
                  ∧ truthy (art_opId item) = Some k) →
     step (BoardOps sid3 ops3 snapshot3 u3 f3) s3 = (s4, out3) →
     boardOps (db s4) = boardOps d1 ∧ counters (db s4) = counters d1)
  ∧ (boardOps d0 = [] →
     counters d0 = ∅ →
     s = steps es (boot d0) →
     sockets s !! sid = Some sock →
     truthy (sock_boardId sock) = Some boardId →
     step (BoardOps sid ops snapshot u1 f1) s = (s1, out1) →
     Ack sid true None None ∈ out1 →
     truthy (meta_boardId a4) = Some boardId →
     art_ops a4 ≠ [] →
     (∀ item4, item4 ∈ art_ops a4 →
        ∃ k item, truthy (art_opId item4) = Some k ∧ item ∈ ops
                  ∧ client_key item = Some k) →
     ∃ maxSeq d4, restore newId4 v4 a4 (db s1) = (Ok (boardId, maxSeq), d4)
                  ∧ boardOps d4 = boardOps (db s1)
                  ∧ counters d4 = counters (db s1)).
Proof.
  assert (Hopid : ∀ item k, truthy (art_opId item) = Some k → art_opId item = Some k).
  { intros item k. unfold truthy. destruct (art_opId item) as [k'|]; [|done].
    by case_decide; intros; simplify_eq. }
  split_and!.
  - intros Hsock Hb Hstep1 Hack Hsock2 Hb2 Hkeys Hstep2.
    destruct (board_ops_acked _ _ _ _ _ _ _ _ _ _ Hsock Hb Hstep1 Hack) as [_ Hd1].
    destruct (can_write (sock_role sock2)) eqn:Hw2.
    + destruct (board_ops_outcome _ _ _ _ _ _ _ _ _ _ Hsock2 Hb2 Hw2 Hstep2)
        as (_ & _ & [[-> _]|[-> _]]); [done|].
      apply commit_pure_present. intros item2 Hin2.
      destruct (Hkeys item2 Hin2) as (k & item & Hk2 & Hin & Hk).
      exists k. split; [done|]. rewrite Hd1. by eapply commit_pure_stores.
    + simpl in Hstep2. unfold on_board_ops in Hstep2.
      rewrite Hsock2, Hb2, Hw2 in Hstep2. by simplify_eq.
  - intros Hb Hkeys H1. by eapply restore_twice.
  - intros H1 Hdb Hsock3 Hb3 Hkeys Hstep.
    apply restore_run in H1 as (_ & (n1 & Hops1) & _).
    destruct (can_write (sock_role sock3)) eqn:Hw3.
    + destruct (board_ops_outcome _ _ _ _ _ _ _ _ _ _ Hsock3 Hb3 Hw3 Hstep)
        as (_ & _ & [[-> _]|[-> _]]); rewrite Hdb; [done|].
      apply commit_pure_present. intros item3 Hin3.
      destruct (Hkeys item3 Hin3) as (k & item & Hk3 & Hin & Hk).
      exists k. split; [done|].
      pose proof (restore_ops_pure_stores b v1 (art_ops a) (boardOps d) 0 0 item k
                    Hin Hk) as Hst.
      by rewrite Hops1 in Hst.
    + simpl in Hstep. unfold on_board_ops in Hstep.
      rewrite Hsock3, Hb3, Hw3 in Hstep. by simplify_eq.
  - intros Hlog Hcs -> Hsock Hb Hstep1 Hack Hb4 Hne Hkeys.
    destruct (board_ops_acked _ _ _ _ _ _ _ _ _ _ Hsock Hb Hstep1 Hack) as [_ Hd1].
    apply restore_present; [|done..|].
    + rewrite Hd1. apply commit_pure_counter_inv, steps_counter_inv.
      split; simpl.
      * intros key c. by rewrite Hcs, lookup_empty.
      * intros r. rewrite Hlog. intros Hin. by apply elem_of_nil in Hin.
    + intros item4 Hin4. destruct (Hkeys item4 Hin4) as (k & item & Hk4 & Hin & Hk).
      rewrite (Hopid _ _ Hk4), Hd1. by eapply commit_pure_stores.
Qed.

(** C7 — Restore idempotence. For a file that names its board and whose
    operations all carry a non-empty [opId] (as every exported record does),
    two runs of the tool on an initially empty database both complete; after
    the second run the operation records are exactly those after the first,
    no [(boardId, opId)] pair occurs twice, and the counters are those after
    the first run, the board's counter holding the [maxSeq] both runs
    computed. *)
Theorem restore_idempotence (newId1 newId2 : BoardId) (u1 u2 : nat → string)
    (a : Artifact) (boardId : BoardId) :
  truthy (meta_boardId a) = Some boardId →
  (∀ item, item ∈ art_ops a → is_Some (truthy (art_opId item))) →
  ∃ maxSeq d1 d2,
    restore newId1 u1 a empty_db = (Ok (boardId, maxSeq), d1)
    ∧ restore newId2 u2 a d1 = (Ok (boardId, maxSeq), d2)
    ∧ boardOps d2 = boardOps d1
    ∧ NoDup (op_key <$> boardOps d2)
    ∧ counters d2 = counters d1
    ∧ counters d2 = {[counter_key boardId := maxSeq]}.
Proof.
  intros Hb Hkeys.
  destruct (restore_total newId1 u1 a empty_db boardId Hb) as (m & d1 & H1).
  destruct (restore_twice newId1 u1 newId2 u2 a empty_db boardId m d1 Hb Hkeys H1)
    as (d2 & H2 & Hops & Hcs).
  exists m, d1, d2. split_and!; [done..| |done|].
  - rewrite Hops. apply restore_run in H1 as (_ & (n1 & Hops1) & _).
    pose proof (restore_ops_pure_NoDup boardId u1 (art_ops a) [] 0 0) as Hnd.
    simpl in Hops1. rewrite Hops1 in Hnd. apply Hnd. constructor.
  - rewrite Hcs. apply restore_run in H1 as (_ & _ & -> & _).
    unfold reconciled. simpl. by rewrite lookup_empty.
Qed.


(** ** Operations without a client key *)

Lemma client_key_absent item :
  item_opId item = None → item_op item ≫= payload_id = None → client_key item = None.
Proof.
  unfold client_key. intros -> Hop. simpl.
  destruct (item_op item) as [p|]; [|done]. simpl in Hop. by rewrite Hop.
Qed.

Lemma foldl_append_pure_unkeyed boardId author u ops d n0 :
  (∀ item, item ∈ ops → client_key item = None) →
  fresh_draws boardId u n0 (length ops) (boardOps d) →
  let st' := foldl (append_pure boardId author u) (d, n0) ops in
  boardOps st'.1
  = boardOps d
    ++ imap (λ i item, new_op boardId author item (u (n0 + i)%nat)
                         (counter_of boardId d + 1 + Z.of_nat i)) ops
  ∧ st'.2 = (n0 + length ops)%nat
  ∧ counter_of boardId st'.1 = counter_of boardId d + Z.of_nat (length ops).
Proof.
  revert d n0. induction ops as [|item ops IH]; intros d n0 Hkeys [Hnd Hfresh]; simpl.
  - rewrite app_nil_r. split_and!; [done|lia|lia].
  - assert (Hk : client_key item = None) by (apply Hkeys; left).
    assert (Hfind : find_op boardId (Some (u n0)) (boardOps d) = None)
      by (apply Hfresh; simpl; lia).
    assert (Hstep : append_pure boardId author u (d, n0) item
                    = (set_boardOps
                         (λ l, l ++ [new_op boardId author item (u n0)
                                       (counter_of boardId d + 1)])
                         (set_counters
                            (<[counter_key boardId := counter_of boardId d + 1]>) d),
                       S n0)).
    { unfold append_pure. rewrite Hk. simpl. by rewrite Hfind. }
    rewrite Hstep. clear Hstep.
    set (d1 := set_boardOps _ _).
    assert (Hc1 : counter_of boardId d1 = counter_of boardId d + 1).
    { unfold counter_of, d1. simpl. by rewrite lookup_insert_eq. }
    simpl in Hnd. apply NoDup_cons in Hnd as [Hhd Hnd].
    destruct (IH d1 (S n0)) as (Hops & Hn & Hc).
    { intros item' Hin. apply Hkeys. by right. }
    { split; [done|]. intros i Hi. unfold d1. simpl.
      rewrite find_op_app, Hfresh by (simpl; lia).
      apply find_op_None. intros r ->%list_elem_of_singleton _. simpl.
      intros Heq. apply Hhd. rewrite Heq. apply list_elem_of_fmap.
      exists i. split; [done|]. apply elem_of_seq. lia. }
    split_and!.
    + rewrite Hops. unfold d1 at 1. simpl. rewrite <- app_assoc. simpl.
      f_equal. f_equal; [by rewrite Nat.add_0_r, Z.add_0_r|].
      apply imap_ext. intros i x _. simpl. rewrite Hc1.
      replace (n0 + S i)%nat with (S (n0 + i)) by lia. f_equal. lia.
    + lia.
    + rewrite Hc, Hc1. lia.
Qed.

(** A committed batch of operations without client key stores one record
    per operation, keyed by the UUID drawn for it. *)
Lemma commit_pure_unkeyed boardId author u ops d :
  (∀ item, item ∈ ops → client_key item = None) →
  fresh_draws boardId u 0 (length ops) (boardOps d) →
  boardOps (commit_pure boardId author u ops d)
  = boardOps d
    ++ imap (λ i item, new_op boardId author item (u i)
                         (counter_of boardId d + 1 + Z.of_nat i)) ops
  ∧ counter_of boardId (commit_pure boardId author u ops d)
    = counter_of boardId d + Z.of_nat (length ops).
Proof.
  intros Hkeys Hfresh. unfold commit_pure.
  destruct (checkpoint_pure_frame boardId
              (foldl (append_pure boardId author u) (d, 0%nat) ops).1)
    as (_ & _ & Hc & ->).
  destruct (foldl_append_pure_unkeyed boardId author u ops d 0 Hkeys Hfresh)
    as (-> & _ & Hcnt).
  split; [done|]. unfold counter_of in *. by rewrite Hc.
Qed.

(** C10 — Operations without a client key are never deduplicated. When
    every item of a batch carries no usable [opId] and no usable nested
    [op.id] (in particular when both fields are missing), the server keys
    each item with the UUID it draws for it, and, the drawn UUIDs being
    fresh (pairwise distinct and not yet in the board's log), an
    acknowledged submission stores one new record per item, numbered
    consecutively from the counter; submitting the identical batch again
    stores one more record per item, under the newly drawn UUIDs. *)
Theorem unkeyed_ops_not_deduplicated
    (s s1 s2 : Server) (sid : SocketId) (sock : SocketData) (boardId : BoardId)
    (ops : list OpItem) (snapshot : option Tldraw) (u1 u2 : nat → string)
    (f1 f2 : option nat) (out1 out2 : list Output) :
  sockets s !! sid = Some sock →
  truthy (sock_boardId sock) = Some boardId →
  (∀ item, item ∈ ops → client_key item = None) →
  step (BoardOps sid ops snapshot u1 f1) s = (s1, out1) →
  Ack sid true None None ∈ out1 →
  fresh_draws boardId u1 0 (length ops) (boardOps (db s)) →
  step (BoardOps sid ops snapshot u2 f2) s1 = (s2, out2) →
  Ack sid true None None ∈ out2 →
  fresh_draws boardId u2 0 (length ops) (boardOps (db s1)) →
  let author := truthy (sock_userId sock) in
  let c := counter_of boardId (db s) in
  boardOps (db s1)
  = boardOps (db s)
    ++ imap (λ i item, new_op boardId author item (u1 i) (c + 1 + Z.of_nat i)) ops
  ∧ boardOps (db s2)
    = boardOps (db s1)
      ++ imap (λ i item, new_op boardId author item (u2 i)
                           (c + Z.of_nat (length ops) + 1 + Z.of_nat i)) ops
  ∧ length (boardOps (db s2))
    = (length (boardOps (db s)) + 2 * length ops)%nat.
Proof.
  intros Hsock Hb Hkeys Hstep1 Hack1 Hfresh1 Hstep2 Hack2 Hfresh2 author c.
  subst author c.
  destruct (board_ops_acked _ _ _ _ _ _ _ _ _ _ Hsock Hb Hstep1 Hack1) as [Hs1 Hd1].
  rewrite <- Hs1 in Hsock.
  destruct (board_ops_acked _ _ _ _ _ _ _ _ _ _ Hsock Hb Hstep2 Hack2) as [_ Hd2].
  rewrite Hd1 in Hfresh2.
  destruct (commit_pure_unkeyed boardId (truthy (sock_userId sock)) u1 ops (db s)
              Hkeys Hfresh1) as [Hops1 Hc1].
  destruct (commit_pure_unkeyed boardId (truthy (sock_userId sock)) u2 ops _
              Hkeys Hfresh2) as [Hops2 _].
  rewrite Hd2, Hd1, Hops2, Hc1, Hops1. split_and!; [done..|].
  rewrite !length_app, !length_imap. lia.
Qed.

(** ** Checkpoints *)

Lemma commit_pure_log boardId author u ops d :
  ∃ new, boardOps (commit_pure boardId author u ops d) = boardOps d ++ new
         ∧ Forall (λ r, bo_boardId r = boardId) new.
Proof.
  unfold commit_pure.
  destruct (checkpoint_pure_frame boardId
              (foldl (append_pure boardId author u) (d, 0%nat) ops).1)
    as (_ & _ & _ & ->).
  by destruct (foldl_append_pure_log boardId author u ops (d, 0%nat)) as [? _].
Qed.

Lemma commit_pure_count_other boardId author u ops d b :
  b ≠ boardId → count_ops b (commit_pure boardId author u ops d) = count_ops b d.
Proof.
  intros Hne. unfold count_ops, ops_of.
  destruct (commit_pure_log boardId author u ops d) as (new & -> & Hnew).
  rewrite filter_app. replace (filter _ new) with (@nil BoardOp).
  { by rewrite app_nil_r. }
  symmetry. induction Hnew as [|r new Hr Hnew IH]; [done|].
  rewrite filter_cons_False by congruence. done.
Qed.

Lemma commit_pure_count_mono boardId author u ops d b :
  count_ops b d ≤ count_ops b (commit_pure boardId author u ops d).
Proof.
  unfold count_ops, ops_of.
  destruct (commit_pure_log boardId author u ops d) as (new & -> & _).
  rewrite filter_app, length_app. lia.
Qed.

(** The checkpoint trigger: a committed batch that leaves the board with a
    number of records divisible by 200 has appended a snapshot whose version
    is the number of the board's snapshots plus one; any other committed
    batch has appended none. *)
Lemma commit_pure_checkpoint boardId author u ops d :
  let d' := commit_pure boardId author u ops d in
  (count_ops boardId d' `mod` 200 = 0 → is_Some (boards d !! boardId) →
   ∃ snap, boardSnapshots d' = boardSnapshots d ++ [snap]
           ∧ snap_boardId snap = boardId
           ∧ snap_version snap = count_snapshots boardId d + 1)
  ∧ (count_ops boardId d' `mod` 200 ≠ 0 → boardSnapshots d' = boardSnapshots d)
  ∧ (∃ more, boardSnapshots d' = boardSnapshots d ++ more).
Proof.
  intros d'. subst d'. unfold commit_pure, count_ops.
  set (d0 := (foldl (append_pure boardId author u) (d, 0%nat) ops).1).
  destruct (foldl_append_pure_frame boardId author u ops (d, 0%nat))
    as (_ & Hboards & Hsnaps).
  fold d0 in Hboards, Hsnaps. simpl in Hboards, Hsnaps.
  destruct (checkpoint_pure_frame boardId d0) as (_ & _ & _ & ->).
  unfold checkpoint_pure, count_snapshots. rewrite Hboards.
  split_and!.
  - intros Hmod [b Hb]. rewrite decide_True by done. rewrite Hb. simpl.
    rewrite Hsnaps. eexists. split_and!; done.
  - intros Hmod. by rewrite decide_False.
  - case_decide; [|exists []; by rewrite app_nil_r].
    destruct (boards d !! boardId); simpl; rewrite Hsnaps;
      [by eexists|exists []; by rewrite app_nil_r].
Qed.

Lemma step_snapshots_grow e s :
  ∃ more, boardSnapshots (db (step e s).1) = boardSnapshots (db s) ++ more.
Proof.
  destruct (step e s) as [s' out] eqn:Hstep. simpl.
  apply step_cases in Hstep
    as [(_ & _ & Hsn & _)|(sid & ops & snapshot & uuid & faults & sock & b & _ & _ & _ & _ & _ & ->)];
    [done|].
  by destruct (commit_pure_checkpoint b (truthy (sock_userId sock)) uuid ops (db s))
    as (_ & _ & ?).
Qed.

Lemma steps_app es1 es2 s : steps (es1 ++ es2) s = steps es2 (steps es1 s).
Proof. unfold steps. by rewrite foldl_app. Qed.

Lemma steps_snapshots_grow es s snap :
  snap ∈ boardSnapshots (db s) → snap ∈ boardSnapshots (db (steps es s)).
Proof.
  revert s. induction es as [|e es IH]; intros s Hin; simpl; [done|].
  apply IH. destruct (step_snapshots_grow e s) as [more ->].
  apply elem_of_app. by left.
Qed.

Lemma step_count_mono e s b :
  count_ops b (db s) ≤ count_ops b (db (step e s).1).
Proof.
  destruct (step e s) as [s' out] eqn:Hstep. simpl.
  apply step_cases in Hstep
    as [(Hops & _)|(sid & ops & snapshot & uuid & faults & sock & b' & _ & _ & _ & _ & _ & ->)].
  - unfold count_ops. rewrite Hops. lia.
  - apply commit_pure_count_mono.
Qed.

Lemma step_sock_inv e s : sock_inv s → sock_inv (step e s).1.
Proof.
  intros Hinv.
  assert (Hkeep : sockets (step e s).1 = sockets s → sock_inv (step e s).1).
  { destruct (step e s) as [s' out] eqn:Hstep. simpl.
    intros Hsocks sid sock b Hsock Hb. rewrite Hsocks in Hsock.
    specialize (Hinv _ _ _ Hsock Hb).
    apply step_cases in Hstep
      as [(_ & _ & _ & Hmono & _)
         |(? & ops & ? & uuid & ? & sock' & b' & _ & _ & _ & _ & _ & ->)].
    - by apply Hmono.
    - by destruct (commit_pure_frame b' (truthy (sock_userId sock')) uuid ops (db s))
        as [_ ->]. }
  destruct e;
    try (apply Hkeep; simpl; unfold on_board_ops, on_flush_timer, http;
         repeat case_match; simplify_eq; done); clear Hkeep; simpl.
  - intros sid' sock b Hsock Hb. simpl in *.
    destruct (decide (sid = sid')) as [->|Hne].
    + rewrite lookup_insert_eq in Hsock. by simplify_eq.
    + rewrite lookup_insert_ne in Hsock by done. by eapply Hinv.
  - intros sid' sock b Hsock Hb. simpl in *.
    apply lookup_delete_Some in Hsock as [_ Hsock]. by eapply Hinv.
  - unfold on_room_join.
    destruct (sockets s !! sid) as [sock0|] eqn:Hs0; [|done].
    destruct (boards (db s) !! boardId) as [b0|] eqn:Hb0; [|done].
    repeat case_match; simplify_eq; try done;
      intros sid' sock b Hsock Hb; simpl in *;
      (destruct (decide (sid = sid')) as [->|Hne];
        [rewrite lookup_insert_eq in Hsock; simplify_eq; simpl in Hb;
         unfold truthy in Hb; case_decide; simplify_eq; by rewrite Hb0
        |rewrite lookup_insert_ne in Hsock by done; by eapply Hinv]).
Qed.

Lemma steps_sock_inv es s : sock_inv s → sock_inv (steps es s).
Proof.
  revert s. induction es as [|e es IH]; intros s Hinv; simpl; [done|].
  apply IH. by apply step_sock_inv.
Qed.

(** The event that brings a board's log to a multiple of 200 records
    appends the checkpoint. *)
Lemma step_checkpoint e s b k :
  sock_inv s →
  count_ops b (db s) ≠ 200 * k →
  count_ops b (db (step e s).1) = 200 * k →
  ∃ snap,
    boardSnapshots (db (step e s).1) = boardSnapshots (db s) ++ [snap]
    ∧ snap_boardId snap = b
    ∧ snap_version snap = count_snapshots b (db s) + 1.
Proof.
  intros Hinv Hbefore Hafter.
  destruct (step e s) as [s' out] eqn:Hstep. simpl in *.
  apply step_cases in Hstep
    as [(Hops & _)|(sid & ops & snapshot & uuid & faults & sock & b' & _ & Hsock & Hb & _ & _ & Hd)].
  - unfold count_ops in *. rewrite Hops in Hafter. done.
  - rewrite Hd in *. destruct (decide (b = b')) as [->|Hne].
    + destruct (commit_pure_checkpoint b' (truthy (sock_userId sock)) uuid ops (db s))
        as (Hcp & _ & _).
      apply Hcp; [|by eapply Hinv].
      rewrite Hafter. by rewrite Z.mul_comm, Z_mod_mult.
    + by rewrite commit_pure_count_other in Hafter.
Qed.

(** C4 — Checkpoint cadence. Whatever sequence of events the server
    processes (however the operations are grouped into batches, whatever
    else happens in between), if a board's log, shorter than [200 * k]
    records when the server started, holds exactly [200 * k] records at the
    end (exactly 200 for [k = 1]), then the event that brought the count to
    [200 * k] appended one snapshot record for that board whose version is
    the number of the board's snapshots before it plus one, and that
    snapshot is still there at the end. *)
Theorem checkpoint_cadence (d : Db) (es : list Event) (boardId : BoardId) (k : Z) :
  count_ops boardId d < 200 * k →
  count_ops boardId (db (steps es (boot d))) = 200 * k →
  ∃ es1 e es2 snap,
    es = es1 ++ e :: es2
    ∧ count_ops boardId (db (steps es1 (boot d))) < 200 * k
    ∧ count_ops boardId (db (step e (steps es1 (boot d))).1) = 200 * k
    ∧ boardSnapshots (db (step e (steps es1 (boot d))).1)
      = boardSnapshots (db (steps es1 (boot d))) ++ [snap]
    ∧ snap_boardId snap = boardId
    ∧ snap_version snap = count_snapshots boardId (db (steps es1 (boot d))) + 1
    ∧ snap ∈ boardSnapshots (db (steps es (boot d))).
Proof.
  intros Hstart. induction es as [|e es IH] using rev_ind; intros Hend.
  - simpl in Hend. lia.
  - rewrite steps_app in Hend. simpl in Hend.
    destruct (decide (count_ops boardId (db (steps es (boot d))) = 200 * k))
      as [Heq|Hne].
    + destruct (IH Heq) as (es1 & e0 & es2 & snap & -> & H1 & H2 & H3 & H4 & H5 & H6).
      exists es1, e0, (es2 ++ [e]), snap.
      split_and!; [by rewrite <- app_assoc|done..|].
      rewrite steps_app. simpl.
      destruct (step_snapshots_grow e (steps (es1 ++ e0 :: es2) (boot d))) as [more ->].
      apply elem_of_app. by left.
    + assert (Hinv : sock_inv (steps es (boot d))).
      { apply steps_sock_inv. intros sid sock b Hsock. simpl in Hsock.
        by rewrite lookup_empty in Hsock. }
      destruct (step_checkpoint e _ boardId k Hinv Hne Hend) as (snap & Hs & Hb & Hv).
      exists es, e, [], snap. split_and!; [done| |done..|].
      * pose proof (step_count_mono e (steps es (boot d)) boardId). lia.
      * rewrite steps_app. simpl. rewrite Hs. apply elem_of_app. right. left.
Qed.

(** ** Membership *)

Lemma owners_cons m members :
  owners (m :: members)
  = if decide (role m = owner) then m :: owners members else owners members.
Proof. unfold owners. by rewrite filter_cons. Qed.

Lemma set_role_owners target r members :
  (length (owners members) ≤ S (length (owners (set_role target r members))))%nat.
Proof.
  induction members as [|m members IH]; simpl; [lia|].
  case_decide; rewrite !owners_cons; simpl; repeat case_decide; simpl; lia.
Qed.

Lemma set_role_owners_keep target r members m :
  find_member target members = Some m →
  role m ≠ owner ∨ r = owner →
  (length (owners members) ≤ length (owners (set_role target r members)))%nat.
Proof.
  unfold find_member. induction members as [|x members IH]; simpl; [done|].
  rewrite filter_cons. case_decide as Hx; simpl.
  - intros [= ->] Hor. rewrite !owners_cons. simpl.
    repeat case_decide; simpl; try lia. destruct Hor; congruence.
  - intros Hfind Hor. rewrite !owners_cons. specialize (IH Hfind Hor).
    case_decide; simpl; lia.
Qed.

Lemma remove_member_owners target members :
  (length (owners members) ≤ S (length (owners (remove_member target members))))%nat.
Proof.
  induction members as [|m members IH]; simpl; [lia|].
  case_decide; rewrite !owners_cons; simpl; repeat case_decide; simpl; lia.
Qed.

Lemma remove_member_owners_keep target members m :
  find_member target members = Some m →
  role m ≠ owner →
  owners (remove_member target members) = owners members.
Proof.
  unfold find_member. induction members as [|x members IH]; simpl; [done|].
  rewrite filter_cons. case_decide as Hx; simpl.
  - intros [= ->] Hr. rewrite owners_cons. by rewrite decide_False.
  - intros Hfind Hr. rewrite !owners_cons. by rewrite (IH Hfind Hr).
Qed.

Lemma has_owner_length members : has_owner members ↔ (0 < length (owners members))%nat.
Proof. unfold has_owner. destruct (owners members); simpl; split; (done || lia). Qed.

(** The guarded paths: a role change through PATCH and a removal through
    DELETE keep an owner on every board, and a request they reject leaves
    the database as it was. *)
Lemma patch_member_keeps_owner caller boardId target newRole d d' r b board' :
  patch_member caller boardId target newRole d = (d', r) →
  (∀ board, boards d !! b = Some board → has_owner (board_members board)) →
  boards d' !! b = Some board' →
  has_owner (board_members board') ∧ (r ≠ JsonOk → d' = d).
Proof.
  unfold patch_member. intros Hrun Hinv Hb'.
  assert (Hrej : ∀ e, (d, e) = (d', r) →
            has_owner (board_members board') ∧ (r ≠ JsonOk → d' = d)).
  { intros e [= <- <-]. split; [by eapply Hinv|done]. }
  destruct (truthy target) as [t|]; [|by eapply Hrej].
  destruct newRole as [nr|]; [|by eapply Hrej].
  destruct (boards d !! boardId) as [board|] eqn:Hboard; [|by eapply Hrej].
  destruct (find_member caller _) as [me|]; [|by eapply Hrej].
  destruct (decide (role me = owner)); [|by eapply Hrej].
  destruct (find_member t _) as [m|] eqn:Htarget; [|by eapply Hrej].
  destruct (decide _) as [Hg|Hguard]; [by eapply Hrej|].
  clear Hrej. simplify_eq. split; [|done]. simpl in Hb'.
  destruct (decide (boardId = b)) as [->|Hne];
    [|rewrite lookup_insert_ne in Hb' by done; by eapply Hinv].
  rewrite lookup_insert_eq in Hb'. simplify_eq. simpl.
  specialize (Hinv _ Hboard).
  apply has_owner_length. apply has_owner_length in Hinv.
  destruct (decide (role m = owner)) as [Hm|Hm].
  - destruct (decide (nr = owner)) as [Hn|Hn].
    + pose proof (set_role_owners_keep t nr _ m Htarget (or_intror Hn)). lia.
    + pose proof (set_role_owners t nr (board_members board)).
      assert (1 < length (owners (board_members board)))%nat; [|lia].
      apply not_and_l in Hguard as [?|Hguard]; [done|].
      apply not_and_l in Hguard as [?|Hguard]; [done|]. lia.
  - pose proof (set_role_owners_keep t nr _ m Htarget (or_introl Hm)). lia.
Qed.

Lemma delete_member_keeps_owner caller boardId target d d' r b board' :
  delete_member caller boardId target d = (d', r) →
  (∀ board, boards d !! b = Some board → has_owner (board_members board)) →
  boards d' !! b = Some board' →
  has_owner (board_members board') ∧ (r ≠ JsonOk → d' = d).
Proof.
  unfold delete_member. intros Hrun Hinv Hb'.
  assert (Hrej : ∀ e, (d, e) = (d', r) →
            has_owner (board_members board') ∧ (r ≠ JsonOk → d' = d)).
  { intros e [= <- <-]. split; [by eapply Hinv|done]. }
  destruct (boards d !! boardId) as [board|] eqn:Hboard; [|by eapply Hrej].
  destruct (find_member caller _) as [me|]; [|by eapply Hrej].
  destruct (decide (role me = owner)); [|by eapply Hrej].
  destruct (find_member target _) as [m|] eqn:Htarget; [|by eapply Hrej].
  destruct (decide _) as [Hg|Hguard]; [by eapply Hrej|].
  clear Hrej. simplify_eq. split; [|done]. simpl in Hb'.
  destruct (decide (boardId = b)) as [->|Hne];
    [|rewrite lookup_insert_ne in Hb' by done; by eapply Hinv].
  rewrite lookup_insert_eq in Hb'. simplify_eq. simpl.
  specialize (Hinv _ Hboard).
  apply has_owner_length. apply has_owner_length in Hinv.
  destruct (decide (role m = owner)) as [Hm|Hm].
  - pose proof (remove_member_owners target (board_members board)).
    assert (1 < length (owners (board_members board)))%nat; [|lia].
    apply not_and_l in Hguard as [?|Hguard]; [done|]. lia.
  - by rewrite (remove_member_owners_keep _ _ _ Htarget Hm).
Qed.

(** ** Export *)

(** The file Export writes names its board and gives every operation the
    [opId] of its record. *)
Lemma export_payload_keys boardId board d :
  boardId ≠ "" →
  (∀ r, r ∈ boardOps d → bo_opId r ≠ "") →
  truthy (meta_boardId (export_payload boardId board d)) = Some boardId
  ∧ ∀ item, item ∈ art_ops (export_payload boardId board d) →
            is_Some (truthy (art_opId item)).
Proof.
  intros Hb Hids. split.
  - simpl. by rewrite decide_False.
  - simpl. intros item Hin. apply list_elem_of_fmap in Hin as (r & -> & Hr).
    rewrite stable_sort_perm in Hr. apply list_elem_of_filter in Hr as [_ Hr].
    simpl. rewrite decide_False by (by apply Hids). by eexists.
Qed.

(** ** What the server keeps *)

(** With a storage that does not fail the batch is committed. *)
Lemma persist_ops_calm boardId author ops u d :
  run (persist_ops boardId author ops) None u d
  = (Ok (), commit_pure boardId author u ops d).
Proof.
  unfold run, persist_ops, startSession.
  unfold bind at 1. simpl.
  unfold withTransaction, ops_transaction. simpl.
  change (set_store d (Some d) _) with (in_txn d d u 0).
  erewrite bind_Ok; [|apply for_each_append_run].
  rewrite checkpoint_run. simpl. done.
Qed.

Lemma board_ops_cases s sid ops snapshot uuid faults :
  db (step (BoardOps sid ops snapshot uuid faults) s).1 = db s
  ∨ ∃ sock boardId,
      sockets s !! sid = Some sock
      ∧ truthy (sock_boardId sock) = Some boardId
      ∧ can_write (sock_role sock) = true
      ∧ db (step (BoardOps sid ops snapshot uuid faults) s).1
        = commit_pure boardId (truthy (sock_userId sock)) uuid ops (db s).
Proof.
  simpl. unfold on_board_ops.
  destruct (sockets s !! sid) as [sock|] eqn:Hsock; [|by left].
  destruct (truthy (sock_boardId sock)) as [b|] eqn:Hb; [|by left].
  destruct (can_write (sock_role sock)) eqn:Hw; [|by left].
  destruct (run _ faults uuid (db s)) as [[[]|e] d] eqn:Hrun; simpl.
  - right. exists sock, b. split_and!; [done..|]. by eapply persist_ops_commit.
  - left. unfold run in Hrun. destruct (persist_ops _ _ _ _) as [r w'] eqn:Hp.
    simplify_eq. by apply persist_ops_abort in Hp.
Qed.

Ltac http_cases :=
  unfold http, post_board, get_board, post_member, patch_member, delete_member,
    post_snapshot, get_export;
  repeat case_match; simplify_eq; simpl.

Lemma step_users e s : users (db (step e s).1) = users (db s).
Proof.
  destruct e; simpl; try done; try (by http_cases).
  - unfold on_room_join. by repeat case_match.
  - destruct (board_ops_cases s sid ops snapshot uuid faults)
      as [H|(sock & b & _ & _ & _ & H)]; simpl in H; rewrite H; [done|].
    by destruct (commit_pure_frame b (truthy (sock_userId sock)) uuid ops (db s)).
  - unfold on_flush_timer. destruct (buffers s !! boardId) as [payload|]; [|done].
    pose proof (flush_db boardId payload faults (λ _, "") (db s)) as Hf.
    destruct (run _ _ _ _) as [r d]. simpl in *. by destruct Hf.
Qed.

Lemma append_pure_counter_mono boardId author u st item b :
  counter_of b st.1 ≤ counter_of b (append_pure boardId author u st item).1.
Proof.
  unfold append_pure. destruct (find_op _ _ _); simpl; [done|].
  unfold counter_of. simpl. destruct (decide (b = boardId)) as [->|Hne].
  - rewrite lookup_insert_eq. simpl. lia.
  - rewrite lookup_insert_ne; [done|]. intros Hk. by apply (inj counter_key) in Hk.
Qed.

Lemma commit_pure_counter_mono boardId author u ops d b :
  counter_of b d ≤ counter_of b (commit_pure boardId author u ops d).
Proof.
  unfold commit_pure, counter_of.
  destruct (checkpoint_pure_frame boardId
              (foldl (append_pure boardId author u) (d, 0%nat) ops).1)
    as (_ & _ & -> & _).
  assert (Hfold : ∀ st, counter_of b st.1
            ≤ counter_of b (foldl (append_pure boardId author u) st ops).1).
  { clear. induction ops as [|item ops IH]; intros st; simpl; [done|].
    etrans; [|apply IH]. apply append_pure_counter_mono. }
  apply (Hfold (d, 0%nat)).
Qed.

Lemma step_keeps e s :
  (∃ new, boardOps (db (step e s).1) = boardOps (db s) ++ new)
  ∧ (∀ b, counter_of b (db s) ≤ counter_of b (db (step e s).1))
  ∧ (∀ b, is_Some (boards (db s) !! b) → is_Some (boards (db (step e s).1) !! b)).
Proof.
  destruct (step e s) as [s' out] eqn:Hstep. simpl.
  apply step_cases in Hstep
    as [(Ho & Hc & _ & Hb & _)
       |(? & ops & ? & uuid & ? & sock & b' & _ & _ & _ & _ & _ & ->)].
  - split_and!; [|intros b; unfold counter_of; by rewrite Hc|done].
    exists []. by rewrite app_nil_r.
  - split_and!.
    + by destruct (commit_pure_log b' (truthy (sock_userId sock)) uuid ops (db s))
        as (new & ? & _); exists new.
    + intros b. apply commit_pure_counter_mono.
    + intros b.
      by destruct (commit_pure_frame b' (truthy (sock_userId sock)) uuid ops (db s))
        as [_ ->].
Qed.

(** Nothing the server has stored goes away: whatever events it processes,
    the operation log and the snapshot list only grow at their end, no
    counter decreases, no board disappears, and the users are not touched. *)
Theorem server_never_deletes (es : list Event) (s : Server) :
  (∃ new, boardOps (db (steps es s)) = boardOps (db s) ++ new)
  ∧ (∃ more, boardSnapshots (db (steps es s)) = boardSnapshots (db s) ++ more)
  ∧ (∀ b, counter_of b (db s) ≤ counter_of b (db (steps es s)))
  ∧ (∀ b, is_Some (boards (db s) !! b) → is_Some (boards (db (steps es s)) !! b))
  ∧ users (db (steps es s)) = users (db s).
Proof.
  revert s. induction es as [|e es IH]; intros s; simpl.
  { split_and!; try done; exists []; by rewrite app_nil_r. }
  destruct (IH (step e s).1) as ((new & Ho) & (more & Hs) & Hc & Hb & Hu).
  destruct (step_keeps e s) as ((new0 & Ho0) & Hc0 & Hb0).
  destruct (step_snapshots_grow e s) as [more0 Hs0].
  split_and!.
  - exists (new0 ++ new). by rewrite Ho, Ho0, app_assoc.
  - exists (more0 ++ more). by rewrite Hs, Hs0, app_assoc.
  - intros b. etrans; [apply Hc0|apply Hc].
  - intros b Hin. by apply Hb, Hb0.
  - by rewrite Hu, step_users.
Qed.

(** ** All or nothing *)

(** A storage failure cannot leave a batch half done: whatever the fault
    oracle, the handler of [board:ops] ends either in the state and with the
    outputs of the run without faults, or with the database it started
    from and the ack [persist failed]; in both cases the batch was broadcast
    and queued for the document cache exactly as in the run without
    faults. *)
Theorem board_ops_all_or_nothing (s : Server) (sid : SocketId) (ops : list OpItem)
    (snapshot : option Tldraw) (uuid : nat → string) (faults : option nat) :
  let r := step (BoardOps sid ops snapshot uuid faults) s in
  let r0 := step (BoardOps sid ops snapshot uuid None) s in
  r = r0
  ∨ (db r.1 = db s
     ∧ sockets r.1 = sockets r0.1
     ∧ buffers r.1 = buffers r0.1
     ∧ head r.2 = head r0.2
     ∧ last r.2 = Some (Ack sid false (Some "persist failed") None)).
Proof.
  simpl. unfold on_board_ops.
  destruct (sockets s !! sid) as [sock|]; [|by left].
  destruct (truthy (sock_boardId sock)) as [b|]; [|by left].
  destruct (can_write (sock_role sock)); [|by left].
  rewrite persist_ops_calm.
  destruct (run _ faults uuid (db s)) as [[[]|e] d] eqn:Hrun.
  - left. by rewrite (persist_ops_commit _ _ _ _ _ _ _ Hrun).
  - right. simpl. split_and!; try done.
    unfold run in Hrun. destruct (persist_ops _ _ _ _) as [r w'] eqn:Hp.
    simplify_eq. by apply persist_ops_abort in Hp.
Qed.

(** ** Sequence numbers without gaps *)

Lemma one_to_S n : one_to (S n) = one_to n ++ [Z.of_nat (S n)].
Proof. unfold one_to. by rewrite seq_S, fmap_app. Qed.

Lemma gap_free_ext d d' b :
  boardOps d' = boardOps d → counters d' = counters d → gap_free b d → gap_free b d'.
Proof.
  unfold gap_free, seqs_of, counter_of, count_ops. by intros -> ->.
Qed.

Lemma append_pure_gap_free boardId author u st item :
  (∀ b, gap_free b st.1) → ∀ b, gap_free b (append_pure boardId author u st item).1.
Proof.
  intros Hinv b. unfold append_pure. destruct (find_op _ _ _); simpl; [done|].
  destruct (Hinv b) as [Hs Hc]. destruct (Hinv boardId) as [_ Hc0].
  unfold gap_free, seqs_of, counter_of, count_ops, ops_of in *. simpl.
  rewrite filter_app. destruct (decide (b = boardId)) as [->|Hne].
  - rewrite filter_cons_True by done. rewrite filter_nil, fmap_app, length_app.
    simpl. rewrite Hs, lookup_insert_eq. simpl.
    replace (length (filter (λ r, bo_boardId r = boardId) (boardOps st.1)) + 1)%nat
      with (S (length (filter (λ r, bo_boardId r = boardId) (boardOps st.1)))) by lia.
    rewrite one_to_S, fmap_app. simpl. rewrite Hc. split; [|lia].
    do 3 f_equal. lia.
  - rewrite filter_cons_False by (simpl; congruence).
    rewrite filter_nil, app_nil_r. rewrite lookup_insert_ne; [done|].
    intros Hk. by apply (inj counter_key) in Hk.
Qed.

Lemma commit_pure_gap_free boardId author u ops d :
  (∀ b, gap_free b d) → ∀ b, gap_free b (commit_pure boardId author u ops d).
Proof.
  intros Hinv b. unfold commit_pure.
  destruct (checkpoint_pure_frame boardId
              (foldl (append_pure boardId author u) (d, 0%nat) ops).1)
    as (_ & _ & Hc & Ho).
  eapply gap_free_ext; [exact Ho|exact Hc|].
  assert (Hfold : ∀ st, (∀ b, gap_free b st.1) →
            ∀ b, gap_free b (foldl (append_pure boardId author u) st ops).1).
  { clear. induction ops as [|item ops IH]; intros st Hst; simpl; [done|].
    apply IH. by apply append_pure_gap_free. }
  by apply Hfold.
Qed.

(** On a database that starts with an empty log and no counters, and for
    sockets that join their boards under the spelling of the [ObjectId],
    the records of every board carry the sequence numbers 1, 2, ..., n in
    the order they were stored, and the board's counter stands at n: a
    batch that fails gives its numbers back with the rest of the
    transaction. *)
Theorem sequence_gap_free (d : Db) (es : list Event) (boardId : BoardId) :
  boardOps d = [] →
  counters d = ∅ →
  joins_canonical es →
  seqs_of boardId (db (steps es (boot d)))
  = Some <$> one_to (length (ops_of boardId (boardOps (db (steps es (boot d))))))
  ∧ counter_of boardId (db (steps es (boot d)))
    = count_ops boardId (db (steps es (boot d))).
Proof.
  intros Hops Hcs _.
  assert (Hsteps : ∀ es s, (∀ b, gap_free b (db s)) →
            ∀ b, gap_free b (db (steps es s))).
  { clear. induction es as [|e es IH]; intros s Hinv; simpl; [done|].
    apply IH. destruct (step e s) as [s' out] eqn:Hstep. simpl.
    apply step_cases in Hstep
      as [(Ho & Hc & _)
         |(? & ops & ? & uuid & ? & sock & b' & _ & _ & _ & _ & _ & ->)].
    - intros b. by eapply gap_free_ext.
    - by apply commit_pure_gap_free. }
  apply Hsteps. intros b. simpl.
  unfold gap_free, seqs_of, counter_of, count_ops. by rewrite Hops, Hcs.
Qed.

(** ** The unique index *)

Lemma append_pure_keys_unique boardId author u st item :
  keys_unique st.1 → keys_unique (append_pure boardId author u st item).1.
Proof.
  unfold keys_unique, append_pure. intros Hnd.
  destruct (find_op _ _ _) eqn:Hfind; simpl; [done|].
  rewrite fmap_app. apply NoDup_app. split_and!; [done| |apply NoDup_singleton].
  intros k Hk ->%list_elem_of_singleton.
  apply list_elem_of_fmap in Hk as (r & Hr & Hin).
  rewrite find_op_None in Hfind. unfold op_key in Hr. simpl in Hr.
  injection Hr as Hb Ho. by eapply (Hfind r).
Qed.

(** The handler's own look-up keeps [(boardId, opId)] unique: if no two
    records share the pair before, none do after any sequence of events. *)
Theorem log_keys_stay_unique (es : list Event) (s : Server) :
  keys_unique (db s) → keys_unique (db (steps es s)).
Proof.
  revert s. induction es as [|e es IH]; intros s Hinv; simpl; [done|].
  apply IH. destruct (step e s) as [s' out] eqn:Hstep. simpl.
  apply step_cases in Hstep
    as [(Ho & _)|(? & ops & ? & uuid & ? & sock & b' & _ & _ & _ & _ & _ & ->)].
  - unfold keys_unique. by rewrite Ho.
  - unfold commit_pure, keys_unique.
    destruct (checkpoint_pure_frame b'
                (foldl (append_pure b' (truthy (sock_userId sock)) uuid)
                   (db s, 0%nat) ops).1) as (_ & _ & _ & ->).
    assert (Hfold : ∀ st, keys_unique st.1 →
              keys_unique (foldl (append_pure b' (truthy (sock_userId sock)) uuid)
                             st ops).1).
    { clear. induction ops as [|item ops IH]; intros st Hst; simpl; [done|].
      apply IH. by apply append_pure_keys_unique. }
    by apply (Hfold (db s, 0%nat)).
Qed.

(** ** Snapshot versions *)

Lemma commit_pure_snapshot_cases boardId author u ops d :
  boardSnapshots (commit_pure boardId author u ops d) = boardSnapshots d
  ∨ ∃ snap,
      boardSnapshots (commit_pure boardId author u ops d) = boardSnapshots d ++ [snap]
      ∧ snap_boardId snap = boardId
      ∧ snap_version snap = count_snapshots boardId d + 1.
Proof.
  unfold commit_pure.
  set (d0 := (foldl (append_pure boardId author u) (d, 0%nat) ops).1).
  destruct (foldl_append_pure_frame boardId author u ops (d, 0%nat))
    as (_ & _ & Hsnaps).
  fold d0 in Hsnaps. simpl in Hsnaps.
  unfold checkpoint_pure, count_snapshots. case_decide; [|by left].
  destruct (boards d0 !! boardId); simpl; rewrite Hsnaps; [|by left].
  right. eexists. split_and!; done.
Qed.

Lemma step_snapshot_cases e s :
  boardSnapshots (db (step e s).1) = boardSnapshots (db s)
  ∨ ∃ snap,
      boardSnapshots (db (step e s).1) = boardSnapshots (db s) ++ [snap]
      ∧ snap_version snap = count_snapshots (snap_boardId snap) (db s) + 1.
Proof.
  destruct e; simpl; try (by left).
  - unfold on_room_join. repeat case_match; by left.
  - destruct (board_ops_cases s sid ops snapshot uuid faults)
      as [H|(sock & b & _ & _ & _ & H)]; simpl in H; rewrite H; [by left|].
    destruct (commit_pure_snapshot_cases b (truthy (sock_userId sock)) uuid ops (db s))
      as [->|(snap & -> & Hb & Hv)]; [by left|].
    right. exists snap. by rewrite Hb.
  - unfold on_flush_timer. destruct (buffers s !! boardId) as [payload|]; [|by left].
    pose proof (flush_db boardId payload faults (λ _, "") (db s)) as Hf.
    destruct (run _ _ _ _) as [r d]. simpl in *. left. by destruct Hf as (_ & _ & _ & -> & _).
  - http_cases; by left.
  - http_cases; by left.
  - http_cases; by left.
  - http_cases; by left.
  - http_cases; by left.
  - http_cases; try (by left). right. eexists. split; [done|]. done.
  - http_cases; by left.
Qed.

Lemma versions_gap_free_snoc d d' snap :
  versions_gap_free d →
  boardSnapshots d' = boardSnapshots d ++ [snap] →
  snap_version snap = count_snapshots (snap_boardId snap) d + 1 →
  versions_gap_free d'.
Proof.
  intros Hinv Hs Hv b. specialize (Hinv b).
  unfold versions_of, snapshots_of in *. rewrite Hs, filter_app.
  destruct (decide (snap_boardId snap = b)) as [Hb|Hne].
  - rewrite filter_cons_True by done. rewrite filter_nil, fmap_app, length_app.
    simpl. rewrite Hinv, Hv. unfold count_snapshots, snapshots_of. rewrite Hb.
    replace (length (filter (λ r, snap_boardId r = b) (boardSnapshots d)) + 1)%nat
      with (S (length (filter (λ r, snap_boardId r = b) (boardSnapshots d)))) by lia.
    rewrite one_to_S. do 2 f_equal. lia.
  - rewrite filter_cons_False by done. by rewrite filter_nil, app_nil_r.
Qed.

(** On a database that starts without snapshot records, the snapshots of
    every board carry the versions 1, 2, ..., n in the order they were
    written, whether the checkpoint trigger of [board:ops] or the
    snapshot-now route wrote them. *)
Theorem snapshot_versions_gap_free (d : Db) (es : list Event) (boardId : BoardId) :
  boardSnapshots d = [] →
  versions_of boardId (db (steps es (boot d)))
  = one_to (length (snapshots_of boardId (boardSnapshots (db (steps es (boot d)))))).
Proof.
  intros Hempty.
  assert (Hsteps : ∀ es s, versions_gap_free (db s) →
            versions_gap_free (db (steps es s))).
  { clear. induction es as [|e es IH]; intros s Hinv; simpl; [done|].
    apply IH. destruct (step_snapshot_cases e s) as [Hs|(snap & Hs & Hv)].
    - intros b. specialize (Hinv b). unfold versions_of in *. by rewrite Hs.
    - by eapply versions_gap_free_snoc. }
  apply Hsteps. intros b. simpl. unfold versions_of. by rewrite Hempty.
Qed.

(** ** Boards do not interfere *)

Lemma ops_of_other b b0 l new :
  b ≠ b0 → Forall (λ r, bo_boardId r = b0) new → ops_of b (l ++ new) = ops_of b l.
Proof.
  intros Hne Hnew. unfold ops_of. rewrite filter_app.
  replace (filter _ new) with (@nil BoardOp); [by rewrite app_nil_r|].
  symmetry. induction Hnew as [|r new Hr Hnew IH]; [done|].
  rewrite filter_cons_False by congruence. done.
Qed.

Lemma commit_pure_other boardId author u ops d b :
  b ≠ boardId →
  let d' := commit_pure boardId author u ops d in
  ops_of b (boardOps d') = ops_of b (boardOps d)
  ∧ counters d' !! counter_key b = counters d !! counter_key b
  ∧ snapshots_of b (boardSnapshots d') = snapshots_of b (boardSnapshots d).
Proof.
  intros Hne d'. subst d'. split_and!.
  - destruct (commit_pure_log boardId author u ops d) as (new & -> & Hnew).
    by eapply ops_of_other.
  - unfold commit_pure.
    destruct (checkpoint_pure_frame boardId
                (foldl (append_pure boardId author u) (d, 0%nat) ops).1)
      as (_ & _ & -> & _).
    destruct (foldl_append_pure_log boardId author u ops (d, 0%nat)) as [_ Hc].
    apply Hc. intros Hk. by apply (inj counter_key) in Hk.
  - destruct (commit_pure_snapshot_cases boardId author u ops d)
      as [->|(snap & -> & Hb & _)]; [done|].
    unfold snapshots_of. rewrite filter_app, filter_cons_False by congruence.
    by rewrite filter_nil, app_nil_r.
Qed.

(** A submission on one board leaves every other board alone: their
    records, counters, snapshots and pending buffers are what they were,
    and no board document or membership changes, whether the batch is
    committed or not. *)
Theorem board_ops_touch_one_board (s : Server) (sid : SocketId) (sock : SocketData)
    (ops : list OpItem) (snapshot : option Tldraw) (uuid : nat → string)
    (faults : option nat) (b : BoardId) :
  sockets s !! sid = Some sock →
  sock_boardId sock ≠ Some b →
  let s' := (step (BoardOps sid ops snapshot uuid faults) s).1 in
  ops_of b (boardOps (db s')) = ops_of b (boardOps (db s))
  ∧ counters (db s') !! counter_key b = counters (db s) !! counter_key b
  ∧ snapshots_of b (boardSnapshots (db s')) = snapshots_of b (boardSnapshots (db s))
  ∧ buffers s' !! b = buffers s !! b
  ∧ boards (db s') = boards (db s).
Proof.
  intros Hsock Hb. simpl. unfold on_board_ops. rewrite Hsock.
  destruct (truthy (sock_boardId sock)) as [b0|] eqn:Hb0; [|done].
  assert (b ≠ b0) as Hne.
  { intros ->. unfold truthy in Hb0. destruct (sock_boardId sock); [|done].
    case_decide; simplify_eq. }
  destruct (can_write (sock_role sock)); [|done].
  destruct (run _ faults uuid (db s)) as [[[]|e] d] eqn:Hrun; simpl.
  - apply persist_ops_commit in Hrun as ->.
    destruct (commit_pure_other b0 (truthy (sock_userId sock)) uuid ops (db s) b Hne)
      as (-> & -> & ->).
    destruct (commit_pure_frame b0 (truthy (sock_userId sock)) uuid ops (db s))
      as [_ ->].
    split_and!; try done. unfold enqueuePersist. by rewrite lookup_insert_ne.
  - unfold run in Hrun. destruct (persist_ops _ _ _ _) as [r w'] eqn:Hp.
    simplify_eq. apply persist_ops_abort in Hp. simpl in Hp. rewrite Hp.
    split_and!; try done. unfold enqueuePersist. by rewrite lookup_insert_ne.
Qed.

(** ** The empty batch *)

Lemma can_write_true r : r = owner ∨ r = editor → can_write r = true.
Proof. intros H. unfold can_write. by rewrite bool_decide_eq_true_2. Qed.

(** A writer that submits an empty batch is acknowledged; nothing is
    logged and no counter moves, but the checkpoint trigger still runs: if
    the board's record count is a multiple of 200, zero included, one more
    snapshot of the board document is written. *)
Theorem empty_batch_checkpoint (s : Server) (sid : SocketId) (sock : SocketData)
    (boardId : BoardId) (board : Board) (snapshot : option Tldraw)
    (uuid : nat → string) :
  sockets s !! sid = Some sock →
  truthy (sock_boardId sock) = Some boardId →
  sock_role sock = owner ∨ sock_role sock = editor →
  boards (db s) !! boardId = Some board →
  let r := step (BoardOps sid [] snapshot uuid None) s in
  r.2 = [EmitBoardOps sid boardId [] snapshot; Ack sid true None None]
  ∧ boardOps (db r.1) = boardOps (db s)
  ∧ counters (db r.1) = counters (db s)
  ∧ boardSnapshots (db r.1)
    = boardSnapshots (db s)
      ++ (if decide (count_ops boardId (db s) `mod` 200 = 0)
          then [{| snap_boardId := boardId;
                   snap_version := count_snapshots boardId (db s) + 1;
                   snap_tldraw := doc_tldraw (board_document board);
                   snap_checksum := hashObj (doc_tldraw (board_document board)) |}]
          else []).
Proof.
  intros Hsock Hb Hw Hboard. simpl. unfold on_board_ops.
  rewrite Hsock, Hb, (can_write_true _ Hw), persist_ops_calm. simpl.
  unfold commit_pure, checkpoint_pure, count_ops, count_snapshots. simpl.
  case_decide; [|by rewrite app_nil_r]. by rewrite Hboard.
Qed.

(** ** The document cache *)

(** What the timer callback leaves in the database: nothing new when one of
    its two calls fails, the merged document otherwise. *)
Lemma flush_run boardId payload faults u d :
  (run (flush_body boardId payload) faults u d).2
  = match faults with
    | Some O | Some (S O) => d
    | _ =>
        let doc := default {| doc_tldraw := None; doc_ops := [] |}
                     (board_document <$> boards d !! boardId) in
        set_boards
          (alter (set_document
             {| doc_tldraw :=
                  match buf_snapshot payload with
                  | Some t =>
                      match sanitizeTlSnapshotDeep (Some t) with
                      | Some safe => Some safe
                      | None => doc_tldraw doc
                      end
                  | None => doc_tldraw doc
                  end;
                doc_ops := mergeOps (doc_ops doc) (buf_ops payload) |}) boardId) d
    end.
Proof.
  unfold run, flush_body, catch, Board_findById, Board_findByIdAndUpdate_document,
    db_call, bind, tick, ret, view, store, set_store. simpl.
  destruct faults as [[|[|n]]|]; simpl; try done.
Qed.

Lemma board_ops_writer s sid sock boardId ops snapshot uuid faults :
  sockets s !! sid = Some sock →
  truthy (sock_boardId sock) = Some boardId →
  sock_role sock = owner ∨ sock_role sock = editor →
  let s' := (step (BoardOps sid ops snapshot uuid faults) s).1 in
  sockets s' = sockets s
  ∧ buffers s' = enqueuePersist boardId ops snapshot (buffers s)
  ∧ boards (db s') = boards (db s).
Proof.
  intros Hsock Hb Hw s'. subst s'.
  destruct (step _ s) as [s' out] eqn:Hstep. simpl.
  destruct (board_ops_outcome _ _ _ _ _ _ _ _ _ _ Hsock Hb (can_write_true _ Hw) Hstep)
    as (Hs & Hbuf & [[-> _]|[-> _]]); split_and!; try done.
  by destruct (commit_pure_frame boardId (truthy (sock_userId sock)) uuid ops (db s))
    as [_ ->].
Qed.

(** The broadcast path feeds the document cache whatever becomes of the
    transaction: after two submissions of operations by a writer and the
    flush timer, no snapshot being pending or submitted, the board's cached
    operations are [mergeOps] of the cached ones with everything that was
    pending followed by both batches, in submission order; the cached
    drawing is the one it was, the sanitizer not being called; the buffer
    entry is gone and the membership is untouched. The fault oracles of the
    two submissions are arbitrary: a batch whose durable append failed
    still reaches the cache. *)
Theorem cache_receives_batches (s : Server) (sid : SocketId) (sock : SocketData)
    (boardId : BoardId) (board : Board) (ops1 ops2 : list OpItem)
    (u1 u2 : nat → string) (f1 f2 : option nat) :
  sockets s !! sid = Some sock →
  truthy (sock_boardId sock) = Some boardId →
  sock_role sock = owner ∨ sock_role sock = editor →
  boards (db s) !! boardId = Some board →
  let pending := default {| buf_ops := []; buf_snapshot := None; buf_timer := false |}
                   (buffers s !! boardId) in
  buf_snapshot pending = None →
  let s3 := steps [BoardOps sid ops1 None u1 f1; BoardOps sid ops2 None u2 f2;
                   FlushTimer boardId None] s in
  buffers s3 !! boardId = None
  ∧ ∃ board',
      boards (db s3) !! boardId = Some board'
      ∧ doc_ops (board_document board')
        = mergeOps (doc_ops (board_document board)) (buf_ops pending ++ ops1 ++ ops2)
      ∧ doc_tldraw (board_document board') = doc_tldraw (board_document board)
      ∧ board_members board' = board_members board.
Proof.
  intros Hsock Hb Hw Hboard pending Hsnap s3. subst s3.
  change (steps _ s)
    with (step (FlushTimer boardId None)
            (step (BoardOps sid ops2 None u2 f2)
               (step (BoardOps sid ops1 None u1 f1) s).1).1).1.
  destruct (board_ops_writer s sid sock boardId ops1 None u1 f1 Hsock Hb Hw)
    as (Hs1 & Hb1 & Hd1).
  set (s1 := (step (BoardOps sid ops1 None u1 f1) s).1) in *.
  assert (Hsock1 : sockets s1 !! sid = Some sock) by (by rewrite Hs1).
  destruct (board_ops_writer s1 sid sock boardId ops2 None u2 f2 Hsock1 Hb Hw)
    as (Hs2 & Hb2 & Hd2).
  set (s2 := (step (BoardOps sid ops2 None u2 f2) s1).1) in *.
  assert (Hbuf : buffers s2 !! boardId
            = Some {| buf_ops := (buf_ops pending ++ ops1) ++ ops2;
                      buf_snapshot := None; buf_timer := true |}).
  { rewrite Hb2. unfold enqueuePersist at 1. rewrite lookup_insert_eq.
    rewrite Hb1. unfold enqueuePersist. rewrite lookup_insert_eq. simpl.
    fold pending. by rewrite Hsnap. }
  simpl. unfold on_flush_timer. rewrite Hbuf.
  pose proof (flush_run boardId
                {| buf_ops := (buf_ops pending ++ ops1) ++ ops2;
                   buf_snapshot := None; buf_timer := true |}
                None (λ _, "") (db s2)) as Hrun.
  destruct (run _ _ _ _) as [r d]. simpl in Hrun. subst d. simpl.
  rewrite lookup_delete_eq. split; [done|].
  rewrite lookup_alter_eq, Hd2, Hd1, Hboard. simpl.
  eexists. split; [done|]. simpl. by rewrite <- app_assoc.
Qed.

(** When one of the two storage calls of the flush fails, or the board does
    not exist, the pending batch is dropped: the buffer entry is removed,
    the database is what it was, and nothing is emitted. *)
Theorem flush_failure_drops_buffer (s : Server) (boardId : BoardId) (payload : Buffer)
    (faults : option nat) :
  buffers s !! boardId = Some payload →
  faults = Some 0%nat ∨ faults = Some 1%nat ∨ boards (db s) !! boardId = None →
  step (FlushTimer boardId faults) s
  = ({| db := db s; sockets := sockets s; buffers := delete boardId (buffers s) |}, []).
Proof.
  intros Hbuf Hfail. simpl. unfold on_flush_timer. rewrite Hbuf.
  pose proof (flush_run boardId payload faults (λ _, "") (db s)) as Hrun.
  destruct (run _ _ _ _) as [r d]. simpl in Hrun. subst d.
  destruct Hfail as [->|[->|Hnone]]; [done..|].
  do 2 f_equal. destruct faults as [[|[|n]]|]; try done;
    rewrite Hnone; simpl; unfold set_boards; destruct (db s) as [us bs cs os ss];
    simpl in *; f_equal; apply map_eq; intros j; rewrite lookup_alter;
    case_decide; subst; by rewrite ?Hnone.
Qed.

(** ** Roles *)

Lemma truthy_Some v k : truthy v = Some k → v = Some k ∧ k ≠ "".
Proof. unfold truthy. destruct v; [|done]. case_decide; [done|]. by intros [= <-]. Qed.

Lemma step_sockets e s : ¬ touches_sockets e → sockets (step e s).1 = sockets s.
Proof.
  destruct e; simpl; try (intros H; by destruct H); intros _.
  - unfold on_board_ops. by repeat case_match.
  - unfold on_flush_timer. by repeat case_match.
  - unfold http. by destruct (post_board _ _ _ _).
  - unfold http. by destruct (get_board _ _ _ _).
  - unfold http. by destruct (post_member _ _ _ _ _).
  - unfold http. by destruct (patch_member _ _ _ _ _).
  - unfold http. by destruct (delete_member _ _ _ _).
  - unfold http. by destruct (post_snapshot _ _ _).
  - unfold http. by destruct (get_export _ _ _).
Qed.

Lemma step_anonymous_read_only e s :
  anonymous_read_only s → anonymous_read_only (step e s).1.
Proof.
  intros Hinv.
  assert (Hkeep : sockets (step e s).1 = sockets s → anonymous_read_only (step e s).1).
  { intros Heq sid sock Hsock. rewrite Heq in Hsock. by eapply Hinv. }
  destruct e; try (apply Hkeep, step_sockets; simpl; tauto); clear Hkeep; simpl.
  - intros sid' sock Hsock Hanon. simpl in Hsock.
    destruct (decide (sid = sid')) as [->|Hne].
    + rewrite lookup_insert_eq in Hsock. by simplify_eq.
    + rewrite lookup_insert_ne in Hsock by done. by eapply Hinv.
  - intros sid' sock Hsock. simpl in Hsock.
    apply lookup_delete_Some in Hsock as [_ Hsock]. by eapply Hinv.
  - unfold on_room_join.
    destruct (sockets s !! sid) as [sock0|] eqn:Hs0; [|done].
    destruct (boards (db s) !! boardId) as [b0|]; [|done].
    destruct (truthy (sock_userId sock0)) as [uid|] eqn:Hu; simpl.
    + intros sid' sock Hsock Hanon. simpl in Hsock.
      destruct (decide (sid = sid')) as [->|Hne].
      * rewrite lookup_insert_eq in Hsock. simplify_eq. simpl in Hanon. congruence.
      * rewrite lookup_insert_ne in Hsock by done. by eapply Hinv.
    + destruct (truthy token); [case_decide|]; try done.
      intros sid' sock Hsock Hanon. simpl in Hsock.
      destruct (decide (sid = sid')) as [->|Hne].
      * rewrite lookup_insert_eq in Hsock. by simplify_eq.
      * rewrite lookup_insert_ne in Hsock by done. by eapply Hinv.
Qed.

Lemma foldl_append_pure_authors boardId author u ops st :
  ∃ new,
    boardOps (foldl (append_pure boardId author u) st ops).1 = boardOps st.1 ++ new
    ∧ Forall (λ r, bo_authorId r = author) new.
Proof.
  revert st. induction ops as [|item ops IH]; intros st; simpl.
  - exists []. by rewrite app_nil_r.
  - destruct (IH (append_pure boardId author u st item)) as (new2 & -> & Hn2).
    unfold append_pure. destruct (find_op _ _ _); simpl.
    + by exists new2.
    + eexists (_ :: new2). rewrite <- app_assoc. split; [done|].
      by constructor.
Qed.

Lemma step_log_cases e s :
  boardOps (db (step e s).1) = boardOps (db s)
  ∨ ∃ sock b ops uuid,
      can_write (sock_role sock) = true
      ∧ (∃ sid, sockets s !! sid = Some sock)
      ∧ db (step e s).1 = commit_pure b (truthy (sock_userId sock)) uuid ops (db s).
Proof.
  destruct (step e s) as [s' out] eqn:Hstep. simpl.
  destruct (step_cases _ _ _ _ Hstep)
    as [(Ho & _)|(sid & ops & snapshot & uuid & faults & ? & ? & -> & _)]; [by left|].
  destruct (board_ops_cases s sid ops snapshot uuid faults)
    as [H|(sock & b & Hsock & _ & Hw & H)]; rewrite Hstep in H; simpl in H.
  - left. by rewrite H.
  - right. exists sock, b, ops, uuid. split_and!; [done|by exists sid|done].
Qed.

(** A socket without a user id never gets write access, so every record
    the server appends names its author: whatever events the server
    processes from its start, each socket that carries no user id has the
    role [viewer], and each record of the log was either there at the start
    or has a non-empty [authorId]. *)
Theorem anonymous_sockets_never_write (d : Db) (es : list Event) :
  anonymous_read_only (steps es (boot d))
  ∧ ∀ r, r ∈ boardOps (db (steps es (boot d))) →
         r ∈ boardOps d ∨ ∃ uid, bo_authorId r = Some uid ∧ uid ≠ "".
Proof.
  set (P := λ r : BoardOp, r ∈ boardOps d ∨ ∃ uid, bo_authorId r = Some uid ∧ uid ≠ "").
  assert (Hsteps : ∀ es s,
            anonymous_read_only s → (∀ r, r ∈ boardOps (db s) → P r) →
            anonymous_read_only (steps es s)
            ∧ ∀ r, r ∈ boardOps (db (steps es s)) → P r).
  { clear es. induction es as [|e es IH]; intros s Hanon Hlog; simpl; [done|].
    apply IH; [by apply step_anonymous_read_only|].
    destruct (step_log_cases e s)
      as [->|(sock & b & ops & uuid & Hw & [sid Hsock] & ->)]; [done|].
    unfold commit_pure.
    destruct (checkpoint_pure_frame b
                (foldl (append_pure b (truthy (sock_userId sock)) uuid)
                   (db s, 0%nat) ops).1) as (_ & _ & _ & ->).
    destruct (foldl_append_pure_authors b (truthy (sock_userId sock)) uuid ops
                (db s, 0%nat)) as (new & -> & Hnew).
    intros r [Hr|Hr]%elem_of_app; [by apply Hlog|].
    rewrite Forall_forall in Hnew. right.
    destruct (truthy (sock_userId sock)) as [uid|] eqn:Hu.
    - exists uid. split; [by apply Hnew|]. by apply truthy_Some in Hu as [_ ?].
    - rewrite (Hanon _ _ Hsock Hu) in Hw. done. }
  apply Hsteps.
  - intros sid sock Hsock. simpl in Hsock. by rewrite lookup_empty in Hsock.
  - intros r Hr. by left.
Qed.

(** The role of a socket is the one resolved when it joined: no HTTP
    request, flush or submission changes it. A socket that joined as owner
    or editor is still acknowledged as a writer after any such event, also
    after the request that removed its user from the board or made them a
    viewer. *)
Theorem role_fixed_at_join (s : Server) (sid : SocketId) (sock : SocketData)
    (boardId : BoardId) (e : Event) (ops : list OpItem) (snapshot : option Tldraw)
    (uuid : nat → string) :
  sockets s !! sid = Some sock →
  truthy (sock_boardId sock) = Some boardId →
  sock_role sock = owner ∨ sock_role sock = editor →
  ¬ touches_sockets e →
  sockets (step e s).1 !! sid = Some sock
  ∧ (step (BoardOps sid ops snapshot uuid None) (step e s).1).2
    = [EmitBoardOps sid boardId ops snapshot; Ack sid true None None].
Proof.
  intros Hsock Hb Hw He.
  assert (Hsock' : sockets (step e s).1 !! sid = Some sock)
    by (by rewrite step_sockets).
  split; [done|].
  generalize dependent (step e s).1. intros s1 Hsock1.
  simpl. unfold on_board_ops.
  by rewrite Hsock1, Hb, (can_write_true _ Hw), persist_ops_calm.
Qed.

(** ** Owners *)

Lemma boards_insert_inv (P : Board → Prop) (m : gmap string Board) k x :
  (∀ b board, m !! b = Some board → P board) → P x →
  ∀ b board, <[k := x]> m !! b = Some board → P board.
Proof.
  intros Hm Hx b board. destruct (decide (k = b)) as [->|Hne].
  - rewrite lookup_insert_eq. by intros [= <-].
  - rewrite lookup_insert_ne by done. apply Hm.
Qed.

Lemma flush_members boardId payload faults u d b board' :
  boards (run (flush_body boardId payload) faults u d).2 !! b = Some board' →
  ∃ board,
    boards d !! b = Some board
    ∧ board_members board' = board_members board
    ∧ board_publicViewerToken board' = board_publicViewerToken board
    ∧ board_title board' = board_title board.
Proof.
  rewrite flush_run.
  assert (Hsame : boards d !! b = Some board' →
    ∃ board, boards d !! b = Some board
      ∧ board_members board' = board_members board
      ∧ board_publicViewerToken board' = board_publicViewerToken board
      ∧ board_title board' = board_title board) by eauto.
  destruct faults as [[|[|n]]|]; simpl; try done;
    rewrite lookup_alter; case_decide; subst; try done;
    destruct (boards d !! b) as [board|]; simpl; intros [= <-]; eauto.
Qed.

Lemma step_all_owned e s :
  ¬ is_post_member e → all_owned (db s) → all_owned (db (step e s).1).
Proof.
  intros He Hinv. unfold all_owned in *. destruct e; simpl in *; try done.
  - unfold on_room_join. by repeat case_match.
  - destruct (board_ops_cases s sid ops snapshot uuid faults)
      as [H|(sock & b & _ & _ & _ & H)]; simpl in H; rewrite H;
      [done|].
    by destruct (commit_pure_frame b (truthy (sock_userId sock)) uuid ops (db s))
      as [_ ->].
  - unfold on_flush_timer. destruct (buffers s !! boardId) as [payload|]; [|done].
    pose proof (flush_members boardId payload faults (λ _, "") (db s)) as Hf.
    destruct (run _ _ _ _) as [r d]. simpl in *.
    intros b board' Hb'. destruct (Hf _ _ Hb') as (board & Hb & -> & _).
    by eapply Hinv.
  - unfold http, post_board. destruct (boards (db s) !! newId); simpl; [done|].
    apply boards_insert_inv; [done|]. simpl. unfold has_owner, owners.
    by rewrite filter_cons_True.
  - unfold http, get_board. repeat case_match; simplify_eq; simpl; try done;
      (apply boards_insert_inv; [done|]; simpl; unfold has_owner, owners;
       rewrite filter_app; intros [Hnil _]%app_eq_nil; by eapply Hinv).
  - unfold http. destruct (patch_member _ _ _ _ _) as [d' r] eqn:Hp. simpl.
    intros b board' Hb'.
    by destruct (patch_member_keeps_owner _ _ _ _ _ _ _ _ _ Hp
                   (λ board H, Hinv _ _ H) Hb').
  - unfold http. destruct (delete_member _ _ _ _) as [d' r] eqn:Hp. simpl.
    intros b board' Hb'.
    by destruct (delete_member_keeps_owner _ _ _ _ _ _ _ _ Hp
                   (λ board H, Hinv _ _ H) Hb').
  - unfold http, post_snapshot. repeat case_match; simplify_eq; simpl; try done;
      (apply boards_insert_inv; [done|]; simpl; by eapply Hinv).
  - unfold http, get_export. by repeat case_match; simplify_eq.
Qed.

(** Every route and handler but [POST /api/boards/:id/members] keeps an
    owner on every board: if all boards have one, they all have one after
    any sequence of events that does not contain that request, the boards
    created on the way included. *)
Theorem owner_kept_without_post_member (es : list Event) (s : Server) :
  all_owned (db s) →
  Forall (λ e, ¬ is_post_member e) es →
  all_owned (db (steps es s)).
Proof.
  revert s. induction es as [|e es IH]; intros s Hinv Hes; simpl; [done|].
  apply Forall_cons in Hes as [He Hes]. apply IH; [|done].
  by apply step_all_owned.
Qed.

(** The membership routes change nothing for a caller who is not an owner
    of the board, and the snapshot and export routes nothing for one who is
    not a member: the database is returned as it was, with an error. *)
Theorem unauthorized_requests_change_nothing (d : Db) (caller : UserId)
    (boardId : BoardId) (board : Board) :
  boards d !! boardId = Some board →
  ¬ is_owner_of caller board →
  (∀ email newRole, ∃ status err,
     post_member caller boardId email newRole d = (d, JsonError status err))
  ∧ (∀ target newRole, ∃ status err,
       patch_member caller boardId target newRole d = (d, JsonError status err))
  ∧ (∀ target, delete_member caller boardId target d
               = (d, JsonError 403 "Only owner can remove members"))
  ∧ (find_member caller (board_members board) = None →
     post_snapshot caller boardId d = (d, JsonError 403 "Forbidden")
     ∧ get_export caller boardId d = (d, JsonError 403 "Forbidden")).
Proof.
  intros Hboard Hno.
  assert (Hme : ∀ me, find_member caller (board_members board) = Some me →
            role me ≠ owner).
  { intros me Hfind Hrole. apply Hno. by exists me. }
  split_and!.
  - intros email newRole. unfold post_member.
    destruct (truthy email), newRole; try (by eexists _, _).
    rewrite Hboard. destruct (find_member caller _) as [me|] eqn:Hfind;
      [|by eexists _, _].
    rewrite decide_False by (by apply Hme). by eexists _, _.
  - intros target newRole. unfold patch_member.
    destruct (truthy target), newRole; try (by eexists _, _).
    rewrite Hboard. destruct (find_member caller _) as [me|] eqn:Hfind;
      [|by eexists _, _].
    rewrite decide_False by (by apply Hme). by eexists _, _.
  - intros target. unfold delete_member. rewrite Hboard.
    destruct (find_member caller _) as [me|] eqn:Hfind; [|done].
    by rewrite decide_False by (by apply Hme).
  - intros Hnone. unfold post_snapshot, get_export. by rewrite Hboard, Hnone.
Qed.

(** ** Joining a room *)

(** A join leaves the database, the buffers and the other sockets alone,
    and it hands out write access exactly to the members whose role in the
    board is owner or editor: the token plays no part for a signed-in user,
    and a socket without user id gets at most [viewer]. *)
Theorem join_grants_write_iff_member (s s' : Server) (sid : SocketId)
    (sock : SocketData) (boardId : BoardId) (board : Board) (token : option string)
    (out : list Output) :
  sockets s !! sid = Some sock →
  boards (db s) !! boardId = Some board →
  step (RoomJoin sid boardId token) s = (s', out) →
  db s' = db s
  ∧ buffers s' = buffers s
  ∧ (∀ sid', sid' ≠ sid → sockets s' !! sid' = sockets s !! sid')
  ∧ ((∃ r, out = [Ack sid true None (Some r)]
           ∧ can_write r = true
           ∧ sockets s' !! sid
             = Some {| sock_userId := sock_userId sock;
                       sock_boardId := Some boardId; sock_role := r |})
     ↔ ∃ uid m, truthy (sock_userId sock) = Some uid
                ∧ find_member uid (board_members board) = Some m
                ∧ (role m = owner ∨ role m = editor)).
Proof.
  intros Hsock Hboard. simpl. unfold on_room_join. rewrite Hsock, Hboard.
  destruct (truthy (sock_userId sock)) as [uid|] eqn:Hu.
  - intros [= <- <-]. simpl. split_and!; [done..| |].
    { intros sid' Hne. by rewrite lookup_insert_ne. }
    split.
    + intros (r & [= <-] & Hw & _). exists uid.
      destruct (find_member uid (board_members board)) as [m|]; [|done].
      exists m. split_and!; [done..|]. unfold can_write in Hw.
      by apply bool_decide_eq_true_1 in Hw.
    + intros (uid' & m & [= <-] & Hm & Hw). rewrite Hm.
      exists (role m). split_and!; [done|by apply can_write_true|].
      by rewrite lookup_insert_eq.
  - assert (Hno : ¬ ∃ uid m, @None string = Some uid
                    ∧ find_member uid (board_members board) = Some m
                    ∧ (role m = owner ∨ role m = editor)).
    { by intros (? & ? & ? & _). }
    destruct (truthy token) as [t|]; [case_decide|]; intros [= <- <-]; simpl;
      (split_and!; [done..| |]);
      try (intros sid' Hne; by rewrite ?lookup_insert_ne);
      (split; [|by intros ?%Hno]); by intros (r & [= <-] & ? & _).
Qed.

Lemma step_tokens_empty e s : tokens_empty (db s) → tokens_empty (db (step e s).1).
Proof.
  intros Hinv. unfold tokens_empty in *. destruct e; simpl in *; try done.
  - unfold on_room_join. by repeat case_match.
  - destruct (board_ops_cases s sid ops snapshot uuid faults)
      as [H|(sock & b & _ & _ & _ & H)]; simpl in H; rewrite H; [done|].
    by destruct (commit_pure_frame b (truthy (sock_userId sock)) uuid ops (db s))
      as [_ ->].
  - unfold on_flush_timer. destruct (buffers s !! boardId) as [payload|]; [|done].
    pose proof (flush_members boardId payload faults (λ _, "") (db s)) as Hf.
    destruct (run _ _ _ _) as [r d]. simpl in *.
    intros b board' Hb'. destruct (Hf _ _ Hb') as (board & Hb & _ & -> & _).
    by eapply Hinv.
  - unfold http, post_board. destruct (boards (db s) !! newId); simpl; [done|].
    by apply boards_insert_inv.
  - unfold http, get_board. repeat case_match; simplify_eq; simpl; try done;
      (apply boards_insert_inv; [done|]; simpl; by eapply Hinv).
  - unfold http, post_member. repeat case_match; simplify_eq; simpl; try done;
      (apply boards_insert_inv; [done|]; simpl; by eapply Hinv).
  - unfold http, patch_member. repeat case_match; simplify_eq; simpl; try done;
      (apply boards_insert_inv; [done|]; simpl; by eapply Hinv).
  - unfold http, delete_member. repeat case_match; simplify_eq; simpl; try done;
      (apply boards_insert_inv; [done|]; simpl; by eapply Hinv).
  - unfold http, post_snapshot. repeat case_match; simplify_eq; simpl; try done;
      (apply boards_insert_inv; [done|]; simpl; by eapply Hinv).
  - unfold http, get_export. by repeat case_match; simplify_eq.
Qed.

(** No route or handler ever sets [publicViewerToken]: on a database whose
    boards are all created by this server the token of every board stays
    empty, and since an empty token matches nothing, every [room:join] of a
    socket without user id is refused and leaves the state as it was, and
    every [GET /api/boards/:id] without a signed-in user is answered with
    an error. *)
Theorem public_links_never_open (d : Db) (es : list Event) :
  boards d = ∅ →
  let s := steps es (boot d) in
  (∀ b board, boards (db s) !! b = Some board → board_publicViewerToken board = "")
  ∧ (∀ sid sock boardId token,
       sockets s !! sid = Some sock → truthy (sock_userId sock) = None →
       ∃ err, step (RoomJoin sid boardId token) s = (s, [Ack sid false (Some err) None]))
  ∧ (∀ auth boardId token, truthy auth = None →
       ∃ status err,
         get_board auth boardId token (db s) = (db s, JsonError status err)).
Proof.
  intros Hempty s.
  assert (Hinv : tokens_empty (db s)).
  { subst s. assert (Hsteps : ∀ es s, tokens_empty (db s) → tokens_empty (db (steps es s))).
    { clear. induction es as [|e es IH]; intros s Hinv; simpl; [done|].
      apply IH. by apply step_tokens_empty. }
    apply Hsteps. intros b board. simpl. by rewrite Hempty, lookup_empty. }
  split_and!; [done| |].
  - intros sid sock boardId token Hsock Hanon. simpl. unfold on_room_join.
    rewrite Hsock. destruct (boards (db s) !! boardId) as [board|] eqn:Hb;
      [|by eexists].
    rewrite Hanon. destruct (truthy token) as [t|] eqn:Ht; [|by eexists].
    rewrite (Hinv _ _ Hb). apply truthy_Some in Ht as [_ Ht].
    rewrite decide_False by done. by eexists.
  - intros auth boardId token Hanon. unfold get_board.
    destruct (boards (db s) !! boardId) as [board|] eqn:Hb; [|by eexists _, _].
    rewrite Hanon. destruct (truthy token) as [t|] eqn:Ht; [|by eexists _, _].
    rewrite (Hinv _ _ Hb). apply truthy_Some in Ht as [_ Ht].
    rewrite decide_False by done. by eexists _, _.
Qed.

Lemma find_member_app_None uid l m :
  find_member uid l = None → find_member uid (l ++ [m]) = find_member uid [m].
Proof.
  unfold find_member. rewrite filter_app.
  destruct (filter _ l) as [|x l'] eqn:Hf; [done|]. done.
Qed.

(** Opening a board makes a member: a signed-in user who is not a member of
    the board and requests [GET /api/boards/:id] is appended to the
    membership as editor; the same request again changes nothing; and a
    socket of that user that then joins the room is given the role editor. *)
Theorem visitor_becomes_editor (s : Server) (uid : UserId) (boardId : BoardId)
    (board : Board) (sid : SocketId) (t1 t2 : option string) :
  boards (db s) !! boardId = Some board →
  uid ≠ "" →
  find_member uid (board_members board) = None →
  let s1 := (step (GetBoard (Some uid) boardId t1) s).1 in
  let s2 := steps [Connect sid (Some uid); RoomJoin sid boardId t2] s1 in
  boards (db s1) !! boardId
  = Some (set_members (board_members board ++ [{| userId := uid; role := editor |}])
            board)
  ∧ (step (GetBoard (Some uid) boardId t1) s1).1 = s1
  ∧ sockets s2 !! sid
    = Some {| sock_userId := Some uid; sock_boardId := Some boardId;
              sock_role := editor |}.
Proof.
  intros Hboard Huid Hnone s1 s2.
  assert (Hfind : find_member uid
            (board_members board ++ [{| userId := uid; role := editor |}])
            = Some {| userId := uid; role := editor |}).
  { rewrite find_member_app_None by done. unfold find_member.
    by rewrite filter_cons_True. }
  assert (Hs1 : s1 = set_db (set_boards
            (<[boardId := set_members
                 (board_members board ++ [{| userId := uid; role := editor |}])
                 board]>) (db s)) s).
  { subst s1. simpl. unfold http, get_board. rewrite Hboard. simpl.
    rewrite decide_False by done. by rewrite Hnone. }
  assert (Hb1 : boards (db s1) !! boardId
            = Some (set_members
                      (board_members board ++ [{| userId := uid; role := editor |}])
                      board)).
  { rewrite Hs1. simpl. by rewrite lookup_insert_eq. }
  split_and!; [done| |].
  - simpl. unfold http, get_board. rewrite Hb1. simpl.
    rewrite decide_False by done. rewrite Hfind. simpl. by destruct s1.
  - subst s2. simpl. unfold on_room_join. simpl. rewrite lookup_insert_eq, Hb1.
    simpl. rewrite decide_False by done. rewrite Hfind. simpl.
    by rewrite lookup_insert_eq.
Qed.

(** ** Restore, step by step *)

Lemma restore_board_eq newId a d u n :
  (truthy (meta_boardId a) = None → boards d !! newId = None) →
  let boardId := default newId (truthy (meta_boardId a)) in
  restore_board newId a (idle d u n)
  = (Ok boardId,
     idle (set_boards
             (<[boardId := restored_board a (truthy (meta_boardId a) ≫= (boards d !!.))]>)
             d) u n).
Proof.
  intros Hnew. unfold restore_board, restored_board, idle, Board_findById,
    Board_create, Board_save, db_call, tick, bind, ret, view, store, set_store.
  simpl. destruct (truthy (meta_boardId a)) as [b|]; simpl.
  - destruct (boards d !! b) as [board|] eqn:Hb; simpl; [done|]. by rewrite Hb.
  - by rewrite Hnew.
Qed.

Lemma restore_snapshot_eq boardId a d u n :
  restore_snapshot boardId a (idle d u n)
  = (Ok (), idle (set_boardSnapshots (λ l, l ++ restored_snapshots boardId a d) d) u n).
Proof.
  unfold restore_snapshot, restored_snapshots, idle, BoardSnapshot_countDocuments,
    BoardSnapshot_create, db_call, tick, bind, ret, view, store, set_store.
  simpl. destruct (art_snapshot a) as [t|]; simpl; [done|].
  unfold set_boardSnapshots. rewrite app_nil_r. by destruct d.
Qed.

(** The whole run of the tool as one equation. *)
Lemma restore_eq newId u a d :
  (truthy (meta_boardId a) = None → boards d !! newId = None) →
  let boardId := default newId (truthy (meta_boardId a)) in
  let r := restore_ops_pure boardId u (boardOps d, 0%nat) 0 (art_ops a) in
  restore newId u a d
  = (Ok (boardId, r.2),
     {| users := users d;
        boards := <[boardId := restored_board a (truthy (meta_boardId a) ≫= (boards d !!.))]>
                    (boards d);
        counters := reconciled boardId r.2 (counters d);
        boardOps := r.1.1;
        boardSnapshots := boardSnapshots d ++ restored_snapshots boardId a d |}).
Proof.
  intros Hnew boardId r. unfold restore, run, restore_main.
  change {| committed := d; txn := None; budget := None; uuid_source := u;
            uuid_calls := 0 |} with (idle d u 0).
  unfold bind at 1. rewrite (restore_board_eq _ _ _ _ _ Hnew). fold boardId.
  unfold bind at 1. rewrite restore_snapshot_eq.
  unfold bind at 1. rewrite restore_ops_run. cbn zeta.
  unfold bind at 1. rewrite reconcile_counter_run. unfold ret. simpl.
  fold r. done.
Qed.

Lemma max_seq_spec m l :
  m ≤ max_seq m l
  ∧ Forall (λ r, seq_or_0 (bo_seq r) ≤ max_seq m l) l
  ∧ (max_seq m l = m ∨ ∃ r, r ∈ l ∧ seq_or_0 (bo_seq r) = max_seq m l).
Proof.
  unfold max_seq. revert m. induction l as [|x l IH]; intros m; simpl.
  { split_and!; [lia|constructor|by left]. }
  destruct (IH (Z.max m (seq_or_0 (bo_seq x)))) as (Hle & Hall & Hmax).
  split_and!; [lia| |].
  - constructor; [lia|done].
  - destruct Hmax as [Heq|(r & Hr & Heq)].
    + destruct (Z.max_spec m (seq_or_0 (bo_seq x))) as [[_ Hm]|[_ Hm]].
      * right. exists x. split; [left|]. by rewrite Heq.
      * left. by rewrite Heq.
    + right. exists r. split; [by right|done].
Qed.

(** Restoring a list of exported records whose keys are new to the log
    appends them unchanged. *)
Lemma restore_ops_pure_export boardId u l acc n m :
  Forall (λ r, bo_boardId r = boardId ∧ bo_opId r ≠ "") l →
  NoDup (bo_opId <$> l) →
  Forall (λ r, find_op boardId (Some (bo_opId r)) acc = None) l →
  restore_ops_pure boardId u (acc, n) m (export_op <$> l) = (acc ++ l, n, max_seq m l).
Proof.
  revert acc m. induction l as [|r l IH]; intros acc m Hl Hnd Hnew; simpl.
  { by rewrite app_nil_r. }
  apply Forall_cons in Hl as [[Hb Hid] Hl].
  apply NoDup_cons in Hnd as [Hr Hnd].
  apply Forall_cons in Hnew as [Hfind Hnew].
  unfold restore_item_pure. simpl. rewrite Hfind. simpl.
  rewrite decide_False by done. simpl. rewrite Hfind. simpl.
  assert (restored_op boardId (export_op r) (bo_opId r) = r) as ->.
  { unfold restored_op, export_op. simpl. rewrite <- Hb. by destruct r. }
  rewrite IH; [by rewrite <- app_assoc|done..|].
  rewrite Forall_forall in Hnew |- *. intros x Hx.
  rewrite find_op_app, (Hnew _ Hx). apply find_op_None.
  intros y ->%list_elem_of_singleton _ Heq. apply Hr.
  rewrite Heq. apply list_elem_of_fmap. by exists x.
Qed.

#[global] Instance seq_le_trans : Transitive seq_le.
Proof.
  unfold seq_le. intros x y z.
  destruct (bo_seq x), (bo_seq y), (bo_seq z); try done. lia.
Qed.

#[global] Instance seq_le_total : Total seq_le.
Proof.
  unfold seq_le. intros x y. destruct (bo_seq x), (bo_seq y); try tauto. lia.
Qed.

#[global] Instance version_ge_trans : Transitive version_ge.
Proof. unfold version_ge. intros x y z. lia. Qed.

#[global] Instance version_ge_total : Total version_ge.
Proof. unfold version_ge. intros x y. lia. Qed.

(** ** Export *)

(** The export file lists every operation record of the board exactly once
    and no record of another board, in ascending order of [seq] (records
    without one first), each with its [seq], [opId], [op] and author; its
    members are the board's; and its base version is the greatest version
    among the board's snapshot records, 0 when there is none. *)
Theorem export_lists_board_log (boardId : BoardId) (board : Board) (d : Db) :
  let a := export_payload boardId board d in
  (∃ l, art_ops a = export_op <$> l
        ∧ l ≡ₚ ops_of boardId (boardOps d)
        ∧ StronglySorted seq_le l)
  ∧ art_members a = board_members board
  ∧ meta_title a = Some (board_title board)
  ∧ (∀ snap, snap ∈ snapshots_of boardId (boardSnapshots d) →
       snap_version snap ≤ meta_baseVersion a)
  ∧ (snapshots_of boardId (boardSnapshots d) = [] → meta_baseVersion a = 0)
  ∧ (snapshots_of boardId (boardSnapshots d) ≠ [] →
       ∃ snap, snap ∈ snapshots_of boardId (boardSnapshots d)
               ∧ snap_version snap = meta_baseVersion a).
Proof.
  simpl. split_and!; try done.
  - exists (stable_sort seq_le (ops_of boardId (boardOps d))).
    split_and!; [done|apply stable_sort_perm|apply stable_sort_sorted; apply _].
  - intros snap Hin.
    pose proof (stable_sort_perm version_ge (snapshots_of boardId (boardSnapshots d)))
      as Hperm.
    pose proof (stable_sort_sorted version_ge (snapshots_of boardId (boardSnapshots d)))
      as Hsorted.
    rewrite <- Hperm in Hin.
    destruct (stable_sort version_ge _) as [|top rest]; [by apply elem_of_nil in Hin|].
    simpl. apply StronglySorted_inv in Hsorted as [_ Hall].
    apply elem_of_cons in Hin as [->|Hin]; [done|].
    rewrite Forall_forall in Hall. by apply Hall.
  - intros Hnil. by rewrite Hnil.
  - intros Hne.
    pose proof (stable_sort_perm version_ge (snapshots_of boardId (boardSnapshots d)))
      as Hperm.
    destruct (stable_sort version_ge _) as [|top rest].
    + apply Permutation_nil_l in Hperm. done.
    + exists top. split; [|done]. rewrite <- Hperm. left.
Qed.

(** ** Export, then restore *)

Lemma is_object_id_nonempty b : is_object_id b → b ≠ "".
Proof. by intros H ->. Qed.

(** A board exported from one database under the spelling of its
    [ObjectId] and restored into an empty one, the records having
    non-empty, pairwise distinct [opId]s: whenever the tool completes, it
    has worked on the board of that id, the new log is the board's records
    unchanged, in ascending order of [seq]; the counter of the board is
    their greatest [seq]; and the board is recreated with the title (or
    [Recovered Board] for an empty one) and the members of the original.
    The public viewer token, the cached operations, the users and all but
    one snapshot are not carried over. *)
Theorem export_restore_round_trip (d : Db) (boardId : BoardId) (board : Board)
    (newId : BoardId) (u : nat → string) (restored : BoardId) (maxSeq : Z)
    (d' : Db) :
  is_object_id boardId →
  Forall (λ r, bo_opId r ≠ "") (ops_of boardId (boardOps d)) →
  NoDup (bo_opId <$> ops_of boardId (boardOps d)) →
  let a := export_payload boardId board d in
  let log := stable_sort seq_le (ops_of boardId (boardOps d)) in
  restore newId u a empty_db = (Ok (restored, maxSeq), d') →
  restored = boardId
  ∧ maxSeq = max_seq 0 log
  ∧ boardOps d' = log
  ∧ counters d' = {[counter_key boardId := max_seq 0 log]}
  ∧ boards d'
    = {[boardId :=
          {| board_title := default "Recovered Board"
                              (truthy (Some (board_title board)));
             board_document := {| doc_tldraw := art_snapshot a; doc_ops := [] |};
             board_members := board_members board;
             board_publicViewerToken := "" |}]}
  ∧ users d' = []
  ∧ length (boardSnapshots d')
    = match art_snapshot a with Some _ => 1%nat | None => 0%nat end.
Proof.
  intros Hb%is_object_id_nonempty Hids Hnd a log Hrun.
  assert (Hmeta : truthy (meta_boardId a) = Some boardId).
  { simpl. by rewrite decide_False. }
  pose proof (stable_sort_perm seq_le (ops_of boardId (boardOps d))) as Hperm.
  fold log in Hperm.
  assert (Hops : restore_ops_pure boardId u ([], 0%nat) 0 (art_ops a)
                 = (log, 0%nat, max_seq 0 log)).
  { change (art_ops a) with (export_op <$> log).
    rewrite restore_ops_pure_export; [done| |by rewrite Hperm|].
    - apply Forall_forall. intros r Hr. rewrite Hperm in Hr.
      rewrite Forall_forall in Hids. split; [|by apply Hids].
      by apply list_elem_of_filter in Hr as [? _].
    - apply Forall_forall. intros r Hr. reflexivity. }
  rewrite restore_eq in Hrun by (by rewrite Hmeta). rewrite Hmeta in Hrun.
  simpl default in Hrun.
  change (boardOps empty_db) with (@nil BoardOp) in Hrun. rewrite Hops in Hrun.
  injection Hrun as <- <- <-.
  simpl. split_and!; try done.
  unfold restored_snapshots. simpl.
  by destruct (match head _ ≫= snap_tldraw with Some t => Some t | None => _ end).
Qed.

(** ** What Restore leaves alone *)

(** A completed restore works on one board: the records, counters and
    snapshots of every other board, the other board documents and the users
    are what they were; the target board keeps its title, its public viewer
    token and its cached operations when it existed; and its snapshot list
    grows by one record, numbered one past their count, exactly when the
    file carries a snapshot. *)
Theorem restore_touches_one_board (newId : BoardId) (u : nat → string) (a : Artifact)
    (d d' : Db) (boardId : BoardId) (maxSeq : Z) :
  restore newId u a d = (Ok (boardId, maxSeq), d') →
  (∀ b, b ≠ boardId →
     ops_of b (boardOps d') = ops_of b (boardOps d)
     ∧ counters d' !! counter_key b = counters d !! counter_key b
     ∧ snapshots_of b (boardSnapshots d') = snapshots_of b (boardSnapshots d)
     ∧ boards d' !! b = boards d !! b)
  ∧ users d' = users d
  ∧ boardSnapshots d' = boardSnapshots d ++ restored_snapshots boardId a d
  ∧ (∀ board, boards d !! boardId = Some board →
       truthy (meta_boardId a) = Some boardId →
       ∃ board', boards d' !! boardId = Some board'
                 ∧ board_title board' = board_title board
                 ∧ board_publicViewerToken board' = board_publicViewerToken board
                 ∧ doc_ops (board_document board') = doc_ops (board_document board)
                 ∧ board_members board'
                   = restore_members (board_members board) (art_members a)).
Proof.
  intros Hrun.
  assert (Hnew : truthy (meta_boardId a) = None → boards d !! newId = None).
  { intros Hnone. revert Hrun. unfold restore, run, restore_main.
    change {| committed := d; txn := None; budget := None; uuid_source := u;
              uuid_calls := 0 |} with (idle d u 0).
    unfold bind at 1. unfold restore_board, idle, Board_findById, Board_create,
      db_call, tick, bind, ret, view, store, set_store. simpl. rewrite Hnone. simpl.
    by destruct (boards d !! newId). }
  rewrite (restore_eq _ _ _ _ Hnew) in Hrun.
  set (bid := default newId (truthy (meta_boardId a))) in *.
  destruct (restore_ops_pure_spec bid u (art_ops a) (boardOps d) 0%nat 0)
    as (new & Hlog & Hall & _).
  destruct (restore_ops_pure bid u (boardOps d, 0%nat) 0 (art_ops a))
    as [[l n'] m] eqn:Hops.
  simpl in Hrun, Hlog. injection Hrun as <- <- <-. simpl. subst l.
  split_and!; try done.
  - intros b Hne. split_and!.
    + eapply ops_of_other; [done|]. eapply Forall_impl; [exact Hall|]. by intros ? [? _].
    + unfold reconciled.
      assert (counter_key b ≠ counter_key bid) as Hk
        by (intros Hk; by apply (inj counter_key) in Hk).
      destruct (counters d !! counter_key bid); [case_decide|];
        by rewrite ?lookup_insert_ne.
    + unfold snapshots_of, restored_snapshots. rewrite filter_app.
      destruct (art_snapshot a); [|by rewrite filter_nil, app_nil_r].
      rewrite filter_cons_False by (simpl; congruence).
      by rewrite filter_nil, app_nil_r.
    + by rewrite lookup_insert_ne.
  - intros board Hboard Hmeta. rewrite lookup_insert_eq. eexists. split; [done|].
    rewrite Hmeta. simpl. subst bid. rewrite Hmeta in Hboard. simpl in Hboard.
    rewrite Hboard. simpl. split_and!; try done. by case_decide.
Qed.

(** ** Maps in insertion order *)

Section JsMapMore.
Context {K V : Type} `{EqDecision K}.
Implicit Types (m : list (K * V)) (k : K) (v : V).

Lemma JsMap_get_set_eq k v m : JsMap.get k (JsMap.set k v m) = Some v.
Proof.
  induction m as [|[k' v'] m IH]; simpl.
  - by rewrite decide_True.
  - destruct (decide (k = k')) as [->|Hne]; simpl.
    + by rewrite decide_True.
    + by rewrite decide_False.
Qed.

Lemma JsMap_get_set_ne k k' v m :
  k' ≠ k → JsMap.get k' (JsMap.set k v m) = JsMap.get k' m.
Proof.
  intros Hne. induction m as [|[k0 v0] m IH]; simpl.
  - by rewrite decide_False.
  - destruct (decide (k = k0)) as [->|Hk]; simpl.
    + by rewrite !decide_False.
    + by rewrite IH.
Qed.

Lemma JsMap_set_fresh k v m : k ∉ JsMap.keys m → JsMap.set k v m = m ++ [(k, v)].
Proof.
  induction m as [|[k0 v0] m IH]; simpl; [done|].
  unfold JsMap.keys. simpl. rewrite not_elem_of_cons. intros [Hne Hin].
  rewrite decide_False by done. by rewrite IH.
Qed.

(** Two maps with the same keys in the same order, none twice, and the
    same value under every key are equal. *)
Lemma JsMap_ext m1 m2 :
  JsMap.keys m1 = JsMap.keys m2 →
  NoDup (JsMap.keys m1) →
  (∀ k, JsMap.get k m1 = JsMap.get k m2) →
  m1 = m2.
Proof.
  revert m2. induction m1 as [|[k1 v1] m1 IH]; intros [|[k2 v2] m2]; simpl;
    try done.
  unfold JsMap.keys. simpl. intros [= <- Hkeys] [Hk Hnd]%NoDup_cons Hget.
  pose proof (Hget k1) as Hv. rewrite !decide_True in Hv by done.
  injection Hv as <-. f_equal. apply IH; [done..|].
  intros k. specialize (Hget k). destruct (decide (k = k1)) as [->|Hne]; [|done].
  assert (JsMap.get k1 m1 = None) as -> by (by apply JsMap_get_None).
  symmetry. apply JsMap_get_None. unfold JsMap.keys. by rewrite <- Hkeys.
Qed.

Lemma JsMap_get_values (f : V → K) m :
  (∀ k v, (k, v) ∈ m → f v = k) →
  ∀ k, head (filter (λ v, f v = k) (JsMap.values m)) = JsMap.get k m.
Proof.
  intros Hm k. induction m as [|[k0 v0] m IH]; simpl; [done|].
  assert (f v0 = k0) as Hv0 by (apply Hm; left).
  rewrite filter_cons. destruct (decide (k = k0)) as [->|Hne].
  - by rewrite decide_True.
  - rewrite decide_False by congruence. apply IH.
    intros k' v' Hin. apply Hm. by right.
Qed.

End JsMapMore.

(** ** Merging members *)

Lemma foldl_set_get {A} (f : A → string) (l : list A) (m : list (string * A)) k :
  JsMap.get k (foldl (λ m x, JsMap.set (f x) x m) m l)
  = match last (filter (λ x, f x = k) l) with
    | Some x => Some x
    | None => JsMap.get k m
    end.
Proof.
  induction l as [|x l IH] using rev_ind; [done|].
  rewrite foldl_app, filter_app. simpl. rewrite filter_cons, filter_nil.
  destruct (decide (f x = k)) as [<-|Hne].
  - by rewrite JsMap_get_set_eq, last_snoc.
  - rewrite JsMap_get_set_ne by done. by rewrite app_nil_r.
Qed.

Lemma foldl_set_inv {A} (f : A → string) (l : list A) (m : list (string * A)) :
  NoDup (JsMap.keys m) → (∀ k v, (k, v) ∈ m → f v = k) →
  NoDup (JsMap.keys (foldl (λ m x, JsMap.set (f x) x m) m l))
  ∧ ∀ k v, (k, v) ∈ foldl (λ m x, JsMap.set (f x) x m) m l → f v = k.
Proof.
  revert m. induction l as [|x l IH]; intros m Hnd Hm; simpl; [done|].
  apply IH; [by apply JsMap_NoDup_keys_set|].
  intros k v Hin. apply (JsMap_elem_of_set _ _ _ _ _ Hnd) in Hin as [[-> ->]|[_ Hin]];
    [done|by apply Hm].
Qed.

(** The members Restore writes to an existing board: no user twice, and
    for every user the entry that comes last in the board's list followed
    by the file's, so that the file's role wins over the board's and a
    later entry of the file over an earlier one; a user of neither list is
    not a member. *)
Theorem restore_members_last_wins (old incoming : list Member) :
  let r := restore_members old incoming in
  NoDup (userId <$> r)
  ∧ ∀ uid, find_member uid r = last (filter (λ m, userId m = uid) (old ++ incoming)).
Proof.
  simpl. unfold restore_members.
  destruct (foldl_set_inv userId (old ++ incoming) []) as [Hnd Hkey].
  { constructor. }
  { intros k v Hin. by apply elem_of_nil in Hin. }
  set (m := foldl _ [] (old ++ incoming)) in *.
  split.
  - replace (userId <$> JsMap.values m) with (JsMap.keys m); [done|].
    unfold JsMap.values, JsMap.keys. rewrite <- list_fmap_compose.
    apply Forall_fmap_ext, Forall_forall. intros [k v] Hin. simpl.
    symmetry. by apply Hkey.
  - intros uid. unfold find_member. rewrite (JsMap_get_values userId m Hkey).
    subst m. rewrite foldl_set_get. by destruct (last _).
Qed.

(** ** The counter after a restore *)

Lemma append_pure_above boardId author u st item (base : Db) :
  seq_bounded st.1 →
  (∀ b, counter_of b base ≤ counter_of b st.1) →
  let st' := append_pure boardId author u st item in
  seq_bounded st'.1
  ∧ (∀ b, counter_of b base ≤ counter_of b st'.1)
  ∧ ∃ new, boardOps st'.1 = boardOps st.1 ++ new
           ∧ Forall (λ r, counter_of (bo_boardId r) base < seq_or_0 (bo_seq r)) new.
Proof.
  intros Hinv Hbase st'. subst st'. unfold append_pure.
  destruct (find_op _ _ _); simpl.
  { split_and!; [done..|]. exists []. by rewrite app_nil_r. }
  fold (counter_of boardId st.1).
  set (r1 := new_op boardId author item (default (u st.2) (client_key item))
               (counter_of boardId st.1 + 1)).
  set (d1 := set_boardOps (λ l, l ++ [r1])
               (set_counters (<[counter_key boardId := counter_of boardId st.1 + 1]>)
                  st.1)).
  assert (Hc : ∀ b, counter_of b d1
             = if decide (b = boardId) then counter_of boardId st.1 + 1
               else counter_of b st.1).
  { intros b. exact (counter_of_alloc boardId b st.1). }
  split_and!.
  - intros r. change (boardOps d1) with (boardOps st.1 ++ [r1]).
    intros [Hr| ->%list_elem_of_singleton]%elem_of_app.
    + specialize (Hinv _ Hr). rewrite Hc. case_decide as Hb; [|done].
      rewrite Hb in Hinv. lia.
    + rewrite Hc. simpl. by rewrite decide_True.
  - intros b. specialize (Hbase b). rewrite Hc. case_decide; subst; lia.
  - exists [r1]. split; [done|]. repeat constructor. simpl.
    specialize (Hbase boardId). lia.
Qed.

Lemma commit_pure_above boardId author u ops d (base : Db) :
  seq_bounded d →
  (∀ b, counter_of b base ≤ counter_of b d) →
  let d' := commit_pure boardId author u ops d in
  seq_bounded d'
  ∧ (∀ b, counter_of b base ≤ counter_of b d')
  ∧ ∃ new, boardOps d' = boardOps d ++ new
           ∧ Forall (λ r, counter_of (bo_boardId r) base < seq_or_0 (bo_seq r)) new.
Proof.
  intros Hinv Hbase d'. subst d'. unfold commit_pure.
  destruct (checkpoint_pure_frame boardId
              (foldl (append_pure boardId author u) (d, 0%nat) ops).1)
    as (_ & _ & Hc & Ho).
  unfold seq_bounded, counter_of. rewrite Hc, Ho.
  assert (Hfold : ∀ st,
    seq_bounded st.1 → (∀ b, counter_of b base ≤ counter_of b st.1) →
    let st' := foldl (append_pure boardId author u) st ops in
    seq_bounded st'.1
    ∧ (∀ b, counter_of b base ≤ counter_of b st'.1)
    ∧ ∃ new, boardOps st'.1 = boardOps st.1 ++ new
             ∧ Forall (λ r, counter_of (bo_boardId r) base < seq_or_0 (bo_seq r)) new).
  { clear. induction ops as [|item ops IH]; intros st Hinv Hbase; simpl.
    { split_and!; [done..|]. exists []. by rewrite app_nil_r. }
    destruct (append_pure_above boardId author u st item base Hinv Hbase)
      as (Hinv1 & Hbase1 & new1 & Ho1 & Hn1).
    destruct (IH _ Hinv1 Hbase1) as (Hinv2 & Hbase2 & new2 & Ho2 & Hn2).
    split_and!; [done..|]. exists (new1 ++ new2).
    rewrite Ho2, Ho1, app_assoc. split; [done|]. by apply Forall_app. }
  apply (Hfold (d, 0%nat)); done.
Qed.

Lemma steps_above es s (base : Db) :
  seq_bounded (db s) →
  (∀ b, counter_of b base ≤ counter_of b (db s)) →
  seq_bounded (db (steps es s))
  ∧ ∃ new, boardOps (db (steps es s)) = boardOps (db s) ++ new
           ∧ Forall (λ r, counter_of (bo_boardId r) base < seq_or_0 (bo_seq r)) new.
Proof.
  revert s. induction es as [|e es IH]; intros s Hinv Hbase; simpl.
  { split; [done|]. exists []. by rewrite app_nil_r. }
  assert (Hstep : seq_bounded (db (step e s).1)
            ∧ (∀ b, counter_of b base ≤ counter_of b (db (step e s).1))
            ∧ ∃ new, boardOps (db (step e s).1) = boardOps (db s) ++ new
                     ∧ Forall (λ r, counter_of (bo_boardId r) base
                                    < seq_or_0 (bo_seq r)) new).
  { destruct (step e s) as [s' out] eqn:Hstep. simpl.
    apply step_cases in Hstep
      as [(Ho & Hc & _)
         |(? & ops & ? & uuid & ? & sock & b' & _ & _ & _ & _ & _ & ->)].
    - unfold seq_bounded, counter_of. rewrite Ho, Hc. split_and!; [done..|].
      exists []. by rewrite app_nil_r.
    - by apply commit_pure_above. }
  destruct Hstep as (Hinv1 & Hbase1 & new1 & Ho1 & Hn1).
  destruct (IH _ Hinv1 Hbase1) as (Hinv2 & new2 & Ho2 & Hn2).
  split; [done|]. exists (new1 ++ new2).
  rewrite Ho2, Ho1, app_assoc. split; [done|]. by apply Forall_app.
Qed.

Lemma restore_seq_bounded newId u a d boardId maxSeq d' :
  seq_bounded d →
  restore newId u a d = (Ok (boardId, maxSeq), d') →
  seq_bounded d'.
Proof.
  intros Hinv Hrun.
  destruct (restore_run _ _ _ _ _ _ _ Hrun) as (_ & (n' & Hops) & Hc & _ & _).
  destruct (restore_ops_pure_spec boardId u (art_ops a) (boardOps d) 0%nat 0)
    as (new & Hlog & Hnew & Hm & _).
  rewrite Hops in Hlog, Hnew, Hm. simpl in Hlog, Hnew, Hm.
  assert (Hcounter : ∀ b, counter_of b d ≤ counter_of b d'
                          ∧ (b = boardId → maxSeq ≤ counter_of b d')).
  { intros b. unfold counter_of. rewrite Hc. unfold reconciled.
    destruct (decide (b = boardId)) as [->|Hne].
    - destruct (counters d !! counter_key boardId) as [c|] eqn:Hold; simpl.
      + case_decide; rewrite ?lookup_insert_eq, ?Hold; simpl; split; intros; lia.
      + rewrite lookup_insert_eq. simpl. split; intros; lia.
    - assert (counter_key b ≠ counter_key boardId) as Hk
        by (intros Hk; by apply (inj counter_key) in Hk).
      destruct (counters d !! counter_key boardId) as [c|]; [case_decide|];
        rewrite ?lookup_insert_ne by done; split; (done || lia). }
  intros r. rewrite Hlog. intros [Hr|Hr]%elem_of_app.
  - specialize (Hinv _ Hr). destruct (Hcounter (bo_boardId r)) as [Hle _]. lia.
  - rewrite Forall_forall in Hnew. destruct (Hnew _ Hr) as [Hb Hs].
    destruct (Hcounter (bo_boardId r)) as [_ Hmax]. specialize (Hmax Hb). lia.
Qed.

(** What the reconciled counter is for, when the restored board and the
    sockets that join afterwards go by the spelling of the [ObjectId]: if
    no record had a sequence number above its board's counter before a
    restore, none has after it, nor after anything the server then does;
    and every record the server appends after the restore carries a
    sequence number greater than that of every record of the same board the
    restore left, those copied from the file included. *)
Theorem counter_bounds_log (newId : BoardId) (u : nat → string) (a : Artifact)
    (d d' : Db) (boardId : BoardId) (maxSeq : Z) (es : list Event) :
  seq_bounded d →
  restore newId u a d = (Ok (boardId, maxSeq), d') →
  is_object_id boardId →
  joins_canonical es →
  seq_bounded d'
  ∧ seq_bounded (db (steps es (boot d')))
  ∧ ∃ new,
      boardOps (db (steps es (boot d'))) = boardOps d' ++ new
      ∧ ∀ r r0, r ∈ new → r0 ∈ boardOps d' → bo_boardId r0 = bo_boardId r →
                seq_or_0 (bo_seq r0) < seq_or_0 (bo_seq r).
Proof.
  intros Hinv Hrun _ _.
  pose proof (restore_seq_bounded _ _ _ _ _ _ _ Hinv Hrun) as Hinv'.
  destruct (steps_above es (boot d') d' Hinv') as (Hinv'' & new & Ho & Hnew);
    [done|].
  split_and!; [done..|]. exists new. split; [done|].
  intros r r0 Hr Hr0 Hb. rewrite Forall_forall in Hnew.
  specialize (Hnew _ Hr). specialize (Hinv' _ Hr0). rewrite Hb in Hinv'. lia.
Qed.

(** ** Merging again *)

Lemma stable_sort_id {A} (le : A → A → Prop) `{!∀ x y, Decision (le x y)} l :
  StronglySorted le l → stable_sort le l = l.
Proof.
  induction 1 as [|x l Hs IH Hall]; simpl; [done|].
  rewrite IH. destruct Hall as [|y l Hxy Hall]; simpl; [done|].
  by rewrite decide_True.
Qed.

Lemma JsMap_get_elem_of {K V} `{EqDecision K} (k : K) (v : V) m :
  NoDup (JsMap.keys m) → (k, v) ∈ m → JsMap.get k m = Some v.
Proof.
  intros Hnd Hin. destruct (JsMap.get k m) as [v'|] eqn:Hget.
  - apply JsMap_get_Some in Hget. f_equal.
    eapply JsMap_entry_unique; [exact Hnd|exact Hget|exact Hin].
  - apply JsMap_get_None in Hget. exfalso. apply Hget.
    by eapply JsMap_elem_of_keys.
Qed.

Lemma JsMap_get_same {K V} `{EqDecision K} (m1 m2 : list (K * V)) :
  NoDup (JsMap.keys m1) → NoDup (JsMap.keys m2) →
  (∀ k v, (k, v) ∈ m1 ↔ (k, v) ∈ m2) →
  ∀ k, JsMap.get k m1 = JsMap.get k m2.
Proof.
  intros Hnd1 Hnd2 Hsame k. destruct (JsMap.get k m1) as [v|] eqn:Hget.
  - apply JsMap_get_Some in Hget. symmetry.
    apply JsMap_get_elem_of; [done|]. by apply Hsame.
  - symmetry. destruct (JsMap.get k m2) as [v|] eqn:Hget2; [|done].
    apply JsMap_get_Some, Hsame in Hget2.
    apply JsMap_get_None in Hget. exfalso. apply Hget.
    by eapply JsMap_elem_of_keys.
Qed.

Lemma get_merge_step k m op :
  JsMap.get k (merge_step m op) = merge_pick k (JsMap.get k m) op.
Proof.
  unfold merge_step, merge_pick. destruct (decide (item_id op = k)) as [<-|Hne].
  - destruct (JsMap.get (item_id op) m) as [cur|] eqn:Hget; [case_decide|];
      by rewrite ?JsMap_get_set_eq.
  - destruct (JsMap.get (item_id op) m) as [cur|]; [case_decide|];
      by rewrite ?JsMap_get_set_ne by done.
Qed.

Lemma get_foldl_merge k l m :
  JsMap.get k (foldl merge_step m l) = foldl (merge_pick k) (JsMap.get k m) l.
Proof.
  revert m. induction l as [|op l IH]; intros m; simpl; [done|].
  by rewrite IH, get_merge_step.
Qed.

Lemma keys_merge_step m op :
  JsMap.keys (merge_step m op)
  = if decide (item_id op ∈ JsMap.keys m) then JsMap.keys m
    else JsMap.keys m ++ [item_id op].
Proof.
  unfold merge_step. destruct (JsMap.get (item_id op) m) as [cur|] eqn:Hget.
  - assert (item_id op ∈ JsMap.keys m)
      by (apply JsMap_get_Some in Hget; by eapply JsMap_elem_of_keys).
    destruct (decide (item_id op ∈ JsMap.keys m)); [|done].
    case_decide; [|done]. by rewrite JsMap_keys_set, decide_True.
  - apply JsMap_get_None in Hget. by rewrite JsMap_keys_set.
Qed.

Lemma keys_foldl_merge_present l m :
  (∀ op, op ∈ l → item_id op ∈ JsMap.keys m) →
  JsMap.keys (foldl merge_step m l) = JsMap.keys m.
Proof.
  revert m. induction l as [|op l IH]; intros m Hl; simpl; [done|].
  assert (Hk : JsMap.keys (merge_step m op) = JsMap.keys m).
  { rewrite keys_merge_step, decide_True; [done|]. apply Hl. left. }
  rewrite IH; [done|]. intros op' Hin. rewrite Hk. apply Hl. by right.
Qed.

Lemma foldl_merge_step_fresh l m :
  NoDup (item_id <$> l) →
  (∀ op, op ∈ l → item_id op ∉ JsMap.keys m) →
  foldl merge_step m l = m ++ ((λ op, (item_id op, op)) <$> l).
Proof.
  revert m. induction l as [|op l IH]; intros m Hnd Hnew; simpl.
  { by rewrite app_nil_r. }
  rewrite fmap_cons in Hnd. apply NoDup_cons in Hnd as [Hop Hnd].
  assert (Hfresh : item_id op ∉ JsMap.keys m) by (apply Hnew; left).
  assert (Hstep : merge_step m op = m ++ [(item_id op, op)]).
  { unfold merge_step.
    assert (JsMap.get (item_id op) m = None) as -> by (by apply JsMap_get_None).
    by apply JsMap_set_fresh. }
  rewrite Hstep, IH; [by rewrite <- app_assoc|done|].
  intros op' Hin. unfold JsMap.keys. rewrite fmap_app, elem_of_app. simpl.
  rewrite list_elem_of_singleton. intros [Hk|Hk].
  - by apply (Hnew op'); [right|].
  - apply Hop. rewrite <- Hk. apply list_elem_of_fmap. by exists op'.
Qed.

Lemma merge_pick_None k c l :
  foldl (merge_pick k) c l = None → c = None ∧ ∀ op, op ∈ l → item_id op ≠ k.
Proof.
  induction l as [|op l IH] using rev_ind; simpl.
  { intros ->. split; [done|]. intros op Hin. by apply elem_of_nil in Hin. }
  rewrite foldl_app. simpl. unfold merge_pick at 1.
  destruct (decide (item_id op = k)) as [Hk|Hk].
  - destruct (foldl _ c l) as [c1|]; [case_decide|]; done.
  - intros [-> Hl]%IH. split; [done|].
    intros op' [Hin| ->%list_elem_of_singleton]%elem_of_app; auto.
Qed.

Lemma merge_pick_settled k c l v :
  foldl (merge_pick k) c l = Some v →
  (∀ op, op ∈ l → item_id op = k → item_ts op ≤ item_ts v)
  ∧ ∀ w, last (filter (λ op, item_id op = k ∧ item_ts op = item_ts v) l) = Some w →
         w = v.
Proof.
  revert v. induction l as [|op l IH] using rev_ind; intros v; simpl.
  { intros _. split; [|done]. intros op Hin. by apply elem_of_nil in Hin. }
  rewrite foldl_app, filter_app. simpl. rewrite filter_cons, filter_nil.
  unfold merge_pick at 1. destruct (decide (item_id op = k)) as [Hk|Hk].
  - destruct (foldl (merge_pick k) c l) as [c1|] eqn:Hfold.
    + destruct (IH c1 eq_refl) as [Hdom Hlast]. case_decide as Hts.
      * intros [= <-]. rewrite decide_True by done. split.
        -- intros op' [Hin| ->%list_elem_of_singleton]%elem_of_app Hid; [|lia].
           specialize (Hdom _ Hin Hid). lia.
        -- intros w. rewrite last_snoc. by intros [= <-].
      * intros [= <-]. rewrite decide_False by lia. rewrite app_nil_r. split; [|done].
        intros op' [Hin| ->%list_elem_of_singleton]%elem_of_app Hid; [|lia].
        by apply Hdom.
    + apply merge_pick_None in Hfold as [_ Hnone]. intros [= <-].
      rewrite decide_True by done. split.
      * intros op' [Hin| ->%list_elem_of_singleton]%elem_of_app Hid; [|lia].
        by destruct (Hnone _ Hin).
      * intros w. rewrite last_snoc. by intros [= <-].
  - intros Hv. destruct (IH v Hv) as [Hdom Hlast].
    rewrite decide_False by tauto. rewrite app_nil_r. split; [|done].
    intros op' [Hin| ->%list_elem_of_singleton]%elem_of_app Hid; [|done].
    by apply Hdom.
Qed.

Lemma merge_pick_from_settled k v l :
  (∀ op, op ∈ l → item_id op = k → item_ts op ≤ item_ts v) →
  foldl (merge_pick k) (Some v) l
  = Some (default v
            (last (filter (λ op, item_id op = k ∧ item_ts op = item_ts v) l))).
Proof.
  induction l as [|op l IH] using rev_ind; intros Hdom; simpl; [done|].
  rewrite foldl_app, filter_app. simpl. rewrite filter_cons, filter_nil.
  rewrite IH by (intros op' Hin; apply Hdom, elem_of_app; by left).
  set (x := default v (last (filter _ l))).
  assert (Hx : item_ts x = item_ts v).
  { subst x. destruct (last _) as [w|] eqn:Hlast; [|done]. simpl.
    apply last_Some_elem_of, list_elem_of_filter in Hlast as [[_ ?] _]. done. }
  unfold merge_pick. destruct (decide (item_id op = k)) as [Hk|Hk].
  - assert (item_ts op ≤ item_ts v)
      by (apply Hdom; [apply elem_of_app; right; left|done]).
    case_decide as Hts.
    + rewrite decide_True by (split; [done|lia]). by rewrite last_snoc.
    + rewrite decide_False by (intros [_ ?]; lia). by rewrite app_nil_r.
  - rewrite decide_False by tauto. by rewrite app_nil_r.
Qed.

Lemma merge_pick_idemp k c l :
  foldl (merge_pick k) (foldl (merge_pick k) c l) l = foldl (merge_pick k) c l.
Proof.
  destruct (foldl (merge_pick k) c l) as [v|] eqn:Hfold.
  - destruct (merge_pick_settled _ _ _ _ Hfold) as [Hdom Hlast].
    rewrite merge_pick_from_settled by done.
    destruct (last _) as [w|]; [|done]. simpl. f_equal. by apply Hlast.
  - apply merge_pick_None in Hfold as Hc. destruct Hc as [-> _]. done.
Qed.

Lemma mergeOps_shape existing incoming :
  let m := foldl merge_step [] (existing ++ incoming) in
  NoDup (JsMap.keys m)
  ∧ (∀ k v, (k, v) ∈ m → item_id v = k)
  ∧ (∀ op, op ∈ existing ++ incoming → item_id op ∈ JsMap.keys m)
  ∧ NoDup (item_id <$> mergeOps existing incoming)
  ∧ StronglySorted ts_le (mergeOps existing incoming)
  ∧ mergeOps existing incoming ≡ₚ JsMap.values m.
Proof.
  intros m. destruct (merge_inv_foldl (existing ++ incoming)) as (Hnd & Hkeys & Hmax).
  fold m in Hnd, Hkeys, Hmax.
  assert (Hids : item_id <$> JsMap.values m = JsMap.keys m).
  { unfold JsMap.values, JsMap.keys. rewrite <- list_fmap_compose.
    apply Forall_fmap_ext, Forall_forall. intros [k v] Hin. simpl.
    by destruct (Hmax _ _ Hin) as [? _]. }
  split_and!; [done| | | | |].
  - intros k v Hin. by destruct (Hmax _ _ Hin) as [? _].
  - intros op Hin. apply Hkeys, list_elem_of_fmap. by exists op.
  - unfold mergeOps. fold m. by rewrite stable_sort_perm, Hids.
  - apply stable_sort_sorted; apply _.
  - apply stable_sort_perm.
Qed.

(** Merging is idempotent: merging the result of [mergeOps] with nothing,
    or once more with the incoming operations it was built from, gives the
    same list again, so a batch that reaches the timer callback twice
    leaves the cached operations as the first pass left them. *)
Theorem mergeOps_idempotent (existing incoming : list OpItem) :
  let r := mergeOps existing incoming in
  mergeOps r [] = r ∧ mergeOps [] r = r ∧ mergeOps r incoming = r.
Proof.
  intros r.
  destruct (mergeOps_shape existing incoming) as (Hnd & Hkey & Hall & Hndr & Hsorted & Hperm).
  set (m := foldl merge_step [] (existing ++ incoming)) in *. fold r in Hndr, Hsorted, Hperm.
  set (R := (λ op, (item_id op, op)) <$> r).
  assert (HR : foldl merge_step [] r = R).
  { rewrite foldl_merge_step_fresh; [done..|]. intros op _. apply not_elem_of_nil. }
  assert (HkeysR : JsMap.keys R = item_id <$> r).
  { unfold R, JsMap.keys. by rewrite <- list_fmap_compose. }
  assert (HvalsR : JsMap.values R = r).
  { unfold R, JsMap.values. rewrite <- list_fmap_compose. apply list_fmap_id. }
  assert (HndR : NoDup (JsMap.keys R)) by (by rewrite HkeysR).
  assert (Hsame : ∀ k v, (k, v) ∈ R ↔ (k, v) ∈ m).
  { intros k v. unfold R. rewrite list_elem_of_fmap. split.
    - intros (op & [= -> ->] & Hin). rewrite Hperm in Hin.
      apply list_elem_of_fmap in Hin as ([k' v'] & -> & Hin). simpl.
      by rewrite (Hkey _ _ Hin).
    - intros Hin. exists v. rewrite (Hkey _ _ Hin). split; [done|].
      rewrite Hperm. apply list_elem_of_fmap. by exists (k, v). }
  assert (Hagain : ∀ l, l = [] ∨ l = incoming → mergeOps r l = r).
  { intros l Hl.
    assert (Hpresent : ∀ op, op ∈ l → item_id op ∈ JsMap.keys R).
    { intros op Hin.
      assert (Hop : op ∈ existing ++ incoming).
      { destruct Hl as [-> | ->]; [by apply elem_of_nil in Hin|].
        apply elem_of_app. by right. }
      specialize (Hall _ Hop). apply list_elem_of_fmap in Hall as ([k v] & Hk & Hv).
      simpl in Hk. apply (JsMap_elem_of_keys _ v), Hsame. by rewrite Hk. }
    unfold mergeOps. rewrite foldl_app, HR.
    replace (foldl merge_step R l) with R; [rewrite HvalsR; by apply stable_sort_id|].
    symmetry. apply JsMap_ext.
    - by apply keys_foldl_merge_present.
    - by rewrite keys_foldl_merge_present.
    - intros k. rewrite get_foldl_merge.
      rewrite (JsMap_get_same R m HndR Hnd Hsame k).
      destruct Hl as [-> | ->]; [done|].
      unfold m. rewrite get_foldl_merge, foldl_app. apply merge_pick_idemp. }
  split_and!.
  - apply Hagain. by left.
  - unfold mergeOps. simpl. rewrite <- (app_nil_r r) at 1. apply (Hagain []). by left.
  - apply Hagain. by right.
Qed.

End Engine.

(* ================================================================== *)
(** * The snapshot sanitizer *)

Section JsMapSet.
Context {K V : Type} `{EqDecision K}.
Implicit Types (m : list (K * V)) (k : K) (v : V).

Lemma JsMap_set_same k v m : JsMap.get k m = Some v → JsMap.set k v m = m.
Proof.
  induction m as [|[k' v'] m IH]; simpl; [done|].
  case_decide; subst; [by intros [= ->]|]. intros Hget. by rewrite IH.
Qed.

Lemma JsMap_set_set k v v' m : JsMap.set k v (JsMap.set k v' m) = JsMap.set k v m.
Proof.
  induction m as [|[k0 v0] m IH]; simpl.
  - by rewrite decide_True.
  - destruct (decide (k = k0)) as [->|Hne]; simpl.
    + by rewrite decide_True.
    + rewrite decide_False by done. by rewrite IH.
Qed.

End JsMapSet.

Import Tl.

Lemma repair_meta_get fields : JsMap.get "meta" (repair_meta fields) ≠ Some JNull.
Proof.
  unfold repair_meta, set_meta.
  destruct (JsMap.get "meta" fields) as [[]|] eqn:Hget;
    rewrite ?JsMap_get_set_eq, ?Hget; done.
Qed.

Lemma repair_meta_id fields :
  JsMap.get "meta" fields ≠ Some JNull → repair_meta fields = fields.
Proof. unfold repair_meta. by destruct (JsMap.get "meta" fields) as [[]|]. Qed.

Lemma repair_meta_other k fields :
  k ≠ "meta" → JsMap.get k (repair_meta fields) = JsMap.get k fields.
Proof.
  intros Hk. unfold repair_meta, set_meta.
  destruct (JsMap.get "meta" fields) as [[]|]; by rewrite ?JsMap_get_set_ne.
Qed.

Lemma repair_meta_nullish fields :
  nullish (JsMap.get "meta" fields) = false →
  nullish (JsMap.get "meta" (repair_meta fields)) = false.
Proof.
  unfold repair_meta.
  destruct (JsMap.get "meta" fields) as [[]|] eqn:Hget; simpl; try done;
    by rewrite Hget.
Qed.

Lemma fill_meta_get fields : nullish (JsMap.get "meta" (fill_meta fields)) = false.
Proof.
  unfold fill_meta, set_meta.
  destruct (nullish (JsMap.get "meta" fields)) eqn:Hn; [|done].
  by rewrite JsMap_get_set_eq.
Qed.

Lemma fill_meta_id fields :
  nullish (JsMap.get "meta" fields) = false → fill_meta fields = fields.
Proof. unfold fill_meta. by intros ->. Qed.

Lemma fill_meta_other k fields :
  k ≠ "meta" → JsMap.get k (fill_meta fields) = JsMap.get k fields.
Proof.
  intros Hk. unfold fill_meta, set_meta.
  destruct (nullish _); by rewrite ?JsMap_get_set_ne.
Qed.

Lemma on_value_other f k fields :
  k ≠ "value" → JsMap.get k (on_value f fields) = JsMap.get k fields.
Proof.
  intros Hk. unfold on_value.
  destruct (JsMap.get "value" fields) as [[]|]; by rewrite ?JsMap_get_set_ne.
Qed.

Lemma on_value_get f fields :
  JsMap.get "value" (on_value f fields)
  = match JsMap.get "value" fields with
    | Some (JObj vs) => Some (JObj (f vs))
    | other => other
    end.
Proof.
  unfold on_value.
  destruct (JsMap.get "value" fields) as [[]|] eqn:Hget;
    by rewrite ?JsMap_get_set_eq, ?Hget.
Qed.

Lemma on_value_id f fields :
  (∀ vs, JsMap.get "value" fields = Some (JObj vs) → f vs = vs) →
  on_value f fields = fields.
Proof.
  intros Hf. unfold on_value.
  destruct (JsMap.get "value" fields) as [[| | | | |vs]|] eqn:Hget; try done.
  rewrite (Hf vs eq_refl). by apply JsMap_set_same.
Qed.

Lemma isDoc_fields fields fields' :
  JsMap.get "typeName" fields' = JsMap.get "typeName" fields →
  JsMap.get "type" fields' = JsMap.get "type" fields →
  JsMap.get "id" fields' = JsMap.get "id" fields →
  isDoc (JObj fields') = isDoc (JObj fields).
Proof. unfold isDoc. simpl. by intros -> -> ->. Qed.

Lemma isDoc_object rec : isDoc rec = true → ∃ fields, rec = JObj fields.
Proof. destruct rec; try done. by eexists. Qed.

Lemma ensureDocMetaOnRecord_settled rec : settled (ensureDocMetaOnRecord rec).
Proof.
  unfold ensureDocMetaOnRecord, settled.
  destruct (to_boolean rec) eqn:Htrue.
  2: { destruct rec; try done; split; try done; by split. }
  destruct rec as [| | | | |fields]; try (by simpl; repeat split).
  set (fields' := if isDoc (JObj fields) then on_value fill_meta (fill_meta fields)
                  else fields).
  replace (if isDoc (JObj fields) then JObj (on_value fill_meta (fill_meta fields))
           else JObj fields) with (JObj fields') by (subst fields'; by destruct (isDoc _)).
  assert (Hdoc : isDoc (JObj (on_value repair_meta (repair_meta fields')))
                 = isDoc (JObj fields)).
  { apply isDoc_fields; rewrite on_value_other, repair_meta_other by done;
      subst fields'; destruct (isDoc _);
      by rewrite ?on_value_other, ?fill_meta_other by done. }
  simpl. split; [split|].
  - simpl. rewrite on_value_other by done. apply repair_meta_get.
  - simpl. intros vs. rewrite on_value_get.
    destruct (JsMap.get "value" (repair_meta fields')) as [[]|]; try done.
    intros [= <-]. apply repair_meta_get.
  - rewrite Hdoc. intros Hd. subst fields'. rewrite Hd. split; simpl.
    + rewrite on_value_other by done. apply repair_meta_nullish.
      rewrite on_value_other by done. apply fill_meta_get.
    + intros vs. rewrite on_value_get, repair_meta_other, on_value_get by done.
      destruct (JsMap.get "value" (fill_meta fields)) as [[]|]; try done.
      intros [= <-]. apply repair_meta_nullish, fill_meta_get.
Qed.

Lemma ensureDocMetaOnRecord_id rec : settled rec → ensureDocMetaOnRecord rec = rec.
Proof.
  intros [[Hmeta Hvalue] Hdoc]. unfold ensureDocMetaOnRecord.
  destruct (to_boolean rec); [|done].
  destruct rec as [| | | | |fields]; try by destruct (isDoc _).
  simpl in Hmeta, Hvalue.
  assert (Hfix : ensureAnyMeta (JObj fields) = JObj fields).
  { simpl. f_equal. rewrite (repair_meta_id _ Hmeta).
    apply on_value_id. intros vs Hvs. apply repair_meta_id. by apply Hvalue. }
  destruct (isDoc (JObj fields)) eqn:Hd; [|done].
  destruct (Hdoc eq_refl) as [Hm Hv]. simpl in Hm, Hv.
  rewrite (fill_meta_id _ Hm).
  rewrite on_value_id; [done|]. intros vs Hvs. apply fill_meta_id. by apply Hv.
Qed.

Lemma forEach_record_settled records records' :
  forEach_record records = Some records' →
  forEach_record records' = Some records'
  ∧ match records' with
    | JArr items => Forall settled items
    | JObj fields => Forall settled (JsMap.values fields)
    | _ => False
    end.
Proof.
  destruct records as [| | | |items|fields]; try done; intros [= <-]; simpl.
  - split.
    + do 2 f_equal. rewrite <- list_fmap_compose. apply list_fmap_ext.
      intros i x _. simpl. apply ensureDocMetaOnRecord_id, ensureDocMetaOnRecord_settled.
    + apply Forall_fmap, Forall_forall. intros x _. apply ensureDocMetaOnRecord_settled.
  - split.
    + do 2 f_equal. rewrite <- list_fmap_compose. apply list_fmap_ext.
      intros i [k x] _. simpl. f_equal.
      apply ensureDocMetaOnRecord_id, ensureDocMetaOnRecord_settled.
    + unfold JsMap.values. rewrite <- list_fmap_compose.
      apply Forall_fmap, Forall_forall. intros [k x] _. simpl.
      apply ensureDocMetaOnRecord_settled.
Qed.


Lemma visit_records_other k c :
  k ≠ "store" → k ≠ "records" → JsMap.get k (visit_records c) = JsMap.get k c.
Proof.
  intros Hs Hr. unfold visit_records.
  destruct (JsMap.get "store" c) as [[| | | | |store]|]; simpl;
    try (destruct (JsMap.get "records" c ≫= forEach_record);
         by rewrite ?JsMap_get_set_ne).
  destruct (JsMap.get "records" store ≫= forEach_record);
    [by rewrite JsMap_get_set_ne|].
  destruct (JsMap.get "records" c ≫= forEach_record); by rewrite ?JsMap_get_set_ne.
Qed.

Lemma forEach_record_None records :
  records ≫= forEach_record = None → list_of records = None.
Proof. by destruct records as [[]|]. Qed.

Lemma forEach_record_list records records' :
  forEach_record records = Some records' →
  ∃ l, list_of (Some records') = Some l ∧ Forall settled l.
Proof.
  intros H. destruct (forEach_record_settled _ _ H) as [_ Hs].
  destruct records'; try done; by eexists.
Qed.

(** After the visit the records are settled, and a second visit changes
    nothing; both only depend on the properties [store] and [records]. *)
Lemma visit_records_spec c c' :
  JsMap.get "store" c' = JsMap.get "store" (visit_records c) →
  JsMap.get "records" c' = JsMap.get "records" (visit_records c) →
  visit_records c' = c' ∧ Forall settled (records_of (JObj c')).
Proof.
  unfold records_of. simpl.
  unfold visit_records at 1 2.
  destruct (JsMap.get "store" c) as [st|] eqn:Hstore.
  2: { destruct (JsMap.get "records" c ≫= forEach_record) as [r|] eqn:Hrec.
       - rewrite JsMap_get_set_ne, JsMap_get_set_eq, Hstore by done.
         intros Hs' Hr'. unfold visit_records. rewrite Hs', Hr'. simpl.
         destruct (JsMap.get "records" c) as [r0|]; [|done]. simpl in Hrec.
         destruct (forEach_record_settled _ _ Hrec) as [-> _].
         destruct (forEach_record_list _ _ Hrec) as (l & Hlist & Hl).
         simpl in Hlist. rewrite ?Hlist.
         split; [by apply JsMap_set_same|done].
       - rewrite Hstore. intros Hs' Hr'. unfold visit_records.
         rewrite Hs', Hr', Hrec. simpl. split; [done|].
         by rewrite (forEach_record_None _ Hrec). }
  assert (Htop : (∀ store, st = JObj store →
                    JsMap.get "records" store ≫= forEach_record = None) →
    JsMap.get "store" c'
      = JsMap.get "store"
          match JsMap.get "records" c ≫= forEach_record with
          | Some records => JsMap.set "records" records c
          | None => c
          end →
    JsMap.get "records" c'
      = JsMap.get "records"
          match JsMap.get "records" c ≫= forEach_record with
          | Some records => JsMap.set "records" records c
          | None => c
          end →
    visit_records c' = c'
    ∧ Forall settled
        match list_of (JsMap.get "store" c' ≫= prop "records") with
        | Some l => l
        | None => default [] (list_of (JsMap.get "records" c'))
        end).
  { intros Hst.
    assert (Hnone : list_of (Some st ≫= prop "records") = None).
    { destruct st; try done. simpl. apply forEach_record_None. by apply Hst. }
    destruct (JsMap.get "records" c ≫= forEach_record) as [r|] eqn:Hrec.
    - rewrite JsMap_get_set_ne, JsMap_get_set_eq, Hstore by done.
      intros Hs' Hr'. unfold visit_records. rewrite Hs', Hr', Hnone.
      destruct (JsMap.get "records" c) as [r0|]; [|done]. simpl in Hrec.
      destruct (forEach_record_settled _ _ Hrec) as [Hagain _].
      destruct (forEach_record_list _ _ Hrec) as (l & Hlist & Hl).
         simpl in Hlist. rewrite ?Hlist.
      replace (match st with
               | JObj store =>
                   match JsMap.get "records" store ≫= forEach_record with
                   | Some records =>
                       Some (JsMap.set "store"
                               (JObj (JsMap.set "records" records store)) c')
                   | None => None
                   end
               | _ => None
               end) with (@None (list (string * Json))).
      2: { destruct st; try done. by rewrite Hst. }
      simpl. rewrite Hagain, Hlist. split; [by apply JsMap_set_same|done].
    - rewrite Hstore. intros Hs' Hr'. unfold visit_records.
      rewrite Hs', Hr', Hrec, Hnone.
      replace (match st with
               | JObj store =>
                   match JsMap.get "records" store ≫= forEach_record with
                   | Some records =>
                       Some (JsMap.set "store"
                               (JObj (JsMap.set "records" records store)) c')
                   | None => None
                   end
               | _ => None
               end) with (@None (list (string * Json))).
      2: { destruct st; try done. by rewrite Hst. }
      split; [done|]. by rewrite (forEach_record_None _ Hrec). }
  destruct st as [| | | | |store]; try (apply Htop; by intros ? [=]).
  destruct (JsMap.get "records" store ≫= forEach_record) as [r|] eqn:Hrec.
  2: { apply Htop. by intros ? [= <-]. }
  clear Htop. rewrite JsMap_get_set_eq, JsMap_get_set_ne by done.
  intros Hs' Hr'. unfold visit_records. rewrite Hs'. simpl.
  rewrite JsMap_get_set_eq. simpl.
  destruct (JsMap.get "records" store) as [r0|]; [|done]. simpl in Hrec.
  destruct (forEach_record_settled _ _ Hrec) as [-> _].
  destruct (forEach_record_list _ _ Hrec) as (l & Hlist & Hl).
         simpl in Hlist. rewrite ?Hlist.
  rewrite JsMap_set_set. split; [by apply JsMap_set_same|done].
Qed.

Lemma fill_meta_idemp fields : fill_meta (fill_meta fields) = fill_meta fields.
Proof. apply fill_meta_id, fill_meta_get. Qed.

(** The sanitizer is idempotent: a snapshot it has returned is returned
    unchanged when it is sanitized again, as happens to the stored drawing
    between the flush, the snapshot-now route and the reads of the board. *)
Theorem sanitize_idempotent (snap : option Json) (c : Json) :
  sanitizeTlSnapshotDeep snap = Returns (Some c) →
  sanitizeTlSnapshotDeep (Some c) = Returns (Some c).
Proof.
  destruct snap as [[| | | |items|c0]|]; try done; simpl; [by intros [= <-]|].
  destruct (visit_records_spec c0 (visit_records c0) eq_refl eq_refl) as [Hfix _].
  destruct (JsMap.get "document" (visit_records c0)) as [doc|] eqn:Hdoc.
  2: { intros [= <-]. simpl. by rewrite Hfix, Hdoc. }
  destruct doc as [|b|n|s|items|document]; simpl.
  - intros [= <-]. simpl. by rewrite Hfix, Hdoc.
  - destruct b; [done|]. intros [= <-]. simpl. by rewrite Hfix, Hdoc.
  - destruct (negb (n =? 0)) eqn:Hn; [done|]. intros [= <-]. simpl.
    rewrite Hfix, Hdoc. simpl. by rewrite Hn.
  - destruct (negb (String.eqb s "")) eqn:Hs; [done|]. intros [= <-]. simpl.
    rewrite Hfix, Hdoc. simpl. by rewrite Hs.
  - intros [= <-]. simpl. by rewrite Hfix, Hdoc.
  - intros [= <-]. simpl.
    destruct (visit_records_spec c0
                (JsMap.set "document" (JObj (fill_meta document)) (visit_records c0)))
      as [-> _]; [by rewrite JsMap_get_set_ne..|].
    rewrite JsMap_get_set_eq, fill_meta_idemp. by rewrite JsMap_set_set.
Qed.

(** What the sanitizer guarantees: in a snapshot it returns, no record has
    a [meta] or a [value.meta] that is [null]; every record that counts as
    a document record ([typeName] [tl_document] or ending in [_document],
    [type] [document], or an [id] starting with [document:]) has a [meta],
    and so has its [value] when that is an object; and [document], when it
    is an object, has a [meta]. *)
Theorem sanitize_gives_meta (snap : option Json) (c : Json) :
  sanitizeTlSnapshotDeep snap = Returns (Some c) →
  (∀ rec, rec ∈ records_of c →
     no_null_meta rec ∧ (isDoc rec = true → has_meta rec))
  ∧ ∀ document, prop "document" c = Some (JObj document) →
                nullish (JsMap.get "meta" document) = false.
Proof.
  destruct snap as [[| | | |items|c0]|]; try done; simpl.
  { intros [= <-]. split; [|done]. intros rec Hin. by apply elem_of_nil in Hin. }
  destruct (visit_records_spec c0 (visit_records c0) eq_refl eq_refl) as [_ Hrecs].
  rewrite Forall_forall in Hrecs.
  destruct (JsMap.get "document" (visit_records c0)) as [doc|] eqn:Hdoc.
  2: { intros [= <-]. split; [exact Hrecs|]. simpl. by rewrite Hdoc. }
  destruct doc as [|b|n|s|items|document]; simpl.
  - intros [= <-]. split; [exact Hrecs|]. simpl. by rewrite Hdoc.
  - destruct b; [done|]. intros [= <-]. split; [exact Hrecs|]. simpl. by rewrite Hdoc.
  - destruct (negb (n =? 0)); [done|]. intros [= <-].
    split; [exact Hrecs|]. simpl. by rewrite Hdoc.
  - destruct (negb (String.eqb s "")); [done|]. intros [= <-].
    split; [exact Hrecs|]. simpl. by rewrite Hdoc.
  - intros [= <-]. split; [exact Hrecs|]. simpl. by rewrite Hdoc.
  - intros [= <-].
    destruct (visit_records_spec c0
                (JsMap.set "document" (JObj (fill_meta document)) (visit_records c0)))
      as [_ Hrecs2]; [by rewrite JsMap_get_set_ne..|].
    rewrite Forall_forall in Hrecs2. split; [exact Hrecs2|].
    simpl. rewrite JsMap_get_set_eq. intros ? [= <-]. apply fill_meta_get.
Qed.

Lemma JsMap_keys_set_present {V} (k : string) (v x : V) m :
  JsMap.get k m = Some x → JsMap.keys (JsMap.set k v m) = JsMap.keys m.
Proof.
  intros Hget. rewrite JsMap_keys_set, decide_True; [done|].
  apply JsMap_get_Some in Hget. by eapply JsMap_elem_of_keys.
Qed.

Lemma visit_records_keys c : JsMap.keys (visit_records c) = JsMap.keys c.
Proof.
  unfold visit_records.
  assert (Htop : JsMap.keys
                   match JsMap.get "records" c ≫= forEach_record with
                   | Some records => JsMap.set "records" records c
                   | None => c
                   end = JsMap.keys c).
  { destruct (JsMap.get "records" c) as [r0|] eqn:Hr; [|done]. simpl.
    destruct (forEach_record r0); [|done]. by eapply JsMap_keys_set_present. }
  destruct (JsMap.get "store" c) as [[| | | | |store]|] eqn:Hstore; try done.
  destruct (JsMap.get "records" store ≫= forEach_record); [|done].
  by eapply JsMap_keys_set_present.
Qed.

(** How a call ends: [null] exactly for [undefined], [null] and the
    primitives; a [TypeError] exactly for an object whose [document] is a
    primitive other than [false], [0] and the empty string, on which the
    assignment of [meta] fails; and the snapshot itself, repaired, in every
    other case: an array is returned as it is, an object keeps its
    properties in their order, and those other than [store], [records] and
    [document] their values. *)
Theorem sanitize_outcome (snap : option Json) :
  (sanitizeTlSnapshotDeep snap = Returns None
   ↔ ∀ v, snap = Some v → to_boolean v && typeof_object v = false)
  ∧ (sanitizeTlSnapshotDeep snap = Throws
     ↔ ∃ c v, snap = Some (JObj c)
              ∧ JsMap.get "document" c = Some v
              ∧ to_boolean v = true ∧ typeof_object v = false)
  ∧ (∀ items, snap = Some (JArr items) →
       sanitizeTlSnapshotDeep snap = Returns snap)
  ∧ (∀ c c', snap = Some (JObj c) →
       sanitizeTlSnapshotDeep snap = Returns (Some c') →
       ∃ fields, c' = JObj fields
                 ∧ JsMap.keys fields = JsMap.keys c
                 ∧ ∀ k, k ≠ "store" → k ≠ "records" → k ≠ "document" →
                        JsMap.get k fields = JsMap.get k c).
Proof.
  assert (Hobj : ∀ c,
    (sanitizeTlSnapshotDeep (Some (JObj c)) = Throws
     ∧ ∃ v, JsMap.get "document" c = Some v
            ∧ to_boolean v = true ∧ typeof_object v = false)
    ∨ (∃ fields, sanitizeTlSnapshotDeep (Some (JObj c)) = Returns (Some (JObj fields))
                 ∧ JsMap.keys fields = JsMap.keys c
                 ∧ (∀ k, k ≠ "store" → k ≠ "records" → k ≠ "document" →
                         JsMap.get k fields = JsMap.get k c)
                 ∧ ∀ v, JsMap.get "document" c = Some v →
                        to_boolean v = true → typeof_object v = true)).
  { intros c. simpl.
    pose proof (visit_records_other "document" c) as Hdoc.
    rewrite Hdoc by done.
    assert (Hkeep : ∃ fields,
              Returns (Some (JObj (visit_records c))) = Returns (Some (JObj fields))
              ∧ JsMap.keys fields = JsMap.keys c
              ∧ ∀ k, k ≠ "store" → k ≠ "records" → k ≠ "document" →
                     JsMap.get k fields = JsMap.get k c).
    { eexists. split_and!; [done|apply visit_records_keys|].
      intros k ? ? _. by apply visit_records_other. }
    destruct Hkeep as (fields & Hret & Hkeys & Hget).
    destruct (JsMap.get "document" c) as [[|b|n|s|items|document]|] eqn:Hd; simpl.
    - right. exists fields. split_and!; [done..|]. by intros ? [= <-].
    - destruct b.
      + left. split; [done|]. by eexists.
      + right. exists fields. split_and!; [done..|]. by intros ? [= <-].
    - destruct (negb (n =? 0)) eqn:Hn.
      + left. split; [done|]. by eexists.
      + right. exists fields. split_and!; [done..|]. intros ? [= <-]. simpl.
        by rewrite Hn.
    - destruct (negb (String.eqb s "")) eqn:Hs.
      + left. split; [done|]. by eexists.
      + right. exists fields. split_and!; [done..|]. intros ? [= <-]. simpl.
        by rewrite Hs.
    - right. exists fields. split_and!; [done..|]. by intros ? [= <-].
    - right. eexists. split_and!; [done| | |by intros ? [= <-]].
      + rewrite <- (visit_records_keys c).
        eapply JsMap_keys_set_present. by rewrite Hdoc.
      + intros k ? ? ?. rewrite JsMap_get_set_ne by done.
        by apply visit_records_other.
    - right. exists fields. split_and!; done. }
  split_and!.
  - destruct snap as [[| | | |items|c]|];
      try (split; [intros _ v ?; simplify_eq; simpl; by rewrite ?andb_false_r|done]).
    + split; [done|]. intros H. by specialize (H _ eq_refl).
    + split.
      * intros H. destruct (Hobj c) as [[Ht _]|(? & Hr & _)]; congruence.
      * intros H. by specialize (H _ eq_refl).
  - split.
    + destruct snap as [[| | | |items|c]|]; try done.
      intros Ht. destruct (Hobj c) as [[_ (v & ?)]|(? & Hr & _)]; [|congruence].
      by exists c, v.
    + intros (c & v & -> & Hd & Ht & Ho).
      destruct (Hobj c) as [[? _]|(? & _ & _ & _ & Hno)]; [done|].
      specialize (Hno _ Hd Ht). congruence.
  - by intros items ->.
  - intros c c' -> Hret.
    destruct (Hobj c) as [[Ht _]|(fields & Hr & Hkeys & Hget & _)]; [congruence|].
    exists fields. split_and!; [congruence|done..].
Qed.


(* ================================================================== *)
(** * The chat merge of the restore tool *)

Lemma seen_cons (k : string) (l : list string) (seen : gset string) :
  list_to_set (k :: l) ∪ seen = list_to_set l ∪ ({[k]} ∪ seen).
Proof.
  simpl. rewrite (comm_L (∪) {[k]} (list_to_set l)). by rewrite <- (assoc_L (∪)).
Qed.

Lemma seen_cons_present (k : string) (l : list string) (seen : gset string) :
  k ∈ seen → list_to_set (k :: l) ∪ seen = list_to_set l ∪ seen.
Proof.
  intros Hin. rewrite seen_cons. f_equal. apply subseteq_union_1_L.
  by apply singleton_subseteq_l.
Qed.

Lemma foldl_chat_step seen acc l :
  foldl chat_step (seen, acc) l
  = (list_to_set (chat_key <$> l) ∪ seen, acc ++ fresh_chat seen l).
Proof.
  revert seen acc. induction l as [|c l IH]; intros seen acc.
  { simpl. by rewrite app_nil_r, (left_id_L ∅ (∪)). }
  rewrite fmap_cons. destruct (decide (chat_key c ∈ seen)) as [Hin|Hin].
  - rewrite seen_cons_present by done. simpl. unfold chat_step at 2. simpl.
    rewrite !decide_True by done. apply IH.
  - rewrite seen_cons. simpl. unfold chat_step at 2. simpl.
    rewrite !decide_False by done. by rewrite IH, <- app_assoc.
Qed.

Lemma mergedChat_fresh old incoming :
  mergedChat old incoming = fresh_chat ∅ (old ++ incoming).
Proof. unfold mergedChat. by rewrite foldl_chat_step. Qed.

Lemma fresh_chat_app seen l1 l2 :
  fresh_chat seen (l1 ++ l2)
  = fresh_chat seen l1 ++ fresh_chat (list_to_set (chat_key <$> l1) ∪ seen) l2.
Proof.
  revert seen. induction l1 as [|c l1 IH]; intros seen.
  { simpl. by rewrite (left_id_L ∅ (∪)). }
  rewrite fmap_cons. destruct (decide (chat_key c ∈ seen)) as [Hin|Hin].
  - rewrite seen_cons_present by done. simpl. rewrite !decide_True by done. apply IH.
  - rewrite seen_cons. simpl. rewrite !decide_False by done. by rewrite IH.
Qed.

Lemma fresh_chat_keys seen l :
  NoDup (chat_key <$> fresh_chat seen l)
  ∧ (∀ k, k ∈ chat_key <$> fresh_chat seen l → k ∉ seen)
  ∧ (∀ c, c ∈ l → chat_key c ∈ seen ∨ chat_key c ∈ chat_key <$> fresh_chat seen l).
Proof.
  revert seen. induction l as [|c l IH]; intros seen; simpl.
  { split_and!; [constructor|by intros k ?%elem_of_nil|by intros c ?%elem_of_nil]. }
  case_decide as Hin.
  - destruct (IH seen) as (Hnd & Hnew & Hall). split_and!; [done..|].
    intros c' [->|Hc']%elem_of_cons; [by left|by apply Hall].
  - destruct (IH ({[chat_key c]} ∪ seen)) as (Hnd & Hnew & Hall). split_and!.
    + simpl. constructor; [|done]. intros Hk. apply Hnew in Hk.
      apply Hk, elem_of_union. left. by apply elem_of_singleton.
    + simpl. intros k [->|Hk]%elem_of_cons; [done|].
      apply Hnew in Hk. intros Hs. apply Hk, elem_of_union. by right.
    + simpl. intros c' [->|Hc']%elem_of_cons; [right; left|].
      destruct (Hall _ Hc') as [Hs|Hk]; [|right; by right].
      apply elem_of_union in Hs as [->%elem_of_singleton|Hs]; [right; left|by left].
Qed.

Lemma fresh_chat_first seen l m :
  m ∈ fresh_chat seen l → head (filter (λ c, chat_key c = chat_key m) l) = Some m.
Proof.
  revert seen. induction l as [|c l IH]; intros seen; simpl.
  { by intros ?%elem_of_nil. }
  rewrite filter_cons. case_decide as Hin.
  - intros Hm. destruct (fresh_chat_keys seen l) as (_ & Hnew & _).
    rewrite decide_False; [by eapply IH|].
    intros Hk. apply (Hnew (chat_key m)); [|congruence].
    apply list_elem_of_fmap. by exists m.
  - intros [->|Hm]%elem_of_cons; [by rewrite decide_True|].
    destruct (fresh_chat_keys ({[chat_key c]} ∪ seen) l) as (_ & Hnew & _).
    rewrite decide_False; [by eapply IH|].
    intros Hk. apply (Hnew (chat_key m)).
    + apply list_elem_of_fmap. by exists m.
    + apply elem_of_union. left. by apply elem_of_singleton.
Qed.

Lemma fresh_chat_all_new seen l :
  NoDup (chat_key <$> l) → (∀ c, c ∈ l → chat_key c ∉ seen) → fresh_chat seen l = l.
Proof.
  revert seen. induction l as [|c l IH]; intros seen Hnd Hnew; simpl; [done|].
  rewrite fmap_cons in Hnd. apply NoDup_cons in Hnd as [Hc Hnd].
  rewrite decide_False by (apply Hnew; left). f_equal. apply IH; [done|].
  intros c' Hc'. rewrite not_elem_of_union, not_elem_of_singleton. split.
  - intros Hk. apply Hc. rewrite <- Hk. apply list_elem_of_fmap. by exists c'.
  - apply Hnew. by right.
Qed.

Lemma fresh_chat_all_seen seen l :
  (∀ c, c ∈ l → chat_key c ∈ seen) → fresh_chat seen l = [].
Proof.
  induction l as [|c l IH]; intros Hseen; simpl; [done|].
  rewrite decide_True by (apply Hseen; left). apply IH.
  intros c' Hc'. apply Hseen. by right.
Qed.

(** The chat Restore writes to an existing board: no two messages with the
    same key (time stamp, user id and the first 200 characters of the
    text); for every message of the board or of the file one with its key;
    each message kept is the first with its key in the board's chat
    followed by the file's, so the board's own message wins; and merging
    the same file once more changes nothing. *)
Theorem mergedChat_dedupes (old incoming : list ChatMsg) :
  let r := mergedChat old incoming in
  NoDup (chat_key <$> r)
  ∧ (∀ c, c ∈ old ++ incoming → chat_key c ∈ chat_key <$> r)
  ∧ (∀ m, m ∈ r →
       head (filter (λ c, chat_key c = chat_key m) (old ++ incoming)) = Some m)
  ∧ mergedChat r incoming = r.
Proof.
  intros r. subst r. rewrite !mergedChat_fresh.
  destruct (fresh_chat_keys ∅ (old ++ incoming)) as (Hnd & Hnew & Hall).
  split_and!; [done| | |].
  - intros c Hc. destruct (Hall _ Hc) as [Hs|Hk]; [|done].
    by apply elem_of_empty in Hs.
  - intros m. apply fresh_chat_first.
  - set (D := fresh_chat ∅ (old ++ incoming)) in *. rewrite fresh_chat_app.
    rewrite (fresh_chat_all_new ∅ D); [|done|intros c _; apply not_elem_of_empty].
    rewrite (fresh_chat_all_seen _ incoming); [by rewrite app_nil_r|].
    intros c Hc. apply elem_of_union. left. apply elem_of_list_to_set.
    destruct (Hall c) as [Hs|Hk]; [apply elem_of_app; by right| |done].
    by apply elem_of_empty in Hs.
Qed.

(* ================================================================== *)
(** * The cookie parser *)

Lemma split_nonempty sep s : split sep s ≠ [].
Proof. destruct s as [|c s]; simpl; [done|]. case_decide; [done|]. by destruct (split sep s). Qed.

Lemma split_app sep s1 s2 :
  split sep (s1 +:+ String sep s2) = split sep s1 ++ split sep s2.
Proof.
  induction s1 as [|c s1 IH]; simpl.
  - by rewrite decide_True.
  - case_decide; [by rewrite IH|]. rewrite IH.
    pose proof (split_nonempty sep s1). by destruct (split sep s1).
Qed.

Lemma split_without sep s : indexOf sep s = None → split sep s = [s].
Proof.
  induction s as [|c s IH]; simpl; [done|].
  case_decide; [done|]. destruct (indexOf sep s); [done|]. intros _. by rewrite IH.
Qed.

Lemma indexOf_app c s1 s2 :
  indexOf c s1 = None → indexOf c (s1 +:+ String c s2) = Some (String.length s1).
Proof.
  induction s1 as [|x s1 IH]; simpl.
  - by rewrite decide_True.
  - case_decide; [done|]. destruct (indexOf c s1); [done|]. intros _. by rewrite IH.
Qed.

Lemma indexOf_app_None c s1 s2 :
  indexOf c (s1 +:+ s2) = None ↔ indexOf c s1 = None ∧ indexOf c s2 = None.
Proof.
  induction s1 as [|x s1 IH]; simpl; [tauto|].
  case_decide; [by split; [|intros []]|]. by rewrite !fmap_None.
Qed.

Lemma substring_prefix s1 s2 : String.substring 0 (String.length s1) (s1 +:+ s2) = s1.
Proof. induction s1 as [|c s1 IH]; simpl; [by destruct s2|]. by rewrite IH. Qed.

Lemma substring_all s : String.substring 0 (String.length s) s = s.
Proof. induction s as [|c s IH]; simpl; [done|]. by rewrite IH. Qed.

Lemma substring_suffix s1 s2 :
  String.substring (String.length s1) (String.length s2) (s1 +:+ s2) = s2.
Proof. induction s1 as [|c s1 IH]; simpl; [apply substring_all|done]. Qed.

Lemma length_app_string s1 s2 :
  String.length (s1 +:+ s2) = (String.length s1 + String.length s2)%nat.
Proof. induction s1 as [|c s1 IH]; simpl; [done|]. by rewrite IH. Qed.

Lemma append_cons_assoc s1 c s2 : (s1 +:+ String c "") +:+ s2 = s1 +:+ String c s2.
Proof.
  induction s1 as [|x s1 IH]; [done|].
  change (String x ((s1 +:+ String c "") +:+ s2) = String x (s1 +:+ String c s2)).
  by rewrite IH.
Qed.

Section CookieFacts.
Variable decodeURIComponent : string → option string.
Variable jwt_sub : string → option UserId.

Local Abbreviation parse := (parseCookie decodeURIComponent).
Local Abbreviation part := (cookie_part decodeURIComponent).

Lemma assign_union k v (m2 m : gmap string string) :
  assign k v (m2 ∪ m) = assign k v m2 ∪ m.
Proof. unfold assign. case_decide; [done|]. by rewrite insert_union_l. Qed.

Lemma foldl_part_union l (m : gmap string string) :
  foldl (λ out p, out ≫= λ out, part out p) (Some m) l
  = m2 ← foldl (λ out p, out ≫= λ out, part out p) (Some ∅) l; Some (m2 ∪ m).
Proof.
  induction l as [|p l IH] using rev_ind; simpl.
  { by rewrite (left_id_L ∅ (∪)). }
  rewrite !foldl_app. simpl. rewrite IH.
  destruct (foldl _ (Some ∅) l) as [m2|]; simpl; [|done].
  unfold cookie_part. destruct (indexOf "="%char p); [|done].
  destruct (decodeURIComponent _); simpl; [|done]. by rewrite assign_union.
Qed.

Lemma foldl_part_None l :
  foldl (λ out p, out ≫= λ out, part out p) None l = None.
Proof. induction l as [|p l IH]; simpl; done. Qed.

(** Parsing composes over [;]: the cookies of [h1;h2] are those of [h2]
    added to those of [h1], a name of [h2] overriding the same name of
    [h1]; the parse of the whole throws as soon as that of a half does. *)
Lemma parseCookie_app (h1 h2 : string) :
  parse (h1 +:+ ";" +:+ h2)
  = match parse h1, parse h2 with
    | Some m1, Some m2 => Some (m2 ∪ m1)
    | _, _ => None
    end.
Proof.
  unfold parseCookie. change (";" +:+ h2) with (String ";" h2).
  rewrite split_app, foldl_app.
  destruct (foldl _ (Some ∅) (split ";"%char h1)) as [m1|].
  - rewrite foldl_part_union. by destruct (foldl _ (Some ∅) (split ";"%char h2)).
  - by rewrite foldl_part_None.
Qed.

(** One cookie: for a name without [=] and [;] and a value without [;],
    the header [name=value] gives the decoded value under the trimmed
    name; the value is not trimmed and may contain [=]. A part without [=]
    gives nothing. *)
Theorem parseCookie_pair (name value : string) :
  indexOf "="%char name = None →
  indexOf ";"%char name = None →
  indexOf ";"%char value = None →
  parse (name +:+ "=" +:+ value)
  = (v ← decodeURIComponent value; Some (assign (trim name) v ∅))
  ∧ parse name = Some ∅.
Proof.
  intros Heq Hsemi Hsemi'. unfold parseCookie. split.
  - rewrite split_without.
    2: { change ("=" +:+ value) with (String "=" value).
         apply indexOf_app_None. split; [done|]. simpl. by rewrite Hsemi'. }
    simpl. unfold cookie_part. change ("=" +:+ value) with (String "=" value).
    rewrite indexOf_app by done. unfold slice, slice_from.
    rewrite Nat.sub_0_r, substring_prefix.
    replace (String.length (name +:+ String "=" value) - (String.length name + 1))%nat
      with (String.length value) by (rewrite length_app_string; simpl; lia).
    replace (name +:+ String "=" value) with ((name +:+ "=") +:+ value).
    2: { apply append_cons_assoc. }
    replace (String.length name + 1)%nat with (String.length (name +:+ "="))
      by (rewrite length_app_string; simpl; lia).
    by rewrite substring_suffix.
  - rewrite split_without by done. simpl. unfold cookie_part. by rewrite Heq.
Qed.

(** The handshake reads the last [access_token] of the header: when both
    halves of [h1;h2] parse, the identity is that of [h2] alone if [h2]
    names the cookie at all (be it with an empty or an invalid token, which
    leaves the socket anonymous even if [h1] carries a valid one), and that
    of [h1] alone otherwise; when one half does not parse, the handshake is
    refused. *)
Theorem handshake_last_token_wins (h1 h2 : string) :
  io_use decodeURIComponent jwt_sub (Some (h1 +:+ ";" +:+ h2))
  = match parse h1, parse h2 with
    | Some _, Some m2 =>
        if decide (is_Some (m2 !! "access_token"))
        then io_use decodeURIComponent jwt_sub (Some h2)
        else io_use decodeURIComponent jwt_sub (Some h1)
    | _, _ => None
    end.
Proof.
  assert (Hhdr : ∀ h, parse (default "" (truthy (Some h))) = parse h).
  { intros h. simpl. by case_decide; subst. }
  unfold io_use. rewrite !Hhdr, parseCookie_app.
  destruct (parse h1) as [m1|], (parse h2) as [m2|]; simpl; try done.
  case_decide as Htok.
  - destruct Htok as [t Htok]. by rewrite (lookup_union_Some_l _ _ _ _ Htok), Htok.
  - apply eq_None_not_Some in Htok. by rewrite lookup_union_r.
Qed.

End CookieFacts.

(* ================================================================== *)
(** * The presence store *)

Section PresenceFacts.
Import Presence.

Lemma get_map_delete k key map :
  JsMap.get k (filter (λ kv : SocketId * Entry, kv.1 ≠ key) map)
  = if decide (k = key) then None else JsMap.get k map.
Proof.
  induction map as [|[k' v] map IH]; simpl.
  - by case_decide.
  - rewrite filter_cons. simpl. destruct (decide (k' ≠ key)) as [Hne|Heq]; simpl.
    + destruct (decide (k = k')) as [->|?]; [by rewrite decide_False|done].
    + apply dec_stable in Heq as ->. rewrite IH.
      destruct (decide (k = key)); [done|]. done.
Qed.

Lemma leave_boardOf sid room events s :
  boardOf (leave sid room events s).1 = boardOf s.
Proof.
  unfold leave. destruct (presenceByBoard s !! room); [|done].
  simpl. by case_bool_decide.
Qed.

Lemma leave_roster sid room events s b k :
  JsMap.get k (roster (leave sid room events s).1 b)
  = if decide (b = room ∧ k = sid) then None else JsMap.get k (roster s b).
Proof.
  unfold leave. destruct (presenceByBoard s !! room) as [map|] eqn:Hroom.
  - unfold map_delete. simpl. case_bool_decide as Hthere; simpl.
    + unfold roster. simpl. destruct (decide (b = room)) as [->|Hb].
      * rewrite lookup_insert_eq, Hroom. simpl. rewrite get_map_delete.
        destruct (decide (k = sid)) as [->|?].
        -- by rewrite decide_True.
        -- rewrite decide_False; [done|]. by intros [_ ?].
      * rewrite lookup_insert_ne by done. rewrite decide_False; [done|]. by intros [? _].
    + case_decide as Hbk; [|reflexivity]. destruct Hbk as [-> ->].
      unfold roster. rewrite Hroom. simpl.
      destruct (JsMap.get sid map) eqn:Hget; [|done]. by destruct Hthere.
  - simpl. case_decide as Hbk; [|reflexivity]. destruct Hbk as [-> ->].
    unfold roster. by rewrite Hroom.
Qed.

Lemma roster_ensure (p : gmap BoardId (list (SocketId * Entry))) boardId b :
  default [] (match p !! boardId with
              | Some _ => p
              | None => <[boardId := []]> p
              end !! b) = default [] (p !! b).
Proof.
  destruct (p !! boardId) eqn:Hp; [done|].
  destruct (decide (b = boardId)) as [->|?].
  - by rewrite lookup_insert_eq, Hp.
  - by rewrite lookup_insert_ne.
Qed.

Lemma truthy_idemp c b : truthy c = Some b → truthy (Some b) = Some b.
Proof.
  unfold truthy. destruct c as [x|]; [|done]. case_decide; [done|].
  intros [= ->]. by rewrite decide_False.
Qed.

(** A handler of a socket that is not connected does not run. *)
Lemma step_unconnected e s :
  boardOf s !! socket_of e = None → e ≠ Connect (socket_of e) → (step e s).1 = s.
Proof.
  destruct e; simpl; intros Hnone Hne; try done;
    unfold on_joined, on_presence_join, on_presence_list, on_disconnect;
    by rewrite Hnone.
Qed.

(** A handler touches the room and the roster entries of its own socket. *)
Lemma step_boardOf_other e s k :
  k ≠ socket_of e → boardOf (step e s).1 !! k = boardOf s !! k.
Proof.
  destruct e as [sid|sid boardId|sid user|sid boardId|sid]; simpl; intros Hne.
  - by rewrite lookup_insert_ne.
  - unfold on_joined. destruct (boardOf s !! sid) as [current|]; [|done].
    destruct (truthy current) as [prev|]; [case_decide|]; simpl.
    + destruct (leave sid prev _ s) as [s1 out] eqn:Hleave. simpl.
      rewrite lookup_insert_ne by done.
      by rewrite <-(leave_boardOf sid prev ["presence:leave"] s), Hleave.
    + by rewrite lookup_insert_ne.
    + by rewrite lookup_insert_ne.
  - unfold on_presence_join. destruct (boardOf s !! sid) as [current|]; [|done].
    by destruct (or_else current (user_boardId user)).
  - unfold on_presence_list. destruct (boardOf s !! sid) as [current|]; [|done].
    by destruct (or_else current boardId).
  - unfold on_disconnect. destruct (boardOf s !! sid) as [current|]; [|done].
    destruct (truthy current) as [b|]; simpl.
    + destruct (leave sid b _ s) as [s1 out] eqn:Hleave. simpl.
      rewrite lookup_delete_ne by done.
      by rewrite <-(leave_boardOf sid b ["presence:leave"; "cursor:leave"] s), Hleave.
    + by rewrite lookup_delete_ne.
Qed.

Lemma step_roster_other e s b k :
  k ≠ socket_of e →
  JsMap.get k (roster (step e s).1 b) = JsMap.get k (roster s b).
Proof.
  destruct e as [sid|sid boardId|sid user|sid boardId|sid]; simpl; intros Hne.
  - done.
  - unfold on_joined. destruct (boardOf s !! sid) as [current|]; [|done].
    destruct (truthy current) as [prev|]; [case_decide|]; simpl.
    + destruct (leave sid prev _ s) as [s1 out] eqn:Hleave.
      unfold roster at 1. simpl. rewrite roster_ensure.
      change (default [] (presenceByBoard s1 !! b)) with (roster s1 b).
      replace s1 with (leave sid prev ["presence:leave"] s).1 by by rewrite Hleave.
      rewrite leave_roster. rewrite decide_False; [done|]. by intros [_ ?].
    + unfold roster at 1. simpl. by rewrite roster_ensure.
    + unfold roster at 1. simpl. by rewrite roster_ensure.
  - unfold on_presence_join. destruct (boardOf s !! sid) as [current|]; [|done].
    destruct (or_else current (user_boardId user)) as [b0|]; [|done].
    unfold roster. simpl. destruct (decide (b = b0)) as [->|?].
    + rewrite lookup_insert_eq. simpl. by rewrite JsMap_get_set_ne.
    + by rewrite lookup_insert_ne.
  - unfold on_presence_list. destruct (boardOf s !! sid) as [current|]; [|done].
    by destruct (or_else current boardId).
  - unfold on_disconnect. destruct (boardOf s !! sid) as [current|]; [|done].
    destruct (truthy current) as [b0|]; simpl; [|done].
    destruct (leave sid b0 _ s) as [s1 out] eqn:Hleave.
    unfold roster at 1. simpl. change (default [] (presenceByBoard s1 !! b)) with (roster s1 b).
    replace s1 with (leave sid b0 ["presence:leave"; "cursor:leave"] s).1
      by by rewrite Hleave.
    rewrite leave_roster. rewrite decide_False; [done|]. by intros [_ ?].
Qed.

Lemma rosters_current_step e s :
  rosters_current s → orderly [e] s → rosters_current (step e s).1.
Proof.
  intros Hinv [Hord _] b k entry Hget.
  destruct (decide (k = socket_of e)) as [->|Hk].
  2: { rewrite step_roster_other in Hget by done. rewrite step_boardOf_other by done.
       by apply (Hinv b k entry). }
  destruct e as [sid|sid boardId|sid user|sid boardId|sid]; simpl in *.
  - apply Hinv in Hget as (c & Hc & _). by rewrite Hord in Hc.
  - unfold on_joined in *. destruct (boardOf s !! sid) as [current|] eqn:Hsock.
    2: { apply Hinv in Hget as (c & Hc & _). by rewrite Hsock in Hc. }
    assert (Hcur : ∀ entry, JsMap.get sid (roster s b) = Some entry → truthy current = Some b).
    { intros entry' Hget'. apply Hinv in Hget' as (c & Hc & Htruthy).
      rewrite Hsock in Hc. by simplify_eq. }
    destruct (truthy current) as [prev|] eqn:Hprev; [case_decide as Hne|]; simpl in *.
    + destruct (leave sid prev _ s) as [s1 out] eqn:Hleave. exfalso.
      unfold roster in Hget at 1. simpl in Hget. rewrite roster_ensure in Hget.
      change (default [] (presenceByBoard s1 !! b)) with (roster s1 b) in Hget.
      replace s1 with (leave sid prev ["presence:leave"] s).1 in Hget by by rewrite Hleave.
      rewrite leave_roster in Hget. case_decide as Hbk; [done|].
      apply Hcur in Hget. simplify_eq. by apply Hbk.
    + unfold roster in Hget at 1. simpl in Hget. rewrite roster_ensure in Hget.
      apply Hcur in Hget. simplify_eq.
      exists (Some b). rewrite lookup_insert_eq. split; [done|].
      by apply (truthy_idemp current).
    + unfold roster in Hget at 1. simpl in Hget. rewrite roster_ensure in Hget.
      by apply Hcur in Hget.
  - destruct Hord as (c & Hc & [b0 Hb0]). unfold on_presence_join in *.
    rewrite Hc in *. unfold or_else in *. rewrite Hb0 in *. simpl in *.
    exists c. split; [done|]. unfold roster in Hget. simpl in Hget.
    destruct (decide (b = b0)) as [->|Hb]; [done|].
    rewrite lookup_insert_ne in Hget by done.
    apply Hinv in Hget as (c' & Hc' & Htruthy). by simplify_eq.
  - unfold on_presence_list in *. destruct (boardOf s !! sid) as [current|] eqn:Hsock.
    2: { apply Hinv in Hget as (c & Hc & _). by rewrite Hsock in Hc. }
    destruct (or_else current boardId); simpl in *;
      apply Hinv in Hget as (c & Hc & Htruthy); by exists c.
  - unfold on_disconnect in *. destruct (boardOf s !! sid) as [current|] eqn:Hsock.
    2: { apply Hinv in Hget as (c & Hc & _). by rewrite Hsock in Hc. }
    assert (Hcur : ∀ entry, JsMap.get sid (roster s b) = Some entry → truthy current = Some b).
    { intros entry' Hget'. apply Hinv in Hget' as (c & Hc & Htruthy).
      rewrite Hsock in Hc. by simplify_eq. }
    exfalso. destruct (truthy current) as [b0|] eqn:Hb0; simpl in *.
    + destruct (leave sid b0 _ s) as [s1 out] eqn:Hleave.
      unfold roster in Hget at 1. simpl in Hget.
      change (default [] (presenceByBoard s1 !! b)) with (roster s1 b) in Hget.
      replace s1 with (leave sid b0 ["presence:leave"; "cursor:leave"] s).1 in Hget
        by by rewrite Hleave.
      rewrite leave_roster in Hget. case_decide as Hbk; [done|].
      apply Hcur in Hget. simplify_eq. by apply Hbk.
    + by apply Hcur in Hget.
Qed.

Lemma rosters_current_steps es s :
  rosters_current s → orderly es s → rosters_current (steps es s).
Proof.
  revert s. induction es as [|e es IH]; intros s Hinv Hord; [done|].
  destruct Hord as [He Hes]. apply IH; [|done].
  apply rosters_current_step; [done|]. by split.
Qed.

(** When no socket id is used twice and every client announces itself
    after its [room:join] was answered, the rosters hold connected sockets
    only, each in the roster of the room it is in: a socket that changed
    rooms or went away is in no roster it left. *)
Theorem rosters_follow_rooms (es : list Event) :
  orderly es initial → rosters_current (steps es initial).
Proof. apply rosters_current_steps. by intros b k entry. Qed.

Lemma stale_step e s sid b entry :
  e ≠ Connect sid →
  boardOf s !! sid = None →
  JsMap.get sid (roster s b) = Some entry →
  boardOf (step e s).1 !! sid = None
  ∧ JsMap.get sid (roster (step e s).1 b) = Some entry.
Proof.
  intros Hne Hgone Hget. destruct (decide (sid = socket_of e)) as [->|Hk].
  - by rewrite step_unconnected.
  - by rewrite step_boardOf_other, step_roster_other.
Qed.

(** A client that announces itself before any [room:join] of its socket,
    naming a board, and then goes away without one, stays in the roster of
    that board: no later event of any other socket removes the entry. *)
Theorem early_presence_is_never_removed
    (s : State) (sid : SocketId) (current : option BoardId) (user : User)
    (b : BoardId) (es : list Event) :
  boardOf s !! sid = Some current →
  truthy current = None →
  truthy (user_boardId user) = Some b →
  never_connects sid es →
  let s' := steps (PresenceJoin sid user :: Disconnect sid :: es) s in
  boardOf s' !! sid = None
  ∧ JsMap.get sid (roster s' b) = Some (record_of sid b user).
Proof.
  intros Hsock Hnull Hboard Hes. simpl.
  set (s1 := (on_presence_join sid user s).1).
  set (s2 := (on_disconnect sid s1).1).
  assert (Hs1 : boardOf s1 !! sid = Some current
                ∧ JsMap.get sid (roster s1 b) = Some (record_of sid b user)).
  { unfold s1, on_presence_join, or_else. rewrite Hsock, Hnull, Hboard. simpl.
    split; [done|]. unfold roster. simpl. rewrite lookup_insert_eq. simpl.
    apply JsMap_get_set_eq. }
  destruct Hs1 as [Hsock1 Hget1].
  assert (Hs2 : boardOf s2 !! sid = None
                ∧ JsMap.get sid (roster s2 b) = Some (record_of sid b user)).
  { unfold s2, on_disconnect. rewrite Hsock1, Hnull. simpl.
    by rewrite lookup_delete_eq. }
  clearbody s2. clear s1 Hsock1 Hget1 Hsock.
  revert s2 Hs2. induction Hes as [|e es He Hes IH]; intros s2 [Hgone Hget]; [done|].
  simpl. apply IH. by apply stale_step.
Qed.

End PresenceFacts.

(* ================================================================== *)
(** * Worked instances *)

Definition demo_hashObj : option Tldraw → string := λ t, "sha256:" +:+ default "{}" t.

Definition demo_sanitize : option Tldraw → option Tldraw := λ t, t.

Definition demo_uuid (tag : string) : nat → string := λ n, tag +:+ "-" +:+ pretty n.

(** An operation that carries an [opId]. *)
Definition keyed_op (k : string) : OpItem :=
  {| item_opId := Some k; item_op := None; item_id := Some k; item_ts := 0;
     item_changes := "" |}.

(** An operation as the whiteboard client builds it: [{ id, ts, changes }]. *)
Definition client_op (k : string) (ts : Z) : OpItem :=
  {| item_opId := None; item_op := None; item_id := Some k; item_ts := ts;
     item_changes := "draw" |}.

Definition keyed_ops (from len : nat) : list OpItem :=
  (λ i, keyed_op ("op-" +:+ pretty i)) <$> seq from len.

(** User u1 creates board b1 and joins it (owner); user u2, not a member,
    joins it too (viewer). *)
Definition demo_setup : list Event :=
  [PostBoard "u1" (Some "Plan") "b1";
   Connect "s1" (Some "u1"); RoomJoin "s1" "b1" None;
   Connect "s2" (Some "u2"); RoomJoin "s2" "b1" None].

Definition demo_step : Event → Server → Server * list Output :=
  step demo_hashObj demo_sanitize.

Definition demo_steps : list Event → Server → Server :=
  steps demo_hashObj demo_sanitize.

Definition demo_server : Server := demo_steps demo_setup (boot empty_db).

Definition owner_sock : SocketData :=
  {| sock_userId := Some "u1"; sock_boardId := Some "b1"; sock_role := owner |}.

Definition viewer_sock : SocketData :=
  {| sock_userId := Some "u2"; sock_boardId := Some "b1"; sock_role := viewer |}.

Definition demo_batch : list OpItem := [keyed_op "x1"; keyed_op "x2"].

Definition demo_submit : Event :=
  BoardOps "s1" demo_batch None (demo_uuid "a") None.

Definition demo_retry : Event :=
  BoardOps "s1" demo_batch None (demo_uuid "b") None.

Definition demo_artifact : Artifact :=
  {| meta_boardId := Some "b1"; meta_title := Some "Plan"; meta_baseVersion := 0;
     meta_checksum := ""; art_snapshot := None;
     art_ops :=
       [{| art_seq := Some 1; art_opId := Some "x1"; art_op := None;
           art_authorId := Some "u1" |};
        {| art_seq := Some 2; art_opId := Some "x2"; art_op := None;
           art_authorId := Some "u1" |};
        {| art_seq := Some 3; art_opId := Some "x3"; art_op := None;
           art_authorId := None |}];
     art_members := [{| userId := "u1"; role := owner |}] |}.

Definition demo_restore (d : Db) : Result (BoardId * Z) * Db :=
  restore demo_hashObj "fresh-id" (demo_uuid "r") demo_artifact d.

Lemma demo_server_owner : sockets demo_server !! "s1" = Some owner_sock.
Proof. vm_compute. reflexivity. Qed.

Lemma demo_server_viewer : sockets demo_server !! "s2" = Some viewer_sock.
Proof. vm_compute. reflexivity. Qed.

(** The scenario of the specification: two operations x1, x2 get sequence
    numbers 1 and 2 and the counter ends at 2. *)
Example scenario_two_ops :
  (λ r, (bo_opId r, bo_seq r)) <$> boardOps (db (demo_step demo_submit demo_server).1)
  = [("x1", Some 1); ("x2", Some 2)]
  ∧ counters (db (demo_step demo_submit demo_server).1)
      !! counter_key "b1" = Some 2.
Proof. vm_compute. split; reflexivity. Qed.

Lemma read_only_enforcement_witness :
  demo_step (BoardOps "s2" demo_batch None (demo_uuid "a") None) demo_server
  = (demo_server, [Ack "s2" false (Some "read-only") None]).
Proof.
  apply (read_only_enforcement demo_hashObj demo_sanitize demo_server "s2" viewer_sock).
  - apply demo_server_viewer.
  - discriminate.
  - discriminate.
Defined.

Lemma atomic_batch_append_witness :
  let e := BoardOps "s1" demo_batch None (demo_uuid "a") (Some 4%nat) in
  Ack "s1" false (Some "persist failed") None ∈ (demo_step e demo_server).2
  ∧ db (demo_step e demo_server).1 = db demo_server
  ∧ boardOps (db (demo_step e demo_server).1) = boardOps (db demo_server)
  ∧ counters (db (demo_step e demo_server).1) = counters (db demo_server).
Proof.
  intros e.
  assert (Hack : Ack "s1" false (Some "persist failed") None
                 ∈ (demo_step e demo_server).2).
  { vm_compute. apply list_elem_of_further, list_elem_of_here. }
  split; [exact Hack|].
  apply (atomic_batch_append demo_hashObj demo_sanitize demo_server "s1" demo_batch
           None (demo_uuid "a") (Some 4%nat) _ (demo_step e demo_server).2).
  - apply surjective_pairing.
  - exact Hack.
Defined.

(** The same scenario with ids as MongoDB hands them out: user [demo_uid]
    creates the board [demo_oid], joins it and submits x1, x2. *)
Definition demo_oid : BoardId := "65a1b2c3d4e5f60718293a4b".

Definition demo_uid : UserId := "65a1b2c3d4e5f60718293a01".

Definition demo_oid_setup : list Event :=
  [PostBoard demo_uid (Some "Plan") demo_oid;
   Connect "s1" (Some demo_uid); RoomJoin "s1" demo_oid None].

Definition demo_oid_logged : Server :=
  demo_steps (demo_oid_setup ++ [demo_submit]) (boot empty_db).

Example demo_oid_log :
  (λ r, (bo_boardId r, bo_opId r, bo_seq r)) <$> boardOps (db demo_oid_logged)
  = [(demo_oid, "x1", Some 1); (demo_oid, "x2", Some 2)].
Proof. vm_compute. reflexivity. Qed.

Lemma monotonic_sequence_witness :
  (nextBoardSeq demo_oid (Some ClientSession)
     (in_txn empty_db empty_db (demo_uuid "a") 0)).1
  = Ok 1
  ∧ ∃ l, seqs_of demo_oid
           (db (demo_steps (demo_oid_setup ++ [demo_submit; demo_retry])
                  (boot empty_db)))
         = Some <$> l
         ∧ StronglySorted Z.lt l ∧ NoDup l.
Proof.
  destruct (monotonic_sequence demo_hashObj demo_sanitize empty_db
              (demo_oid_setup ++ [demo_submit; demo_retry]) demo_oid
              [demo_oid; "65a1b2c3d4e5f60718293a4c"; demo_oid]
              empty_db empty_db (demo_uuid "a") 0 eq_refl)
    as (_ & Hfirst & _ & H).
  - repeat constructor.
  - split; [apply Hfirst; reflexivity|exact H].
Defined.

(** A file that holds one record of the board, numbered 1, which the
    database does not have. *)
Definition demo_oid_artifact : Artifact :=
  {| meta_boardId := Some demo_oid; meta_title := Some "Plan"; meta_baseVersion := 0;
     meta_checksum := ""; art_snapshot := None;
     art_ops :=
       [{| art_seq := Some 1; art_opId := Some "y1"; art_op := None;
           art_authorId := Some demo_uid |}];
     art_members := [] |}.

Definition demo_oid_restored : Result (BoardId * Z) * Db :=
  restore demo_hashObj "65a1b2c3d4e5f60718293a4d" (demo_uuid "r") demo_oid_artifact
    (db demo_oid_logged).

(** C2 as stated fails: the restore tool stores the record of the file
    under its own number, 1, after the numbers 1 and 2 the server wrote. *)
Lemma monotonic_sequence_counterexample :
  demo_oid_restored.1 = Ok (demo_oid, 1)
  ∧ seqs_of demo_oid demo_oid_restored.2 = [Some 1; Some 2; Some 1]
  ∧ ¬ seqs_increasing demo_oid demo_oid_restored.2.
Proof.
  assert (Hseqs : seqs_of demo_oid demo_oid_restored.2 = [Some 1; Some 2; Some 1])
    by (vm_compute; reflexivity).
  split; [vm_compute; reflexivity|]. split; [exact Hseqs|].
  intros (l & Hl & Hsorted). rewrite Hseqs in Hl.
  destruct l as [|a [|b [|c [|? ?]]]]; simplify_eq/=.
  apply StronglySorted_inv in Hsorted as [Hrest _].
  apply StronglySorted_inv in Hrest as [_ Hlt].
  apply Forall_cons in Hlt as [Hlt _]. lia.
Qed.


Definition demo_restored_server : Server :=
  demo_steps [Connect "s1" (Some "u1"); RoomJoin "s1" "b1" None]
    (boot (demo_restore empty_db).2).

Lemma idempotent_append_witness :
  (boardOps (db (demo_step demo_retry (demo_step demo_submit demo_server).1).1)
   = boardOps (db (demo_step demo_submit demo_server).1)
   ∧ counters (db (demo_step demo_retry (demo_step demo_submit demo_server).1).1)
     = counters (db (demo_step demo_submit demo_server).1))
  ∧ (∃ d2, demo_restore (demo_restore empty_db).2 = (Ok ("b1", 3), d2)
           ∧ boardOps d2 = boardOps (demo_restore empty_db).2
           ∧ counters d2 = counters (demo_restore empty_db).2)
  ∧ (boardOps (db (demo_step demo_submit demo_restored_server).1)
     = boardOps (demo_restore empty_db).2
     ∧ counters (db (demo_step demo_submit demo_restored_server).1)
       = counters (demo_restore empty_db).2)
  ∧ (∃ maxSeq d4,
       restore demo_hashObj "fresh-id" (demo_uuid "r")
         {| meta_boardId := Some "b1"; meta_title := None; meta_baseVersion := 0;
            meta_checksum := ""; art_snapshot := None;
            art_ops := [{| art_seq := Some 7; art_opId := Some "x2"; art_op := None;
                           art_authorId := None |}];
            art_members := [] |}
         (db (demo_step demo_submit demo_server).1)
       = (Ok ("b1", maxSeq), d4)
       ∧ boardOps d4 = boardOps (db (demo_step demo_submit demo_server).1)
       ∧ counters d4 = counters (db (demo_step demo_submit demo_server).1)).
Proof.
  destruct (idempotent_append demo_hashObj demo_sanitize
              empty_db demo_setup
              demo_server (demo_step demo_submit demo_server).1
              (demo_step demo_retry (demo_step demo_submit demo_server).1).1
              "s1" "s1" owner_sock owner_sock "b1" demo_batch demo_batch None None
              (demo_uuid "a") (demo_uuid "b") None None
              (demo_step demo_submit demo_server).2
              (demo_step demo_retry (demo_step demo_submit demo_server).1).2
              "fresh-id" "fresh-id" (demo_uuid "r") (demo_uuid "r") demo_artifact
              empty_db (demo_restore empty_db).2 "b1" 3
              demo_restored_server (demo_step demo_submit demo_restored_server).1
              "s1" owner_sock demo_batch None (demo_uuid "a") None
              (demo_step demo_submit demo_restored_server).2
              "fresh-id" (demo_uuid "r")
              {| meta_boardId := Some "b1"; meta_title := None; meta_baseVersion := 0;
                 meta_checksum := ""; art_snapshot := None;
                 art_ops := [{| art_seq := Some 7; art_opId := Some "x2";
                                art_op := None; art_authorId := None |}];
                 art_members := [] |})
    as (Hops & Hrestore & Hcross1 & Hcross2).
  split; [|split; [|split]].
  - apply Hops.
    + apply demo_server_owner.
    + reflexivity.
    + apply surjective_pairing.
    + vm_compute. apply list_elem_of_further, list_elem_of_here.
    + vm_compute. reflexivity.
    + reflexivity.
    + intros item2 Hin. exists (default "" (item_opId item2)), item2.
      apply elem_of_cons in Hin as [->|Hin];
        [|apply list_elem_of_singleton in Hin as ->];
        (split_and!; [reflexivity| |reflexivity]).
      * apply list_elem_of_here.
      * apply list_elem_of_further, list_elem_of_here.
    + apply surjective_pairing.
  - apply Hrestore.
    + reflexivity.
    + intros item Hin.
      repeat (apply elem_of_cons in Hin as [->|Hin]; [by eexists|]).
      by apply elem_of_nil in Hin.
    + vm_compute. reflexivity.
  - apply Hcross1.
    + vm_compute. reflexivity.
    + reflexivity.
    + vm_compute. reflexivity.
    + reflexivity.
    + intros item3 Hin.
      apply elem_of_cons in Hin as [->|Hin];
        [|apply list_elem_of_singleton in Hin as ->].
      * eexists "x1", _. split_and!; [reflexivity|apply list_elem_of_here|reflexivity].
      * eexists "x2", _.
        split_and!; [reflexivity
                    |apply list_elem_of_further, list_elem_of_here|reflexivity].
    + apply surjective_pairing.
  - apply Hcross2.
    + reflexivity.
    + reflexivity.
    + reflexivity.
    + apply demo_server_owner.
    + reflexivity.
    + apply surjective_pairing.
    + vm_compute. apply list_elem_of_further, list_elem_of_here.
    + reflexivity.
    + discriminate.
    + intros item4 Hin. apply list_elem_of_singleton in Hin as ->.
      eexists "x2", _.
      split_and!; [reflexivity
                  |apply list_elem_of_further, list_elem_of_here|reflexivity].
Defined.

Lemma restore_idempotence_witness :
  ∃ maxSeq d1 d2,
    demo_restore empty_db = (Ok ("b1", maxSeq), d1)
    ∧ demo_restore d1 = (Ok ("b1", maxSeq), d2)
    ∧ boardOps d2 = boardOps d1
    ∧ NoDup (op_key <$> boardOps d2)
    ∧ counters d2 = counters d1
    ∧ counters d2 = {[counter_key "b1" := maxSeq]}.
Proof.
  apply (restore_idempotence demo_hashObj "fresh-id" "fresh-id" (demo_uuid "r")
           (demo_uuid "r") demo_artifact "b1").
  - reflexivity.
  - intros item Hin.
    repeat (apply elem_of_cons in Hin as [->|Hin]; [by eexists|]).
    by apply elem_of_nil in Hin.
Defined.


(** The scenario of the specification: restoring 205 operations numbered
    1 to 205 into an empty database leaves the counter at 205. *)
Example scenario_restore_205 :
  let a := {| meta_boardId := Some "b1"; meta_title := Some "Plan";
              meta_baseVersion := 1; meta_checksum := ""; art_snapshot := Some "doc";
              art_ops := (λ i, {| art_seq := Some (Z.of_nat i);
                                  art_opId := Some ("op-" +:+ pretty i);
                                  art_op := None; art_authorId := None |})
                         <$> seq 1 205;
              art_members := [] |} in
  let r := restore demo_hashObj "fresh-id" (demo_uuid "r") a empty_db in
  r.1 = Ok ("b1", 205)
  ∧ counters r.2 !! counter_key "b1" = Some 205
  ∧ length (boardOps r.2) = 205%nat.
Proof. vm_compute. split_and!; reflexivity. Qed.

Definition client_batch : list OpItem := [client_op "c1" 10; client_op "c2" 11].

Definition demo_unkeyed_1 : Server * list Output :=
  demo_step (BoardOps "s1" client_batch None (demo_uuid "a") None) demo_server.

Definition demo_unkeyed_2 : Server * list Output :=
  demo_step (BoardOps "s1" client_batch None (demo_uuid "b") None) demo_unkeyed_1.1.

Lemma unkeyed_ops_not_deduplicated_witness :
  length (boardOps (db demo_unkeyed_2.1)) = 4%nat
  ∧ bo_opId <$> boardOps (db demo_unkeyed_2.1) = ["a-0"; "a-1"; "b-0"; "b-1"].
Proof.
  destruct (unkeyed_ops_not_deduplicated demo_hashObj demo_sanitize
              demo_server demo_unkeyed_1.1 demo_unkeyed_2.1 "s1" owner_sock "b1"
              client_batch None (demo_uuid "a") (demo_uuid "b") None None
              demo_unkeyed_1.2 demo_unkeyed_2.2) as (H1 & H2 & Hlen).
  - apply demo_server_owner.
  - reflexivity.
  - intros item Hin.
    repeat (apply elem_of_cons in Hin as [->|Hin]; [reflexivity|]).
    by apply elem_of_nil in Hin.
  - apply surjective_pairing.
  - vm_compute. apply list_elem_of_further, list_elem_of_here.
  - split.
    + vm_compute. repeat constructor; intros Hin;
        repeat (apply elem_of_cons in Hin as [Hin|Hin]; [discriminate|]);
        by apply elem_of_nil in Hin.
    + intros i Hi. assert (i = 0 ∨ i = 1)%nat as [-> | ->] by (simpl in Hi; lia);
        vm_compute; reflexivity.
  - apply surjective_pairing.
  - vm_compute. apply list_elem_of_further, list_elem_of_here.
  - split.
    + vm_compute. repeat constructor; intros Hin;
        repeat (apply elem_of_cons in Hin as [Hin|Hin]; [discriminate|]);
        by apply elem_of_nil in Hin.
    + intros i Hi. assert (i = 0 ∨ i = 1)%nat as [-> | ->] by (simpl in Hi; lia);
        vm_compute; reflexivity.
  - split; [rewrite Hlen; vm_compute; reflexivity|].
    rewrite H2, H1. vm_compute. reflexivity.
Defined.

(** 200 operations in batches of 120 and 80. *)
Definition demo_200 : list Event :=
  demo_setup
  ++ [BoardOps "s1" (keyed_ops 0 120) None (demo_uuid "a") None;
      BoardOps "s1" (keyed_ops 120 80) None (demo_uuid "b") None].

Lemma checkpoint_cadence_witness :
  ∃ snap, snap ∈ boardSnapshots (db (demo_steps demo_200 (boot empty_db)))
          ∧ snap_boardId snap = "b1".
Proof.
  destruct (checkpoint_cadence demo_hashObj demo_sanitize empty_db demo_200 "b1" 1)
    as (es1 & e & es2 & snap & _ & _ & _ & _ & Hb & _ & Hin).
  - vm_compute. reflexivity.
  - vm_compute. reflexivity.
  - exists snap. split; [exact Hin|exact Hb].
Defined.

(** The same 200 operations and one more: in batches of 200 and 1 the
    checkpoint is taken; in batches of 199 and 2 the count goes from 199 to
    201, is never found at 200, and no snapshot is written. *)
Example checkpoint_depends_on_landing :
  let run sizes := demo_steps
    (demo_setup
     ++ [BoardOps "s1" (keyed_ops 0 sizes.1) None (demo_uuid "a") None;
         BoardOps "s1" (keyed_ops sizes.1 sizes.2) None (demo_uuid "b") None])
    (boot empty_db) in
  (count_ops "b1" (db (run (200, 1)%nat)) = 201
   ∧ snap_version <$> boardSnapshots (db (run (200, 1)%nat)) = [1])
  ∧ (count_ops "b1" (db (run (199, 2)%nat)) = 201
     ∧ boardSnapshots (db (run (199, 2)%nat)) = []).
Proof. vm_compute. split_and!; reflexivity. Qed.

(** ** The unguarded path: [POST /api/boards/:id/members] *)

Definition sole_owner_db : Db :=
  {| users := [{| user_id := "u1"; user_email := "ann@example.com" |}];
     boards := {[ "b1" := {| board_title := "Plan";
                             board_document := {| doc_tldraw := None; doc_ops := [] |};
                             board_members := [{| userId := "u1"; role := owner |}];
                             board_publicViewerToken := "" |} ]};
     counters := ∅; boardOps := []; boardSnapshots := [] |}.

(** C3 — Owner invariant, at the failing input. The sole owner of a board
    posts their own e-mail with role editor to the add-member route: the
    request is answered with [ok], the member's role is overwritten and the
    board is left without an owner. The same change through PATCH is
    rejected and changes nothing, and so is the removal through DELETE. *)
Theorem post_member_demotes_sole_owner :
  (∃ d' board',
     post_member "u1" "b1" (Some "Ann@Example.com") (Some editor) sole_owner_db
     = (d', JsonOk)
     ∧ boards d' !! "b1" = Some board'
     ∧ board_members board' = [{| userId := "u1"; role := editor |}]
     ∧ owners (board_members board') = [])
  ∧ patch_member "u1" "b1" (Some "u1") (Some editor) sole_owner_db
    = (sole_owner_db, JsonError 400 "Must keep at least one owner")
  ∧ delete_member "u1" "b1" "u1" sole_owner_db
    = (sole_owner_db, JsonError 400 "Must keep at least one owner").
Proof.
  split_and!.
  - eexists _, _. split_and!; [vm_compute; reflexivity|vm_compute; reflexivity|..];
      reflexivity.
  - vm_compute. reflexivity.
  - vm_compute. reflexivity.
Qed.

(** ** Further instances *)

Definition demo_board : Board :=
  {| board_title := "Plan";
     board_document := {| doc_tldraw := None; doc_ops := [] |};
     board_members := [{| userId := "u1"; role := owner |}];
     board_publicViewerToken := "" |}.

Lemma demo_server_board : boards (db demo_server) !! "b1" = Some demo_board.
Proof. vm_compute. reflexivity. Qed.

(** The state after the first submission: two records logged, the batch
    pending in the buffer of b1. *)
Definition demo_logged : Server := (demo_step demo_submit demo_server).1.

Lemma sequence_gap_free_witness :
  seqs_of demo_oid
    (db (demo_steps (demo_oid_setup ++ [demo_submit; demo_retry]) (boot empty_db)))
  = [Some 1; Some 2]
  ∧ counter_of demo_oid
      (db (demo_steps (demo_oid_setup ++ [demo_submit; demo_retry]) (boot empty_db)))
    = 2.
Proof.
  destruct (sequence_gap_free demo_hashObj demo_sanitize empty_db
              (demo_oid_setup ++ [demo_submit; demo_retry]) demo_oid) as [Hs Hc].
  - reflexivity.
  - reflexivity.
  - repeat constructor.
  - unfold demo_steps. split; [rewrite Hs|rewrite Hc]; vm_compute; reflexivity.
Defined.

Lemma log_keys_stay_unique_witness :
  keys_unique (db (demo_steps [demo_retry; demo_submit] demo_logged)).
Proof.
  apply (log_keys_stay_unique demo_hashObj demo_sanitize [demo_retry; demo_submit]
           demo_logged).
  unfold keys_unique. apply (bool_decide_unpack _). vm_compute. exact I.
Defined.

Lemma snapshot_versions_gap_free_witness :
  versions_of "b1"
    (db (demo_steps (demo_200 ++ [PostSnapshot "u1" "b1"; PostSnapshot "u1" "b1"])
           (boot empty_db)))
  = [1; 2; 3].
Proof.
  unfold demo_steps.
  rewrite (snapshot_versions_gap_free demo_hashObj demo_sanitize empty_db
             (demo_200 ++ [PostSnapshot "u1" "b1"; PostSnapshot "u1" "b1"]) "b1").
  - vm_compute. reflexivity.
  - reflexivity.
Defined.

Lemma board_ops_touch_one_board_witness :
  ops_of "b2" (boardOps (db (demo_step demo_submit demo_server).1))
  = ops_of "b2" (boardOps (db demo_server))
  ∧ buffers (demo_step demo_submit demo_server).1 !! "b2" = buffers demo_server !! "b2".
Proof.
  destruct (board_ops_touch_one_board demo_hashObj demo_sanitize demo_server "s1"
              owner_sock demo_batch None (demo_uuid "a") None "b2")
    as (Hops & _ & _ & Hbuf & _).
  - apply demo_server_owner.
  - discriminate.
  - split; [exact Hops|exact Hbuf].
Defined.

Lemma empty_batch_checkpoint_witness :
  snap_version
    <$> boardSnapshots (db (demo_step (BoardOps "s1" [] None (demo_uuid "a") None)
                              demo_server).1)
  = [1].
Proof.
  destruct (empty_batch_checkpoint demo_hashObj demo_sanitize demo_server "s1"
              owner_sock "b1" demo_board None (demo_uuid "a"))
    as (_ & _ & _ & Hsnaps).
  - apply demo_server_owner.
  - reflexivity.
  - left. reflexivity.
  - apply demo_server_board.
  - unfold demo_step. rewrite Hsnaps. vm_compute. reflexivity.
Defined.

Lemma cache_receives_batches_witness :
  ∃ board',
    boards (db (demo_steps
                  [BoardOps "s1" [client_op "c1" 10] None (demo_uuid "a") (Some 0%nat);
                   BoardOps "s1" [client_op "c1" 12; client_op "c2" 11] None
                     (demo_uuid "b") None;
                   FlushTimer "b1" None] demo_server)) !! "b1" = Some board'
    ∧ doc_ops (board_document board') = [client_op "c2" 11; client_op "c1" 12]
    ∧ doc_tldraw (board_document board') = None.
Proof.
  destruct (cache_receives_batches demo_hashObj demo_sanitize demo_server "s1"
              owner_sock "b1" demo_board [client_op "c1" 10]
              [client_op "c1" 12; client_op "c2" 11]
              (demo_uuid "a") (demo_uuid "b") (Some 0%nat) None)
    as (_ & board' & Hb & Hops & Hdoc & _).
  - apply demo_server_owner.
  - reflexivity.
  - left. reflexivity.
  - apply demo_server_board.
  - reflexivity.
  - exists board'. split; [exact Hb|]. split; [rewrite Hops|rewrite Hdoc];
      vm_compute; reflexivity.
Defined.

Lemma flush_failure_drops_buffer_witness :
  demo_step (FlushTimer "b1" (Some 1%nat)) demo_logged
  = ({| db := db demo_logged; sockets := sockets demo_logged;
        buffers := delete "b1" (buffers demo_logged) |}, []).
Proof.
  apply (flush_failure_drops_buffer demo_hashObj demo_sanitize demo_logged "b1"
           {| buf_ops := demo_batch; buf_snapshot := None; buf_timer := true |}
           (Some 1%nat)).
  - vm_compute. reflexivity.
  - right. left. reflexivity.
Defined.

(** User u2 opens board b1 (and becomes editor), joins it, and is then
    removed from the board by the owner. *)
Definition demo_editor_server : Server :=
  demo_steps [GetBoard (Some "u2") "b1" None; Connect "s3" (Some "u2");
              RoomJoin "s3" "b1" None] demo_server.

Definition editor_sock : SocketData :=
  {| sock_userId := Some "u2"; sock_boardId := Some "b1"; sock_role := editor |}.

Lemma role_fixed_at_join_witness :
  (demo_step (DeleteMember "u1" "b1" "u2") demo_editor_server).2 = [Respond JsonOk]
  ∧ (demo_step (BoardOps "s3" demo_batch None (demo_uuid "a") None)
       (demo_step (DeleteMember "u1" "b1" "u2") demo_editor_server).1).2
    = [EmitBoardOps "s3" "b1" demo_batch None; Ack "s3" true None None].
Proof.
  split; [vm_compute; reflexivity|].
  apply (role_fixed_at_join demo_hashObj demo_sanitize demo_editor_server "s3"
           editor_sock "b1" (DeleteMember "u1" "b1" "u2") demo_batch None (demo_uuid "a")).
  - vm_compute. reflexivity.
  - reflexivity.
  - right. reflexivity.
  - intros [].
Defined.

Lemma owner_kept_without_post_member_witness :
  all_owned
    (db (demo_steps
           [PostBoard "u1" (Some "Plan") "b1"; GetBoard (Some "u2") "b1" None;
            PatchMember "u1" "b1" (Some "u1") (Some editor);
            DeleteMember "u1" "b1" "u1"; PostSnapshot "u2" "b1"]
           (boot empty_db))).
Proof.
  apply (owner_kept_without_post_member demo_hashObj demo_sanitize _ (boot empty_db)).
  - intros b board Hb. simpl in Hb. rewrite lookup_empty in Hb. discriminate.
  - repeat (constructor; [intros []|]). constructor.
Defined.

Lemma unauthorized_requests_change_nothing_witness :
  delete_member "u2" "b1" "u1" sole_owner_db
  = (sole_owner_db, JsonError 403 "Only owner can remove members")
  ∧ post_snapshot demo_hashObj demo_sanitize "u2" "b1" sole_owner_db
    = (sole_owner_db, JsonError 403 "Forbidden").
Proof.
  destruct (unauthorized_requests_change_nothing demo_hashObj demo_sanitize
              sole_owner_db "u2" "b1" demo_board) as (_ & _ & Hdel & Hmember).
  - vm_compute. reflexivity.
  - intros (me & Hfind & _). vm_compute in Hfind. discriminate.
  - split; [apply Hdel|apply Hmember; reflexivity].
Defined.

Lemma join_grants_write_iff_member_witness :
  ∃ r, (demo_step (RoomJoin "s2" "b1" (Some "guess")) demo_server).2
       = [Ack "s2" true None (Some r)]
       ∧ can_write r = false.
Proof.
  destruct (join_grants_write_iff_member demo_hashObj demo_sanitize demo_server
              (demo_step (RoomJoin "s2" "b1" (Some "guess")) demo_server).1
              "s2" viewer_sock "b1" demo_board (Some "guess")
              (demo_step (RoomJoin "s2" "b1" (Some "guess")) demo_server).2)
    as (_ & _ & _ & Hiff).
  - apply demo_server_viewer.
  - apply demo_server_board.
  - apply surjective_pairing.
  - exists viewer. split; [vm_compute; reflexivity|].
    destruct (can_write viewer) eqn:Hw; [|reflexivity].
    exfalso. assert (∃ uid m, truthy (sock_userId viewer_sock) = Some uid
                       ∧ find_member uid (board_members demo_board) = Some m
                       ∧ (role m = owner ∨ role m = editor)) as (uid & m & Hu & Hm & _).
    { apply Hiff. exists viewer. split_and!; [|exact Hw|]; vm_compute; reflexivity. }
    vm_compute in Hu. injection Hu as <-. vm_compute in Hm. discriminate.
Defined.

Lemma public_links_never_open_witness :
  ∃ err,
    demo_step (RoomJoin "s9" "b1" (Some ""))
      (demo_steps (demo_setup ++ [Connect "s9" None]) (boot empty_db))
    = (demo_steps (demo_setup ++ [Connect "s9" None]) (boot empty_db),
       [Ack "s9" false (Some err) None]).
Proof.
  destruct (public_links_never_open demo_hashObj demo_sanitize empty_db
              (demo_setup ++ [Connect "s9" None])) as (_ & Hjoin & _).
  - reflexivity.
  - apply (Hjoin "s9" {| sock_userId := None; sock_boardId := None;
                          sock_role := viewer |} "b1" (Some "")).
    + vm_compute. reflexivity.
    + reflexivity.
Defined.

Lemma visitor_becomes_editor_witness :
  sockets (demo_steps [GetBoard (Some "u2") "b1" None; Connect "s3" (Some "u2");
                       RoomJoin "s3" "b1" None] demo_server) !! "s3"
  = Some editor_sock.
Proof.
  destruct (visitor_becomes_editor demo_hashObj demo_sanitize demo_server "u2" "b1"
              demo_board "s3" None None) as (_ & _ & Hsock).
  - apply demo_server_board.
  - discriminate.
  - reflexivity.
  - exact Hsock.
Defined.

Lemma export_restore_round_trip_witness :
  (restore demo_hashObj "65a1b2c3d4e5f60718293a4d" (demo_uuid "r")
     (export_payload demo_hashObj demo_oid
        {| board_title := "Plan";
           board_document := {| doc_tldraw := None; doc_ops := [] |};
           board_members := [{| userId := demo_uid; role := owner |}];
           board_publicViewerToken := "" |}
        (db demo_oid_logged)) empty_db).1
  = Ok (demo_oid, 2)
  ∧ boardOps
      (restore demo_hashObj "65a1b2c3d4e5f60718293a4d" (demo_uuid "r")
         (export_payload demo_hashObj demo_oid
            {| board_title := "Plan";
               board_document := {| doc_tldraw := None; doc_ops := [] |};
               board_members := [{| userId := demo_uid; role := owner |}];
               board_publicViewerToken := "" |}
            (db demo_oid_logged)) empty_db).2
    = boardOps (db demo_oid_logged).
Proof.
  set (a := export_payload _ _ _ _).
  destruct (restore demo_hashObj "65a1b2c3d4e5f60718293a4d" (demo_uuid "r") a empty_db)
    as [[[restored maxSeq]|e] d'] eqn:Hrun; [|by vm_compute in Hrun].
  destruct (export_restore_round_trip demo_hashObj (db demo_oid_logged) demo_oid
              {| board_title := "Plan";
                 board_document := {| doc_tldraw := None; doc_ops := [] |};
                 board_members := [{| userId := demo_uid; role := owner |}];
                 board_publicViewerToken := "" |}
              "65a1b2c3d4e5f60718293a4d" (demo_uuid "r") restored maxSeq d')
    as (-> & -> & Hlog & _).
  - vm_compute. exact I.
  - vm_compute. repeat constructor; discriminate.
  - apply (bool_decide_unpack _). vm_compute. exact I.
  - exact Hrun.
  - simpl. split; [|rewrite Hlog]; vm_compute; reflexivity.
Defined.

Lemma restore_touches_one_board_witness :
  ops_of "b2" (boardOps (demo_restore (db demo_logged)).2)
  = ops_of "b2" (boardOps (db demo_logged))
  ∧ users (demo_restore (db demo_logged)).2 = users (db demo_logged).
Proof.
  destruct (restore_touches_one_board demo_hashObj "fresh-id" (demo_uuid "r")
              demo_artifact (db demo_logged) (demo_restore (db demo_logged)).2 "b1" 3)
    as (Hother & Husers & _).
  - vm_compute. reflexivity.
  - split; [|exact Husers]. apply Hother. discriminate.
Defined.

Lemma counter_bounds_log_witness :
  seq_bounded demo_oid_restored.2
  ∧ (λ r, (bo_opId r, bo_seq r))
      <$> boardOps
            (db (demo_steps
                   [Connect "s1" (Some demo_uid); RoomJoin "s1" demo_oid None;
                    BoardOps "s1" [keyed_op "x4"] None (demo_uuid "a") None]
                   (boot demo_oid_restored.2)))
    = [("x1", Some 1); ("x2", Some 2); ("y1", Some 1); ("x4", Some 3)].
Proof.
  destruct (counter_bounds_log demo_hashObj demo_sanitize "65a1b2c3d4e5f60718293a4d"
              (demo_uuid "r") demo_oid_artifact (db demo_oid_logged)
              demo_oid_restored.2 demo_oid 1
              [Connect "s1" (Some demo_uid); RoomJoin "s1" demo_oid None;
               BoardOps "s1" [keyed_op "x4"] None (demo_uuid "a") None])
    as (Hb & _).
  - unfold seq_bounded. apply Forall_forall. vm_compute. repeat constructor; done.
  - vm_compute. reflexivity.
  - vm_compute. exact I.
  - repeat constructor.
  - split; [exact Hb|]. vm_compute. reflexivity.
Defined.

(** A store with a document record whose [meta] is [null] and a shape
    record without one, and a [document] without [meta]. *)
Definition demo_snapshot : Json :=
  JObj [("store",
         JObj [("records",
                JArr [JObj [("id", JStr "document:document");
                            ("typeName", JStr "document");
                            ("meta", JNull)];
                      JObj [("id", JStr "shape:1"); ("typeName", JStr "shape");
                            ("value", JObj [("meta", JNull)])]])]);
        ("document", JObj [("name", JStr "Plan")])].

Definition demo_sanitized : Json :=
  JObj [("store",
         JObj [("records",
                JArr [JObj [("id", JStr "document:document");
                            ("typeName", JStr "document");
                            ("meta", JObj [])];
                      JObj [("id", JStr "shape:1"); ("typeName", JStr "shape");
                            ("value", JObj [("meta", JObj [])])]])]);
        ("document", JObj [("name", JStr "Plan"); ("meta", JObj [])])].

Lemma demo_snapshot_sanitized :
  Tl.sanitizeTlSnapshotDeep (Some demo_snapshot) = Returns (Some demo_sanitized).
Proof. vm_compute. reflexivity. Qed.

Lemma sanitize_idempotent_witness :
  Tl.sanitizeTlSnapshotDeep (Some demo_sanitized) = Returns (Some demo_sanitized).
Proof.
  apply (sanitize_idempotent (Some demo_snapshot) demo_sanitized).
  vm_compute. reflexivity.
Defined.

Lemma sanitize_gives_meta_witness :
  Forall no_null_meta (records_of demo_sanitized).
Proof.
  destruct (sanitize_gives_meta (Some demo_snapshot) demo_sanitized) as [Hrecs _].
  - vm_compute. reflexivity.
  - apply Forall_forall. intros rec Hin. by destruct (Hrecs rec Hin).
Defined.

(** The sanitizer fails on a snapshot whose [document] is a string. *)
Example sanitize_throws :
  Tl.sanitizeTlSnapshotDeep (Some (JObj [("document", JStr "page")])) = Throws.
Proof. reflexivity. Qed.

(** Two messages that differ after their 200th character have the same
    key: the second is dropped by the merge. *)
Example mergedChat_long_texts :
  let text (tail : string) :=
    String.concat "" (replicate 20 "0123456789") +:+ tail in
  let m tail := {| chat_ts := Some 1700000000000; chat_userId := Some "u1";
                   chat_text := Some (text tail); chat_rest := "" |} in
  mergedChat [m "-first"] [m "-second"] = [m "-first"].
Proof. vm_compute. reflexivity. Qed.

(** Cookies decoded as they are, and a token service that knows one token. *)
Definition demo_decode (s : string) : option string := Some s.

Definition demo_jwt_sub (token : string) : option UserId :=
  if decide (token = "t1") then Some "u1" else None.

Lemma parseCookie_pair_witness :
  parseCookie demo_decode (" access_token" +:+ "=" +:+ "t1=")
  = Some {[ "access_token" := "t1=" ]}
  ∧ parseCookie demo_decode " access_token" = Some ∅.
Proof.
  destruct (parseCookie_pair demo_decode " access_token" "t1=") as [Hpair Hnone];
    [reflexivity..|].
  split; [|exact Hnone]. rewrite Hpair. vm_compute. reflexivity.
Defined.

(** A second, empty [access_token] signs the socket out. *)
Example handshake_empty_token :
  io_use demo_decode demo_jwt_sub (Some "access_token=t1") = Some (Some "u1")
  ∧ io_use demo_decode demo_jwt_sub (Some "access_token=t1; access_token=")
    = Some None.
Proof. split; vm_compute; reflexivity. Qed.

Definition demo_presence_user : Presence.User :=
  {| Presence.user_id := Some "u1"; Presence.user_name := None;
     Presence.user_color := None; Presence.user_boardId := Some "b1" |}.

Definition demo_presence : list Presence.Event :=
  [Presence.Connect "s1"; Presence.Joined "s1" "b1";
   Presence.PresenceJoin "s1" demo_presence_user;
   Presence.Connect "s2"; Presence.Joined "s2" "b1";
   Presence.PresenceJoin "s2" demo_presence_user;
   Presence.Joined "s1" "b2"; Presence.PresenceJoin "s1" demo_presence_user;
   Presence.Disconnect "s2"].

Lemma rosters_follow_rooms_witness :
  Presence.rosters_current (Presence.steps demo_presence Presence.initial).
Proof.
  apply rosters_follow_rooms. simpl.
  repeat split; try reflexivity;
    (eexists; split; [vm_compute; reflexivity|by eexists]).
Defined.

(** After the run above the socket [s1] is in the roster of [b2] alone and
    [s2] in none. *)
Example demo_presence_rosters :
  let s := Presence.steps demo_presence Presence.initial in
  JsMap.keys (Presence.roster s "b1") = []
  ∧ JsMap.keys (Presence.roster s "b2") = ["s1"].
Proof. split; vm_compute; reflexivity. Qed.

Lemma early_presence_is_never_removed_witness :
  let s' :=
    Presence.steps
      [Presence.PresenceJoin "s1" demo_presence_user; Presence.Disconnect "s1";
       Presence.Connect "s2"; Presence.Joined "s2" "b1"; Presence.Disconnect "s2"]
      (Presence.steps [Presence.Connect "s1"] Presence.initial) in
  Presence.boardOf s' !! "s1" = None
  ∧ JsMap.get "s1" (Presence.roster s' "b1")
    = Some (Presence.record_of "s1" "b1" demo_presence_user).
Proof.
  apply (early_presence_is_never_removed _ "s1" None demo_presence_user "b1").
  - vm_compute. reflexivity.
  - reflexivity.
  - reflexivity.
  - repeat constructor; discriminate.
Defined.
